(** * The authoritative zone engine of bns-plus ([lib/zone.js])

    A shallow embedding of [Zone], [RecordMap], [NameList] and the helper
    functions of [lib/zone.js], followed by the properties of the zone
    engine that the specification states about them.

    Conventions of the embedding:
    - a JavaScript function that can throw returns in the [Res] monad;
      [Throw] carries the kind of error, [OutOfFuel] marks a loop that
      was cut off by the model's fuel and never a JavaScript outcome;
    - a value that can be [undefined] in the source is an [option];
    - an array is a [list]; a method that mutates an array argument
      returns the new contents;
    - a [Map] is a [gmap]; the engine never iterates its maps, so their
      insertion order is not observable;
    - a JavaScript string is the [string] of its code units, which are
      below 256 in every name the engine is given;
    - the modules the engine imports ([util], [wire], [dnssec]) are not
      part of [lib/zone.js]; their operations are the fields of the class
      [Externals], and [SpecModel] gives one instance of them. *)

From Stdlib Require Import ZArith Lia Ascii String List Bool.
From stdpp Require Import gmap strings list sorting.

Local Open Scope string_scope.
Local Open Scope list_scope.
Local Open Scope Z_scope.

(** ** Errors and the result monad *)

Inductive Error : Type :=
| AssertionError   (* a failed [assert(...)] of bsert *)
| NotAChild        (* Error('Not a child of this zone.') *)
| NotAnNXDomain    (* Error('Not an NXDOMAIN.') *)
| InvalidRRSet     (* Error('Invalid RR set.') of [dnssec.sign] *)
| KeyDecodeFailure. (* an error of [dnssec.decodePrivate] *)

Inductive Res (A : Type) : Type :=
| Ok (a : A)
| Throw (e : Error)
| OutOfFuel.

Arguments Ok {A} a.
Arguments Throw {A} e.
Arguments OutOfFuel {A}.

#[global] Instance Res_ret : MRet Res := fun A a => Ok a.
#[global] Instance Res_bind : MBind Res := fun A B f m =>
  match m with
  | Ok a => f a
  | Throw e => Throw e
  | OutOfFuel => OutOfFuel
  end.

(** [assert(cond)] of bsert. *)
Definition assert (cond : bool) : Res unit :=
  if cond then Ok tt else Throw AssertionError.

(** [(type & 0xffff) === type] *)
Definition is_u16 (type : Z) : bool := Z.land type 65535 =? type.

(** [String.prototype.toLowerCase], code unit by code unit: below 256
    the letters with a lower-case form are A to Z (65 to 90) and the
    Latin-1 capitals 192 to 222 without the multiplication sign 215;
    the lower-case form is 32 further on. *)
Definition lower_ascii (c : ascii) : ascii :=
  let n := N_of_ascii c in
  if ((65 <=? n) && (n <=? 90))%N
     || ((192 <=? n) && (n <=? 222) && negb (n =? 215))%N
  then ascii_of_N (n + 32) else c.

Fixpoint toLowerCase (s : string) : string :=
  match s with
  | EmptyString => EmptyString
  | String c s' => String (lower_ascii c) (toLowerCase s')
  end.

(** [a[i]] for a JavaScript number [i]: [undefined] outside the array. *)
Definition at_index {A : Type} (a : list A) (i : Z) : option A :=
  if i <? 0 then None else a !! Z.to_nat i.

(** ** Constants *)

(** Modelled from the spec: [constants.types] and [constants.codes] are
    defined in [lib/constants.js]; the values are those the specification
    lists (section 6). *)
Module types.
Definition A : Z := 1.
Definition NS : Z := 2.
Definition CNAME : Z := 5.
Definition SOA : Z := 6.
Definition MX : Z := 15.
Definition AAAA : Z := 28.
Definition SRV : Z := 33.
Definition DNAME : Z := 39.
Definition DS : Z := 43.
Definition RRSIG : Z := 46.
Definition NSEC : Z := 47.
Definition ANY : Z := 255.
End types.

Module codes.
Definition NOERROR : Z := 0.
Definition NXDOMAIN : Z := 3.
End codes.

(** ** Records and messages ([wire.Record], [wire.Message]) *)

(** Modelled from the spec: the record data classes are defined in
    [lib/wire.js]. The engine reads [data.target] (CNAME, DNAME, SRV),
    [data.ns] (NS, SOA), [data.mx] (MX) and [data.typeCovered] (RRSIG);
    every other field is carried along unread. *)
Inductive RData : Type :=
| NSData (ns : string)
| CNAMEData (target : string)
| DNAMEData (target : string)
| SOAData (ns mbox : string) (serial : Z)
| MXData (preference : Z) (mx : string)
| SRVData (priority weight port : Z) (target : string)
| RRSIGData (typeCovered : Z) (signerName signature : string)
| OtherData (raw : string).

(** Modelled from the spec: [wire.Record] is defined in [lib/wire.js];
    "tuple (owner-name, type, class, ttl, rdata)". *)
Record RR : Type := mkRR {
  rr_name : string;
  rr_type : Z;
  rr_class : Z;
  rr_ttl : Z;
  rr_data : RData
}.

#[global] Instance RData_eq_dec : EqDecision RData.
Proof. solve_decision. Defined.

#[global] Instance RR_eq_dec : EqDecision RR.
Proof. solve_decision. Defined.

(** [rr.data.target], [rr.data.ns], [rr.data.mx], [rr.data.typeCovered]:
    [undefined] when the data object has no such property. *)
Definition data_target (d : RData) : option string :=
  match d with
  | CNAMEData t | DNAMEData t | SRVData _ _ _ t => Some t
  | _ => None
  end.

Definition data_ns (d : RData) : option string :=
  match d with
  | NSData n | SOAData n _ _ => Some n
  | _ => None
  end.

Definition data_mx (d : RData) : option string :=
  match d with
  | MXData _ m => Some m
  | _ => None
  end.

Definition data_typeCovered (d : RData) : option Z :=
  match d with
  | RRSIGData t _ _ => Some t
  | _ => None
  end.

(** Modelled from the spec: [wire.Message] is defined in [lib/wire.js];
    "Message constructor with fields code, aa, answer, authority,
    additional". A new message has code NOERROR, [aa] unset and empty
    sections. *)
Record Message : Type := mkMessage {
  msg_code : Z;
  msg_aa : bool;
  msg_answer : list RR;
  msg_authority : list RR;
  msg_additional : list RR
}.

Definition new_Message : Message := mkMessage codes.NOERROR false [] [] [].

(** The private key material held in [zone.zskpriv]. *)
Definition PrivateKey : Type := string.

(** ** The imported modules *)

(** The operations [lib/zone.js] takes from [util], [wire] and [dnssec],
    which are defined outside of it. [util_split] yields the labels
    argument that is only ever handed back to [util_from]. The name
    utilities are functions of their string arguments.
    [dnssec_decodePrivate] and [dnssec_sign] can throw: the first on
    malformed key material, the second on a list that is no RRset (the
    interface of the specification gives it a result for an RRset,
    "dnssec.sign(dnskey, priv, rrset) -> RRSIG Record"). *)
Class Externals : Type := {
  util_isFQDN : string -> bool;
  util_countLabels : string -> Z;
  util_split : string -> list Z;
  util_from : string -> list Z -> Z -> string;
  util_equal : string -> string -> bool;
  util_isSubdomain : string -> string -> bool;
  util_compare : string -> string -> Z;
  util_splitName : string -> list string;
  (* record.deepClone() followed by rr.canonical() *)
  wire_canonical : RR -> RR;
  dnssec_decodePrivate : string -> Res (Z * PrivateKey);
  dnssec_makeKey : string -> Z -> PrivateKey -> Z -> RR;
  dnssec_sign : RR -> PrivateKey -> list RR -> Res RR;
  keyFlags_ZONE : Z
}.

(** [util.isFQDN(name)] on a value that may be [undefined]: the name
    utilities are defined on strings and reject anything else. *)
Definition isFQDN_js `{Externals} (name : option string) : Res bool :=
  match name with
  | Some s => Ok (util_isFQDN s)
  | None => Throw AssertionError
  end.

(** [compare(a, b)] where [a] was read from an array and may be
    [undefined]; [util.compare] is defined on strings and rejects
    anything else. *)
Definition compare_js {A : Type} (compare : A -> A -> Z)
    (a : option A) (b : A) : Res Z :=
  match a with
  | Some x => Ok (compare x b)
  | None => Throw AssertionError
  end.

(** ** Helpers *)

Module Helpers.

(** The [while (start <= end)] loop of [search]: [inl pos] is the early
    [return pos], [inr start] the value of [start] when the loop ends.
    [>>> 1] acts on the sum reduced to 32 bits. *)
Fixpoint search_loop {A : Type} (fuel : nat) (items : list A) (key : A)
    (compare : A -> A -> Z) (start end_ : Z) : Res (Z + Z) :=
  match fuel with
  | O => OutOfFuel
  | S fuel' =>
      if start <=? end_ then
        let pos := Z.shiftr ((start + end_) mod 2 ^ 32) 1 in
        cmp ← compare_js compare (at_index items pos) key;
        if cmp =? 0 then Ok (inl pos)
        else if cmp <? 0 then search_loop fuel' items key compare (pos + 1) end_
        else search_loop fuel' items key compare start (pos - 1)
      else Ok (inr start)
  end.

(** The loop halves a range of at most [items.length] indices, so
    [items.length + 1] rounds of fuel are never used up (lemma
    [search_loop_spec] below). *)
Definition search {A : Type} (items : list A) (key : A)
    (compare : A -> A -> Z) (insert : bool) : Res Z :=
  r ← search_loop (S (length items)) items key compare 0
        (Z.of_nat (length items) - 1);
  match r with
  | inl pos => Ok pos
  | inr start => if negb insert then Ok (-1) else Ok start
  end.

(** Returns the array after the call together with the result. *)
Definition insert {A : Type} (items : list A) (item : A)
    (compare : A -> A -> Z) (uniq : bool) : Res (list A * Z) :=
  i ← search items item compare true;
  dup ← (if uniq && (i <? Z.of_nat (length items)) then
           cmp ← compare_js compare (at_index items i) item;
           Ok (cmp =? 0)
         else Ok false);
  if dup : bool then Ok (items, -1)
  else if i =? 0 then Ok (item :: items, i)                  (* unshift *)
  else if i =? Z.of_nat (length items) then Ok (items ++ [item], i) (* push *)
  else Ok (take (Z.to_nat i) items ++ item :: drop (Z.to_nat i) items, i).
                                                             (* splice *)

Definition insertString `{Externals} (items : list string) (name : string)
    : Res (list string * bool) :=
  '(items', i) ← insert items name util_compare true;
  Ok (items', negb (i =? -1)).

(** [null] is [None]. *)
Definition findLower `{Externals} (items : list string) (name : string)
    : Res (option string) :=
  if (length items =? 0)%nat then Ok None
  else
    i ← search items name util_compare true;
    let match_ := at_index items i in
    cmp ← compare_js util_compare match_ name;
    if cmp =? 0 then Throw NotAnNXDomain
    else if cmp <? 0 then Ok match_
    else if i =? 0 then Ok None
    else Ok (at_index items (i - 1)).

Definition isWild (name : string) : bool :=
  match name with
  | String "*" (String "." _) => true
  | _ => false
  end.

(** [rr.clone()] copies the record; only the owner changes. *)
Definition convert (name : string) (rr : RR) : RR :=
  if negb (isWild (rr_name rr)) then rr
  else mkRR name (rr_type rr) (rr_class rr) (rr_ttl rr) (rr_data rr).

End Helpers.

(** ** NameList *)

Module NameList.

Definition t : Type := list string.

Definition empty : t := [].

Definition insert `{Externals} (names : t) (name : string) : Res (t * bool) :=
  Helpers.insertString names name.

Definition lower `{Externals} (names : t) (name : string) : Res (option string) :=
  Helpers.findLower names name.

End NameList.

(** ** RecordMap *)

Module RecordMap.

(** [rrs]: type -> records; [sigs]: covered type -> RRSIG records, keyed
    by [rr.data.typeCovered], which is [undefined] for an RRSIG-typed
    record that carries other data. The back-reference [this.zone] is
    only read for [zskkey] and [zskpriv], which the operations below
    take as arguments. *)
Record t : Type := mk {
  rrs : gmap Z (list RR);
  sigs : gmap (option Z) (list RR)
}.

Definition empty : t := mk ∅ ∅.

Definition clear (m : t) : t := empty.

Section ops.
Context `{Externals}.

Definition insert (m : t) (rr : RR) : t :=
  (* if (!this.rrs.has(rr.type)) this.rrs.set(rr.type, []);
     this.rrs.get(rr.type).push(rr) *)
  let rrs' :=
    <[rr_type rr := default [] (rrs m !! rr_type rr) ++ [rr]]> (rrs m) in
  if rr_type rr =? types.RRSIG then
    let typeCovered := data_typeCovered (rr_data rr) in
    mk rrs' (<[typeCovered := default [] (sigs m !! typeCovered) ++ [rr]]> (sigs m))
  else mk rrs' (sigs m).

(** The body of the loop of [filterMatches] for one record: [true]
    when the record is pushed to [ret]. The inner loop stops at the
    first [i] in [1 .. y.length] with
    [y[y.length - i] !== x[x.length - i]]. *)
Definition matches (name : string) (rr : RR) : bool :=
  if negb (Helpers.isWild (rr_name rr)) then true
  else
    let x := util_splitName name in
    let y := util_splitName (rr_name rr) in
    if (length x <? length y)%nat then false
    else
      let y := tail y in   (* y.shift() *)
      forallb
        (fun i => bool_decide (at_index y (Z.of_nat (length y) - i)
                               = at_index x (Z.of_nat (length x) - i)))
        (seqZ 1 (Z.of_nat (length y))).

Definition filterMatches (name : string) (rrs : list RR) : list RR :=
  List.filter (matches name) rrs.

(** The statements both branches of [push] share, from
    [rrs = this.filterMatches(name, rrs)] to the on-the-fly
    signature; [type] is the key looked up in [this.sigs]. The
    signature is asked for the whole output list [an], and an error of
    [dnssec.sign] is the error of [push]. *)
Definition push_rrset (zskkey : option RR) (zskpriv : option PrivateKey)
    (m : t) (name : string) (type : Z) (rrs : list RR) (an : list RR)
    : Res (list RR) :=
  let an := an ++ map (Helpers.convert name) (filterMatches name rrs) in
  match sigs m !! Some type with
  | Some sigs => Ok (an ++ map (Helpers.convert name) (filterMatches name sigs))
  | None =>
      match zskkey, zskpriv with
      | Some key, Some priv =>
          sig ← dnssec_sign key priv an;
          Ok (an ++ [sig])
      | _, _ => Ok an
      end
  end.

Definition push (zskkey : option RR) (zskpriv : option PrivateKey)
    (m : t) (name : string) (type : Z) (an : list RR) : Res (list RR) :=
  assert (util_isFQDN name);;
  assert (is_u16 type);;
  (* the statements after the [if (type !== types.CNAME)] block *)
  let by_type :=
    match rrs m !! type with
    | Some ((_ :: _) as rrs) => push_rrset zskkey zskpriv m name type rrs an
    | _ => Ok an
    end in
  if negb (type =? types.CNAME) then
    match rrs m !! types.CNAME with
    | Some ((_ :: _) as rrs) =>
        push_rrset zskkey zskpriv m name types.CNAME rrs an
    | _ => by_type
    end
  else by_type.

Definition get (zskkey : option RR) (zskpriv : option PrivateKey)
    (m : t) (name : string) (type : Z) : Res (list RR) :=
  push zskkey zskpriv m name type [].

End ops.
End RecordMap.

(** ** Zone *)

Module Zone.

Record t : Type := mk {
  origin : string;
  count : Z;
  names : gmap string RecordMap.t;
  wild : RecordMap.t;
  nsec : NameList.t;
  zskpriv : option PrivateKey;
  zskkey : option RR
}.

(** The five-element array [query] returns. *)
Record answer : Type := mkAnswer {
  an_answer : list RR;
  an_authority : list RR;
  an_additional : list RR;
  an_aa : bool;
  an_ok : bool
}.

Section ops.
Context `{Externals}.

Definition setOrigin (z : t) (origin : option string) : Res t :=
  let origin := default "." origin in
  assert (util_isFQDN origin);;
  let origin := toLowerCase origin in
  Ok (mk origin (util_countLabels origin)
        (names z) (wild z) (nsec z) (zskpriv z) (zskkey z)).

(** [new Zone(origin)] *)
Definition new (origin : option string) : Res t :=
  setOrigin (mk "." 0 ∅ RecordMap.empty NameList.empty None None) origin.

Definition clearRecords (z : t) : t :=
  mk (origin z) (count z) ∅ RecordMap.empty NameList.empty
     (zskpriv z) (zskkey z).

Definition clear (z : t) : t :=
  clearRecords (mk "." 0 (names z) (wild z) (nsec z) (zskpriv z) (zskkey z)).

Definition setZSKFromString (z : t) (str : string) : Res t :=
  '(alg, zskpriv) ← dnssec_decodePrivate str;
  Ok (mk (origin z) (count z) (names z) (wild z) (nsec z)
        (Some zskpriv)
        (Some (dnssec_makeKey (origin z) alg zskpriv keyFlags_ZONE))).

Definition insert (z : t) (record : RR) : Res t :=
  let rr := wire_canonical record in
  (if negb (rr_type rr =? types.A) && negb (rr_type rr =? types.AAAA) then
     if negb (util_isSubdomain (origin z) (rr_name rr))
     then Throw NotAChild else Ok tt
   else Ok tt);;
  let z :=
    if Helpers.isWild (rr_name rr) then
      mk (origin z) (count z) (names z) (RecordMap.insert (wild z) rr)
         (nsec z) (zskpriv z) (zskkey z)
    else
      (* if (!this.names.has(rr.name)) this.names.set(rr.name, new RecordMap(this));
         this.names.get(rr.name).insert(rr) *)
      let map := default RecordMap.empty (names z !! rr_name rr) in
      mk (origin z) (count z)
         (<[rr_name rr := RecordMap.insert map rr]> (names z))
         (wild z) (nsec z) (zskpriv z) (zskkey z) in
  if rr_type rr =? types.NSEC then
    '(nsec', _) ← NameList.insert (nsec z) (rr_name rr);
    Ok (mk (origin z) (count z) (names z) (wild z) nsec'
          (zskpriv z) (zskkey z))
  else Ok z.

(** The loop of [fromString] over the records the parser returned. *)
Fixpoint insert_all (z : t) (rrs : list RR) : Res t :=
  match rrs with
  | [] => Ok z
  | rr :: rrs' => z' ← insert z rr; insert_all z' rrs'
  end.

(** [an] is [None] when the caller passes [undefined]. *)
Definition push (z : t) (name : string) (type : Z) (an : option (list RR))
    : Res (list RR) :=
  assert (util_isFQDN name);;
  assert (is_u16 type);;
  match an with
  | None => Throw AssertionError   (* assert(Array.isArray(an)) *)
  | Some an =>
      match names z !! name with
      | Some map => RecordMap.push (zskkey z) (zskpriv z) map name type an
      | None => RecordMap.push (zskkey z) (zskpriv z) (wild z) name type an
      end
  end.

Definition get (z : t) (name : string) (type : Z) : Res (list RR) :=
  push z name type (Some []).

Definition has (z : t) (name : string) (type : Z) : Res bool :=
  assert (util_isFQDN name);;
  assert (is_u16 type);;
  match names z !! name with
  | None => Ok false
  | Some map => Ok (bool_decide (is_Some (RecordMap.rrs map !! type)))
  end.

(** [glue(name, an, type, ns)]: [name] comes from a record's data and
    [type] and [ns] are [None] when the caller leaves them out. The
    result is [an] and [ns] after the call. *)
Definition glue (z : t) (name : option string) (an : list RR)
    (type : option Z) (ns : option (list RR))
    : Res (list RR * option (list RR)) :=
  fqdn ← isFQDN_js name;
  assert fqdn;;
  let name := default "" name in
  let initial := length an in
  an ← match type with
       | None | Some 0 =>             (* !type *)
           an ← push z name types.A (Some an);
           push z name types.AAAA (Some an)
       | Some type => push z name type (Some an)
       end;
  let final := length an in
  if (initial =? final)%nat then
    ns ← push z name types.SOA ns;
    Ok (an, Some ns)
  else Ok (an, ns).

(** The body of the [for (const rr of an)] loop of [find] for the
    record [rr]; the state is [(an, ar, ns)]. *)
Definition find_step (z : t) (type : Z) (rr : RR)
    (an ar ns : list RR) : Res (list RR * list RR * list RR) :=
  let t := rr_type rr in
  if (t =? types.CNAME) || (t =? types.DNAME) then
    '(an, ns') ← glue z (data_target (rr_data rr)) an (Some type) (Some ns);
    Ok (an, ar, default ns ns')
  else if (t =? types.NS) || (t =? types.SOA) then
    '(ar, _) ← glue z (data_ns (rr_data rr)) ar None None;
    Ok (an, ar, ns)
  else if t =? types.MX then
    '(ar, _) ← glue z (data_mx (rr_data rr)) ar None None;
    Ok (an, ar, ns)
  else if t =? types.SRV then
    '(ar, _) ← glue z (data_target (rr_data rr)) ar None None;
    Ok (an, ar, ns)
  else Ok (an, ar, ns).

(** The array iterator of [for (const rr of an)] visits index [i]
    while [i < an.length], with [an] growing during the loop. *)
Fixpoint find_loop (fuel : nat) (z : t) (type : Z) (i : nat)
    (an ar ns : list RR) : Res (list RR * list RR * list RR) :=
  match fuel with
  | O => OutOfFuel
  | S fuel' =>
      match an !! i with
      | None => Ok (an, ar, ns)
      | Some rr =>
          '(an, ar, ns) ← find_step z type rr an ar ns;
          find_loop fuel' z type (S i) an ar ns
      end
  end.

(** Returns [[an, ar, ns]]. *)
Definition find (fuel : nat) (z : t) (name : string) (type : Z)
    : Res (list RR * list RR * list RR) :=
  an ← get z name type;
  find_loop fuel z type 0 an [] [].

Definition proveNoData (z : t) (ns : list RR) : Res (list RR) :=
  push z (origin z) types.NSEC (Some ns).

Definition proveNameError (z : t) (name : string) (ns : list RR)
    : Res (list RR) :=
  lower ← NameList.lower (nsec z) name;
  ns ← match lower with
       | None | Some "" => Ok ns        (* if (lower) *)
       | Some lower => push z lower types.NSEC (Some ns)
       end;
  proveNoData z ns.

Definition query (fuel : nat) (z : t) (name : string) (type : Z)
    : Res answer :=
  assert (util_isFQDN name);;
  assert (is_u16 type);;
  let labels := util_split name in
  let zone := util_from name labels (- count z) in
  let authority := util_equal zone (origin z) in
  '(an, ar, ns) ← find fuel z name type;
  if (0 <? length an)%nat then
    if negb authority then
      if type =? types.NS then
        an ← push z name types.DS (Some an);
        Ok (mkAnswer [] an ar false true)
      else Ok (mkAnswer an [] ar false true)
    else Ok (mkAnswer an ns ar true true)
  else if authority then
    ns ← get z (origin z) types.SOA;
    ns ← proveNoData z ns;
    Ok (mkAnswer [] ns [] true false)
  else
    let index := count z + 1 in
    let child := util_from name labels (- index) in
    '(ns, glue, _) ← find fuel z child types.NS;
    if (length ns =? 0)%nat then
      ns ← (if bool_decide (origin z = ".") then
              ns ← get z (origin z) types.SOA;
              proveNameError z child ns
            else Ok []);
      Ok (mkAnswer [] ns [] false false)
    else
      ns ← push z child types.DS (Some ns);
      Ok (mkAnswer [] ns glue false true).

Definition resolve (fuel : nat) (z : t) (name : string) (type : Z)
    : Res Message :=
  assert (util_isFQDN name);;
  assert (is_u16 type);;
  let qname := toLowerCase name in
  let qtype := if type =? types.ANY then types.NS else type in
  a ← query fuel z qname qtype;
  let msg := new_Message in
  let code :=
    if negb (an_aa a) && negb (an_ok a) then codes.NXDOMAIN
    else msg_code msg in
  Ok (mkMessage code (an_aa a) (an_answer a) (an_authority a)
        (an_additional a)).

(** The second loop of [getHints]: NS records are pushed to [ns],
    A and AAAA records to [ar]. *)
Fixpoint hints_loop (hints : list RR) (ns ar : list RR) : list RR * list RR :=
  match hints with
  | [] => (ns, ar)
  | rr :: hints' =>
      if rr_type rr =? types.NS then hints_loop hints' (ns ++ [rr]) ar
      else if (rr_type rr =? types.A) || (rr_type rr =? types.AAAA)
      then hints_loop hints' ns (ar ++ [rr])
      else hints_loop hints' ns ar
  end.

(** [getHints()]. [hints] is the module-level cache, [None] while it is
    [null]; [parsed] is what [wire.fromZone(ROOT_HINTS, '.')] returns,
    which is read only when the cache is empty. The result is the cache
    after the call and [[ns, ar]]. *)
Definition getHints (parsed : list RR) (hints : option (list RR))
    : option (list RR) * (list RR * list RR) :=
  let hints :=
    match hints with
    | Some hints => hints
    | None => map wire_canonical parsed   (* for (const rr of hints) rr.canonical() *)
    end in
  (Some hints, hints_loop hints [] []).

End ops.
End Zone.

(** ** A model of the imported modules *)

Module SpecModel.

(** The pieces of [s] between its dots, the piece after the last dot
    included. *)
Fixpoint pieces (s : string) : list string :=
  match s with
  | EmptyString => [EmptyString]
  | String c s' =>
      if Ascii.eqb c "."%char then EmptyString :: pieces s'
      else match pieces s' with
           | p :: ps => String c p :: ps
           | [] => [String c EmptyString]
           end
  end.

Definition nonempty (s : string) : bool :=
  match s with EmptyString => false | _ => true end.

(** Modelled from the spec: [util.splitName] is defined in
    [lib/util.js]; the labels of a name, leftmost first, the root
    label left out (names carry no escaped dots here). *)
Definition splitName (s : string) : list string :=
  List.filter nonempty (pieces s).

(** Modelled from the spec: [util.countLabels] is defined in
    [lib/util.js]; the number of labels of a name, 0 for the root. *)
Definition countLabels (s : string) : Z := Z.of_nat (length (splitName s)).

(** Modelled from the spec: [util.isFQDN] is defined in [lib/util.js];
    a fully qualified name ends in the root label, that is in a dot. *)
Fixpoint isFQDN (s : string) : bool :=
  match s with
  | EmptyString => false
  | String c EmptyString => Ascii.eqb c "."%char
  | String _ s' => isFQDN s'
  end.

(** The offsets at which the labels of [s] start, [off] being the
    offset of [s] itself. *)
Fixpoint offsets (off : Z) (start : bool) (s : string) : list Z :=
  match s with
  | EmptyString => []
  | String c s' =>
      if Ascii.eqb c "."%char then offsets (off + 1) true s'
      else if start then off :: offsets (off + 1) false s'
      else offsets (off + 1) false s'
  end.

(** Modelled from the spec: [util.split] is defined in [lib/util.js];
    it yields the [labels] argument of [util.from], here the offset of
    each label of the name, none for the root. *)
Definition split (s : string) : list Z := offsets 0 true s.

Fixpoint substring_from (n : nat) (s : string) : string :=
  match n, s with
  | O, _ => s
  | S n', String _ s' => substring_from n' s'
  | S _, EmptyString => EmptyString
  end.

(** Modelled from the spec: [util.from] is defined in [lib/util.js];
    "suffix selector by label count from the right": a negative
    [index] counts labels from the right, so [from name labels (-k)]
    is the suffix of [name] made of its last [k] labels, the whole
    name when it has fewer. An [index] of 0 is the leftmost label, so
    the suffix is the whole name, which is what makes a root zone
    (label count 0) not authoritative for the names below it. Past the
    last label nothing is left, not even the root label: the root
    name has no label to start from, so that a root zone is not
    authoritative for the root name either. *)
Definition from (s : string) (labels : list Z) (index : Z) : string :=
  let index := if index <? 0 then index + Z.of_nat (length labels) else index in
  if Z.of_nat (length labels) <=? index then EmptyString
  else match at_index labels index with
       | Some off => substring_from (Z.to_nat off) s
       | None => s
       end.

(** Modelled from the spec: [util.equal] is defined in [lib/util.js];
    "equality is byte-equal after lowercasing". *)
Definition equal (a b : string) : bool :=
  bool_decide (toLowerCase a = toLowerCase b).

Fixpoint is_prefix (p l : list string) : bool :=
  match p, l with
  | [], _ => true
  | x :: p', y :: l' => bool_decide (x = y) && is_prefix p' l'
  | _ :: _, [] => false
  end.

(** Modelled from the spec: [util.isSubdomain] is defined in
    [lib/util.js]; [child] is a subdomain of [parent], or equal to it,
    when the labels of [parent] are the rightmost labels of [child]. *)
Definition isSubdomain (parent child : string) : bool :=
  is_prefix (rev (splitName (toLowerCase parent)))
            (rev (splitName (toLowerCase child))).

(** Lexicographic comparison of two lists, a proper prefix first. *)
Fixpoint lex {A : Type} (cmp : A -> A -> comparison) (l1 l2 : list A)
    : comparison :=
  match l1, l2 with
  | [], [] => Eq
  | [], _ :: _ => Lt
  | _ :: _, [] => Gt
  | x :: l1', y :: l2' =>
      match cmp x y with
      | Eq => lex cmp l1' l2'
      | c => c
      end
  end.

Fixpoint bytes (s : string) : list N :=
  match s with
  | EmptyString => []
  | String c s' => N_of_ascii c :: bytes s'
  end.

(** The labels of a name as the canonical order reads them: rightmost
    label first, each label as its lowercased bytes. *)
Definition canonical_key (s : string) : list (list N) :=
  rev (map bytes (splitName (toLowerCase s))).

Definition Z_of_comparison (c : comparison) : Z :=
  match c with Lt => -1 | Eq => 0 | Gt => 1 end.

(** Modelled from the spec: [util.compare] is defined in [lib/util.js];
    "DNS canonical order: compare label-by-label from the rightmost
    (TLD) label toward the leftmost; within a label, bytewise unsigned
    compare on the lowercased bytes". *)
Definition compare (a b : string) : Z :=
  Z_of_comparison (lex (lex N.compare) (canonical_key a) (canonical_key b)).

Definition canonical_data (d : RData) : RData :=
  match d with
  | NSData ns => NSData (toLowerCase ns)
  | CNAMEData t => CNAMEData (toLowerCase t)
  | DNAMEData t => DNAMEData (toLowerCase t)
  | SOAData ns mbox serial => SOAData (toLowerCase ns) (toLowerCase mbox) serial
  | MXData p mx => MXData p (toLowerCase mx)
  | SRVData p w port t => SRVData p w port (toLowerCase t)
  | RRSIGData tc signer sig => RRSIGData tc (toLowerCase signer) sig
  | OtherData raw => OtherData raw
  end.

(** Modelled from the spec: [Record.deepClone] and [Record.canonical]
    are defined in [lib/wire.js]; "insertion deep-copies and
    canonicalizes (lowercase owner, lowercase embedded names per
    type)". *)
Definition canonical (rr : RR) : RR :=
  mkRR (toLowerCase (rr_name rr)) (rr_type rr) (rr_class rr) (rr_ttl rr)
       (canonical_data (rr_data rr)).

(** The lines of [s], the piece after the last line feed included. *)
Fixpoint lines (s : string) : list string :=
  match s with
  | EmptyString => [EmptyString]
  | String c s' =>
      if Ascii.eqb c "010"%char then EmptyString :: lines s'
      else match lines s' with
           | l :: ls => String c l :: ls
           | [] => [String c EmptyString]
           end
  end.

(** What follows the prefix [p] in [s]. *)
Fixpoint after_prefix (p s : string) : option string :=
  match p, s with
  | EmptyString, _ => Some s
  | String a p', String b s' =>
      if Ascii.eqb a b then after_prefix p' s' else None
  | String _ _, EmptyString => None
  end.

(** The value of the first line "[name]: value". *)
Definition field (name : string) (ls : list string) : option string :=
  head (omap (after_prefix (name +:+ ": ")) ls).

(** The decimal number [s] starts with. *)
Fixpoint leading_number (acc : option Z) (s : string) : option Z :=
  match s with
  | EmptyString => acc
  | String c s' =>
      let n := Z.of_N (N_of_ascii c) in
      if (48 <=? n) && (n <=? 57)
      then leading_number (Some (10 * default 0 acc + (n - 48))) s'
      else acc
  end.

(** Modelled from the spec: [dnssec.decodePrivate] is defined in
    [lib/dnssec.js]; it "decodes the private key string into
    (algorithm, private-material)" and raises KeyDecodeFailure on
    "malformed material". The string is a private key file of lines
    "Field: value"; it must give its format, the number of the
    algorithm and a key, which is kept as it is written. *)
Definition decodePrivate (str : string) : Res (Z * PrivateKey) :=
  let ls := lines str in
  match field "Private-key-format" ls,
        field "Algorithm" ls ≫= leading_number None,
        field "PrivateKey" ls with
  | Some _, Some alg, Some (String c priv) => Ok (alg, String c priv)
  | _, _, _ => Throw KeyDecodeFailure
  end.

(** Modelled from the spec: [dnssec.makeKey] is defined in
    [lib/dnssec.js]; the key is a DNSKEY record (type 48) at the
    origin. The cryptography is left out. *)
Definition makeKey (origin : string) (alg : Z) (priv : PrivateKey) (flags : Z)
    : RR :=
  mkRR origin 48 1 0 (OtherData priv).

(** Modelled from the spec: the test [dnssec.sign] makes of its
    argument is in [lib/dnssec.js]; "RRset: all resource records
    sharing the same owner, class, and type". There is no empty
    RRset. *)
Definition is_rrset (rrset : list RR) : bool :=
  match rrset with
  | [] => false
  | rr :: rest =>
      forallb (fun r => (rr_type r =? rr_type rr) && (rr_class r =? rr_class rr)
                        && equal (rr_name r) (rr_name rr)) rest
  end.

(** Modelled from the spec: [dnssec.sign] is defined in
    [lib/dnssec.js]; "dnssec.sign(dnskey, priv, rrset) -> RRSIG
    Record". It signs an RRset and throws 'Invalid RR set.' on any
    other list. The signature is one RRSIG record at the owner of the
    RRset that covers its type and names the key owner as signer; the
    cryptography is left out. *)
Definition sign (key : RR) (priv : PrivateKey) (rrset : list RR) : Res RR :=
  match rrset with
  | rr :: _ =>
      if is_rrset rrset
      then Ok (mkRR (rr_name rr) types.RRSIG (rr_class rr) (rr_ttl rr)
                    (RRSIGData (rr_type rr) (rr_name key) priv))
      else Throw InvalidRRSet
  | [] => Throw InvalidRRSet
  end.

#[global] Instance externals : Externals := {|
  util_isFQDN := isFQDN;
  util_countLabels := countLabels;
  util_split := split;
  util_from := from;
  util_equal := equal;
  util_isSubdomain := isSubdomain;
  util_compare := compare;
  util_splitName := splitName;
  wire_canonical := canonical;
  dnssec_decodePrivate := decodePrivate;
  dnssec_makeKey := makeKey;
  dnssec_sign := sign;
  keyFlags_ZONE := 256
|}.

End SpecModel.


(** ** Vocabulary of the properties *)

(** What the name list needs of [util.compare]: it is the sign of a
    total preorder. Names that compare as 0 are canonically equal. *)
Record comparator {A : Type} (compare : A -> A -> Z) : Prop := {
  cmp_refl : forall a, compare a a = 0;
  cmp_antisym : forall a b, compare a b < 0 <-> 0 < compare b a;
  cmp_trans : forall a b c, compare a b <= 0 -> compare b c <= 0 -> compare a c <= 0
}.

Definition before {A : Type} (compare : A -> A -> Z) (a b : A) : Prop :=
  compare a b < 0.

(** Strictly increasing, hence without canonical duplicates. *)
Definition sorted {A : Type} (compare : A -> A -> Z) (items : list A) : Prop :=
  StronglySorted (before compare) items.

(** [new Zone(origin)] followed by the insertion of [rrs] in order, as
    [Zone.fromString] does with the records of a zone file. *)
Definition build `{Externals} (origin : string) (rrs : list RR) : Res Zone.t :=
  z ← Zone.new (Some origin); Zone.insert_all z rrs.

(** The zone states the public methods of [Zone] can produce. *)
Inductive reachable `{Externals} : Zone.t -> Prop :=
| reach_new origin z :
    Zone.new origin = Ok z -> reachable z
| reach_setOrigin z origin z' :
    reachable z -> Zone.setOrigin z origin = Ok z' -> reachable z'
| reach_setZSK z str z' :
    reachable z -> Zone.setZSKFromString z str = Ok z' -> reachable z'
| reach_insert z rr z' :
    reachable z -> Zone.insert z rr = Ok z' -> reachable z'
| reach_clear z :
    reachable z -> reachable (Zone.clear z)
| reach_clearRecords z :
    reachable z -> reachable (Zone.clearRecords z).

(** Every RRset of a [RecordMap] is non-empty and filed under the type
    of its records, every list of signatures under the type they cover,
    and all owners satisfy [P]. *)
Definition recordmap_ok (P : string -> Prop) (m : RecordMap.t) : Prop :=
  (forall type rrs, RecordMap.rrs m !! type = Some rrs ->
     rrs <> [] /\ Forall (fun rr => P (rr_name rr) /\ rr_type rr = type) rrs)
  /\ (forall covered sigs, RecordMap.sigs m !! covered = Some sigs ->
     sigs <> [] /\ Forall (fun rr => P (rr_name rr) /\ rr_type rr = types.RRSIG
                             /\ data_typeCovered (rr_data rr) = covered) sigs).

(** The exact-owner table holds, under each name, records of that owner,
    none of them a wildcard; the wildcard table holds wildcard owners. *)
Definition zone_ok (z : Zone.t) : Prop :=
  (forall name m, Zone.names z !! name = Some m ->
     Helpers.isWild name = false /\ recordmap_ok (fun owner => owner = name) m)
  /\ recordmap_ok (fun owner => Helpers.isWild owner = true) (Zone.wild z).

(** The [RecordMap] that [Zone.push] consults for [name]. *)
Definition consulted (z : Zone.t) (name : string) : RecordMap.t :=
  match Zone.names z !! name with
  | Some map => map
  | None => Zone.wild z
  end.

(** A record with its owner rewritten to [name]. *)
Definition with_owner (name : string) (rr : RR) : RR :=
  mkRR name (rr_type rr) (rr_class rr) (rr_ttl rr) (rr_data rr).

(** The wildcard matching rule in the words of the specification: an
    owner [*.T] matches a query name [Q] iff [Q] has strictly more labels
    than [*.T] and every label of [T] equals the corresponding rightmost
    label of [Q]. [owner] is [*.T], so [T] is [owner] without its first
    label. *)
Definition wildcard_rule_spec `{Externals} (Q owner : string) : Prop :=
  (length (util_splitName owner) < length (util_splitName Q))%nat
  /\ tail (util_splitName owner) `suffix_of` util_splitName Q.

(** The rule the engine applies: [Q] has at least as many labels as
    [*.T], that is strictly more than [T]. *)
Definition wildcard_rule `{Externals} (Q owner : string) : Prop :=
  (length (util_splitName owner) <= length (util_splitName Q))%nat
  /\ tail (util_splitName owner) `suffix_of` util_splitName Q.

#[global] Instance wildcard_rule_dec `{Externals} (Q owner : string) :
  Decision (wildcard_rule Q owner).
Proof. unfold wildcard_rule. apply _. Defined.

#[global] Instance wildcard_rule_spec_dec `{Externals} (Q owner : string) :
  Decision (wildcard_rule_spec Q owner).
Proof. unfold wildcard_rule_spec. apply _. Defined.

(** The signature made on the fly: when the zone has its ZSK, the one
    [dnssec.sign] returns for the list [an]; an error of [dnssec.sign]
    is passed on. *)
Definition on_the_fly `{Externals} (zskkey : option RR)
    (zskpriv : option PrivateKey) (an : list RR) : Res (list RR) :=
  match zskkey, zskpriv with
  | Some key, Some priv => sig ← dnssec_sign key priv an; Ok [sig]
  | _, _ => Ok []
  end.

(** The signatures [RecordMap.push] appends after the records [an] now
    ends with: the stored RRSIGs that cover [type], or else the
    signature made on the fly. *)
Definition signatures `{Externals} (zskkey : option RR)
    (zskpriv : option PrivateKey) (m : RecordMap.t) (name : string)
    (type : Z) (an : list RR) : Res (list RR) :=
  match RecordMap.sigs m !! Some type with
  | Some sigs => Ok (map (Helpers.convert name) (RecordMap.filterMatches name sigs))
  | None => on_the_fly zskkey zskpriv an
  end.

(** The signatures that follow an RRset of an exact owner: the stored
    RRSIGs that cover [type], or else the signature made on the fly
    over the list [an]. *)
Definition covering `{Externals} (z : Zone.t) (m : RecordMap.t) (type : Z)
    (an : list RR) : Res (list RR) :=
  match RecordMap.sigs m !! Some type with
  | Some sigs => Ok sigs
  | None => on_the_fly (Zone.zskkey z) (Zone.zskpriv z) an
  end.


(** A list [dnssec.sign] can take for an RRset has a first record and
    no record of another type. *)
Definition one_type (l : list RR) : bool :=
  match l with
  | [] => false
  | rr :: rest => forallb (fun r => rr_type r =? rr_type rr) rest
  end.

(** What the engine can rely on of [dnssec.sign]: it signs RRsets, and
    throws 'Invalid RR set.' on the empty list and on a list of
    records of more than one type. *)
Definition sign_rejects_mixed `{Externals} : Prop :=
  forall key priv l, one_type l = false ->
    dnssec_sign key priv l = Throw InvalidRRSet.

(** The tables, origin and key of the zone after [insert] of the
    canonical record [rr], the name list left as it was. *)
Definition inserted (z : Zone.t) (rr : RR) : Zone.t :=
  if Helpers.isWild (rr_name rr) then
    Zone.mk (Zone.origin z) (Zone.count z) (Zone.names z)
            (RecordMap.insert (Zone.wild z) rr)
            (Zone.nsec z) (Zone.zskpriv z) (Zone.zskkey z)
  else
    Zone.mk (Zone.origin z) (Zone.count z)
            (<[rr_name rr := RecordMap.insert
                 (default RecordMap.empty (Zone.names z !! rr_name rr)) rr]> (Zone.names z))
            (Zone.wild z) (Zone.nsec z) (Zone.zskpriv z) (Zone.zskkey z).

(** The RRset of [type] stored in [m] followed by the signatures
    covering it, as appended to the list [an]. *)
Definition stored `{Externals} (z : Zone.t) (m : RecordMap.t) (type : Z)
    (an : list RR) : Res (list RR) :=
  match RecordMap.rrs m !! type with
  | Some rrs => sigs ← covering z m type (an ++ rrs); Ok (rrs ++ sigs)
  | None => Ok []
  end.



(** Lower case in the words of the specification ("Lowercase [name]"):
    each capital letter of a name is replaced by its small letter. *)
Definition upper_case_letters : list ascii :=
  list_ascii_of_string "ABCDEFGHIJKLMNOPQRSTUVWXYZ".
Definition lower_case_letters : list ascii :=
  list_ascii_of_string "abcdefghijklmnopqrstuvwxyz".

Fixpoint replace_letter (c : ascii) (upper lower : list ascii) : ascii :=
  match upper, lower with
  | u :: upper', l :: lower' =>
      if Ascii.eqb c u then l else replace_letter c upper' lower'
  | _, _ => c
  end.

Fixpoint lowercase (s : string) : string :=
  match s with
  | EmptyString => EmptyString
  | String c s' =>
      String (replace_letter c upper_case_letters lower_case_letters) (lowercase s')
  end.

(** A name of ASCII characters, as the names of the DNS are. *)
Definition ascii_only (s : string) : bool :=
  forallb (fun c => (N_of_ascii c <? 128)%N) (list_ascii_of_string s).

(** The response code [resolve] gives to a result of [query]. *)
Definition response_code (a : Zone.answer) : Z :=
  if negb (Zone.an_aa a) && negb (Zone.an_ok a) then codes.NXDOMAIN
  else codes.NOERROR.

(** ** Example records *)

Module Examples.

Definition soa_root : RR :=
  mkRR "." types.SOA 1 86400 (SOAData "a.root-servers.net." "nstld.verisign-grs.com." 1).
Definition ns_com : RR :=
  mkRR "com." types.NS 1 172800 (NSData "a.gtld-servers.net.").
Definition a_gtld : RR :=
  mkRR "a.gtld-servers.net." types.A 1 172800 (OtherData "192.5.6.30").
Definition nsec_root : RR := mkRR "." types.NSEC 1 86400 (OtherData "com.").
Definition nsec_com : RR := mkRR "com." types.NSEC 1 86400 (OtherData ".").

Definition soa_example : RR :=
  mkRR "example." types.SOA 1 3600 (SOAData "ns.example." "admin.example." 1).
Definition nsec_example : RR :=
  mkRR "example." types.NSEC 1 3600 (OtherData "a.example.").
Definition a_ns_example : RR :=
  mkRR "ns.example." types.A 1 3600 (OtherData "192.0.2.53").
Definition cname_a : RR :=
  mkRR "a.example." types.CNAME 1 3600 (CNAMEData "nx.other.").
Definition a_a : RR :=
  mkRR "a.example." types.A 1 3600 (OtherData "192.0.2.1").
Definition cname_self : RR :=
  mkRR "loop.example." types.CNAME 1 3600 (CNAMEData "loop.example.").
Definition wild_a : RR :=
  mkRR "*.example." types.A 1 3600 (OtherData "192.0.2.7").

(** A private key file for [setZSKFromString]. *)
Definition zsk : string :=
  "Private-key-format: v1.3" +:+ String "010" EmptyString
  +:+ "Algorithm: 13 (ECDSAP256SHA256)" +:+ String "010" EmptyString
  +:+ "PrivateKey: AAAAAAAAAAAAAAAAAAAAAAAAAAAAAAAAAAAAAAAAAAE="
  +:+ String "010" EmptyString.

End Examples.

(** ** Vocabulary of the further properties *)

(** [rr] is one of the records the tables of the zone hold: in an RRset
    of the exact-owner table or of the wildcard table. *)
Definition stored_record (z : Zone.t) (rr : RR) : Prop :=
  (exists name m rrs, Zone.names z !! name = Some m
     /\ RecordMap.rrs m !! rr_type rr = Some rrs /\ rr ∈ rrs)
  \/ (exists rrs, RecordMap.rrs (Zone.wild z) !! rr_type rr = Some rrs /\ rr ∈ rrs).

(** The zone holds an NSEC record owned by [name]. *)
Definition nsec_owner (z : Zone.t) (name : string) : Prop :=
  exists rr, stored_record z rr /\ rr_type rr = types.NSEC /\ rr_name rr = name.

(** The types for which [find] chases a target. *)
Definition chased (type : Z) : bool :=
  (type =? types.CNAME) || (type =? types.DNAME) || (type =? types.NS)
  || (type =? types.SOA) || (type =? types.MX) || (type =? types.SRV).

(** A record for which the loop of [find] does nothing. *)
Definition inert (rr : RR) : bool := negb (chased (rr_type rr)).

(** The name [find] glues into the additional section for [rr]. *)
Definition glue_target (rr : RR) : option string :=
  if (rr_type rr =? types.NS) || (rr_type rr =? types.SOA) then data_ns (rr_data rr)
  else if rr_type rr =? types.MX then data_mx (rr_data rr)
  else if rr_type rr =? types.SRV then data_target (rr_data rr)
  else None.

(** The exact-owner table has something to append for an address query
    at [name]: an A, AAAA or CNAME RRset. *)
Definition has_address (z : Zone.t) (name : string) : Prop :=
  exists m, Zone.names z !! name = Some m
    /\ (is_Some (RecordMap.rrs m !! types.A)
        \/ is_Some (RecordMap.rrs m !! types.AAAA)
        \/ is_Some (RecordMap.rrs m !! types.CNAME)).

(** [rr] is inert, or an NS, SOA, MX or SRV record whose target is a
    fully qualified name with an address in the zone. *)
Definition glued `{Externals} (z : Zone.t) (rr : RR) : Prop :=
  inert rr = true
  \/ (rr_type rr <> types.CNAME /\ rr_type rr <> types.DNAME
      /\ exists target, glue_target rr = Some target
           /\ util_isFQDN target = true /\ has_address z target).

(** [authority] and [child] as [query] computes them. *)
Definition authoritative `{Externals} (z : Zone.t) (name : string) : bool :=
  util_equal (util_from name (util_split name) (- Zone.count z)) (Zone.origin z).

Definition child_of `{Externals} (z : Zone.t) (name : string) : string :=
  util_from name (util_split name) (- (Zone.count z + 1)).

(** A zone without records, as [new Zone()] and [clear()] leave it. *)
Definition no_records (z : Zone.t) : Prop :=
  Zone.names z = ∅ /\ Zone.wild z = RecordMap.empty /\ Zone.nsec z = [].

(** [insert] takes the record: its canonical copy is an A or an AAAA
    record, or is owned by a subdomain of [origin]. *)
Definition in_zone `{Externals} (origin : string) (record : RR) : bool :=
  let rr := wire_canonical record in
  (rr_type rr =? types.A) || (rr_type rr =? types.AAAA)
  || util_isSubdomain origin (rr_name rr).

(** The signatures stored in [m] that cover [type]. *)
Definition stored_sigs (m : RecordMap.t) (type : Z) : list RR :=
  default [] (RecordMap.sigs m !! Some type).

(** The RRset of [type] stored in [m] followed by the stored
    signatures covering it. *)
Definition stored_rrset (m : RecordMap.t) (type : Z) : list RR :=
  match RecordMap.rrs m !! type with
  | Some rrs => rrs ++ stored_sigs m type
  | None => []
  end.

Module MoreExamples.

Definition a_www : RR :=
  mkRR "www.example." types.A 1 3600 (OtherData "192.0.2.80").
Definition cname_www : RR :=
  mkRR "web.example." types.CNAME 1 3600 (CNAMEData "www.example.").
Definition ns_example : RR :=
  mkRR "example." types.NS 1 3600 (NSData "ns.example.").
Definition ns_sub : RR :=
  mkRR "sub.example." types.NS 1 3600 (NSData "ns.sub.example.").
Definition a_ns_sub : RR :=
  mkRR "ns.sub.example." types.A 1 3600 (OtherData "192.0.2.54").
Definition ds_sub : RR :=
  mkRR "sub.example." types.DS 1 3600 (OtherData "12345 13 2 ab").
Definition ds_com : RR :=
  mkRR "com." types.DS 1 86400 (OtherData "30909 8 2 e2").
Definition rrsig_a_www : RR :=
  mkRR "www.example." types.RRSIG 1 3600 (RRSIGData types.A "example." "sig").
Definition mx_example : RR :=
  mkRR "example." types.MX 1 3600 (MXData 10 "mail.example.").
Definition txt_root : RR :=
  mkRR "." 16 1 3600 (OtherData "hint").

Definition rrsig_cname_www : RR :=
  mkRR "web.example." types.RRSIG 1 3600 (RRSIGData types.CNAME "example." "sig").

End MoreExamples.

(** * Properties *)

(** ** Binary search over a sorted array *)

Section search_theory.
Context {A : Type} (compare : A -> A -> Z).

Hypothesis laws : comparator compare.

Local Abbreviation precedes := (before compare).
Local Abbreviation ordered := (sorted compare).


Lemma cmp_eq_sym a b : compare a b = 0 -> compare b a = 0.
Proof.
  intros Hab. pose proof (cmp_antisym _ laws a b). pose proof (cmp_antisym _ laws b a). lia.
Qed.

Lemma before_trans a b c : precedes a b -> precedes b c -> precedes a c.
Proof.
  unfold before. intros Hab Hbc.
  assert (compare a c <= 0) by (apply (cmp_trans _ laws a b c); lia).
  destruct (Z.eq_dec (compare a c) 0) as [Heq|]; [|lia].
  apply cmp_eq_sym in Heq.
  assert (compare c b <= 0) by (apply (cmp_trans _ laws c a b); lia).
  apply (cmp_antisym _ laws) in Hbc. lia.
Qed.

Lemma before_eq_l a b c : compare a b = 0 -> precedes b c -> precedes a c.
Proof.
  unfold before. intros Hab Hbc.
  assert (compare a c <= 0) by (apply (cmp_trans _ laws a b c); lia).
  destruct (Z.eq_dec (compare a c) 0) as [Heq|]; [|lia].
  apply cmp_eq_sym in Heq.
  assert (compare c b <= 0) by (apply (cmp_trans _ laws c a b); lia).
  apply (cmp_antisym _ laws) in Hbc. lia.
Qed.

Lemma before_eq_r a b c : precedes a b -> compare b c = 0 -> precedes a c.
Proof.
  unfold before. intros Hab Hbc.
  assert (compare a c <= 0) by (apply (cmp_trans _ laws a b c); lia).
  destruct (Z.eq_dec (compare a c) 0) as [Heq|]; [|lia].
  apply cmp_eq_sym in Heq.
  assert (compare b a <= 0) by (apply (cmp_trans _ laws b c a); lia).
  apply (cmp_antisym _ laws) in Hab. lia.
Qed.

Lemma before_irrefl a : ~ precedes a a.
Proof. unfold before. rewrite (cmp_refl _ laws). lia. Qed.

Lemma sorted_lookup items i j x y :
  ordered items -> (i < j)%nat ->
  items !! i = Some x -> items !! j = Some y -> precedes x y.
Proof.
  intros Hs. revert i j. induction Hs as [|a l Hs IH Hall]; intros i j Hij Hi Hj.
  - by rewrite lookup_nil in Hi.
  - destruct j as [|j]; [lia|]. simpl in Hj.
    destruct i as [|i]; simpl in Hi.
    + inversion Hi; subst. rewrite Forall_forall in Hall. apply Hall.
      eapply list_elem_of_lookup_2; eauto.
    + eapply (IH i j); eauto. lia.
Qed.

Lemma sorted_NoDup items : ordered items -> NoDup items.
Proof.
  induction 1 as [|a l Hs IH Hall]; constructor; auto.
  intros Hin. rewrite Forall_forall in Hall.
  exact (before_irrefl a (Hall a Hin)).
Qed.

Lemma at_index_Some (items : list A) (i : Z) x :
  at_index items i = Some x <-> 0 <= i /\ items !! Z.to_nat i = Some x.
Proof.
  unfold at_index. destruct (Z.ltb_spec i 0); split; intros; try easy; try lia.
Qed.

Lemma at_index_in_range (items : list A) (i : Z) :
  0 <= i < Z.of_nat (length items) -> exists x, at_index items i = Some x.
Proof.
  intros Hi. destruct (items !! Z.to_nat i) as [x|] eqn:E.
  - exists x. apply at_index_Some. split; [lia|done].
  - apply lookup_ge_None in E. lia.
Qed.

(** The result of the loop of [search] on a sorted array: the index of
    an element canonically equal to the key, or the index where the
    key belongs. The loop never runs out of fuel and never reads
    outside the array. *)
Lemma search_loop_spec fuel (items : list A) key start end_ :
  ordered items ->
  Z.of_nat (length items) < 2 ^ 31 ->
  0 <= start -> end_ < Z.of_nat (length items) -> start <= end_ + 1 ->
  (Z.to_nat (end_ - start + 1) < fuel)%nat ->
  (forall i x, items !! i = Some x -> Z.of_nat i < start -> compare x key < 0) ->
  (forall i x, items !! i = Some x -> end_ < Z.of_nat i -> 0 < compare x key) ->
  (exists pos x, Helpers.search_loop fuel items key compare start end_ = Ok (inl pos)
      /\ 0 <= pos /\ items !! Z.to_nat pos = Some x /\ compare x key = 0)
  \/ (exists s, Helpers.search_loop fuel items key compare start end_ = Ok (inr s)
      /\ 0 <= s <= Z.of_nat (length items)
      /\ (forall i x, items !! i = Some x -> Z.of_nat i < s -> compare x key < 0)
      /\ (forall i x, items !! i = Some x -> s <= Z.of_nat i -> 0 < compare x key)).
Proof.
  intros Hs Hlen. revert start end_.
  induction fuel as [|fuel IH]; intros start end_ H0 Hend Hse Hfuel Hlo Hhi; [lia|].
  simpl. destruct (Z.leb_spec start end_) as [Hle|Hgt].
  - assert (Hmod : (start + end_) mod 2 ^ 32 = start + end_)
      by (apply Z.mod_small; lia).
    rewrite Hmod, Z.shiftr_div_pow2 by lia.
    change (2 ^ 1) with 2.
    set (pos := (start + end_) / 2).
    assert (Hpos : start <= pos <= end_).
    { unfold pos. split.
      - apply Z.div_le_lower_bound; lia.
      - apply Z.div_le_upper_bound; lia. }
    destruct (at_index_in_range items pos) as [x Hx]; [lia|].
    rewrite Hx. simpl.
    apply at_index_Some in Hx as [_ Hx].
    destruct (Z.eqb_spec (compare x key) 0) as [Heq|Hne].
    + left. exists pos, x. repeat split; auto; lia.
    + destruct (Z.ltb_spec (compare x key) 0) as [Hlt|Hge].
      * apply IH; try lia; [|exact Hhi].
        intros i y Hy Hi.
        destruct (decide (i = Z.to_nat pos)) as [->|Hne'].
        -- rewrite Hx in Hy. by inversion Hy; subst.
        -- assert (precedes y x) by (eapply (sorted_lookup items i (Z.to_nat pos)); eauto; lia).
           eapply before_trans; eauto.
      * apply IH; try lia; [exact Hlo|].
        intros i y Hy Hi.
        destruct (decide (i = Z.to_nat pos)) as [->|Hne'].
        -- rewrite Hx in Hy. inversion Hy; subst. lia.
        -- assert (precedes x y) by (eapply (sorted_lookup items (Z.to_nat pos) i); eauto; lia).
           apply (cmp_antisym _ laws).
           assert (precedes key x) by (apply (cmp_antisym _ laws); lia).
           eapply before_trans; eauto.
  - right. exists start. split; [done|]. split; [lia|]. split.
    + intros i x Hx Hi. eapply Hlo; eauto.
    + intros i x Hx Hi. eapply Hhi; eauto. lia.
Qed.

(** [search(items, key, compare, true)] on a sorted array. *)
Lemma search_spec (items : list A) key :
  ordered items ->
  Z.of_nat (length items) < 2 ^ 31 ->
  exists i, Helpers.search items key compare true = Ok i
    /\ 0 <= i <= Z.of_nat (length items)
    /\ ((exists x, items !! Z.to_nat i = Some x /\ compare x key = 0)
        \/ ((forall j x, items !! j = Some x -> Z.of_nat j < i -> compare x key < 0)
            /\ (forall j x, items !! j = Some x -> i <= Z.of_nat j -> 0 < compare x key))).
Proof.
  intros Hs Hlen. unfold Helpers.search.
  destruct (search_loop_spec (S (length items)) items key 0
              (Z.of_nat (length items) - 1) Hs Hlen)
    as [(pos & x & -> & Hp & Hx & Hc)|(s & -> & Hr & Hlo & Hhi)]; try lia.
  - intros i x Hx Hi. apply lookup_lt_Some in Hx. lia.
  - simpl. exists pos. split; [done|].
    pose proof (lookup_lt_Some _ _ _ Hx). split; [lia|]. left. eauto.
  - simpl. exists s. split; [done|]. split; [lia|]. right. split; auto.
Qed.

End search_theory.

(** ** The sorted name list *)

Section namelist_theory.
Context `{Externals}.
Hypothesis laws : comparator util_compare.

Local Abbreviation ordered := (sorted util_compare).
Local Abbreviation precedes := (before util_compare).

Lemma insert_length_ge {A : Type} (cmp : A -> A -> Z) items item uniq items' i :
  Helpers.insert items item cmp uniq = Ok (items', i) ->
  (length items <= length items')%nat.
Proof.
  unfold Helpers.insert. intros Hi.
  destruct (Helpers.search items item cmp true) as [k| |]; simpl in Hi; try discriminate.
  destruct (uniq && (k <? Z.of_nat (length items))).
  - destruct (compare_js cmp (at_index items k) item) as [c| |]; simpl in Hi; try discriminate.
    destruct (c =? 0); [by inversion Hi; subst|].
    destruct (k =? 0); [inversion Hi; subst; simpl; lia|].
    destruct (k =? Z.of_nat (length items)); inversion Hi; subst.
    + rewrite length_app. simpl. lia.
    + rewrite length_app. simpl. rewrite length_take, length_drop. lia.
  - simpl in Hi.
    destruct (k =? 0); [inversion Hi; subst; simpl; lia|].
    destruct (k =? Z.of_nat (length items)); inversion Hi; subst.
    + rewrite length_app. simpl. lia.
    + rewrite length_app. simpl. rewrite length_take, length_drop. lia.
Qed.

Lemma sorted_splice (items : list string) (item : string) (n : nat) :
  ordered items ->
  (forall j x, items !! j = Some x -> (j < n)%nat -> precedes x item) ->
  (forall j x, items !! j = Some x -> (n <= j)%nat -> precedes item x) ->
  ordered (take n items ++ item :: drop n items).
Proof.
  intros Hs Hlo Hhi. unfold sorted.
  apply StronglySorted_app. split; [|split].
  - intros x1 x2 H1 H2.
    apply list_elem_of_lookup in H1 as [j1 H1].
    apply lookup_take_Some in H1 as [H1 Hj1].
    apply elem_of_cons in H2 as [->|H2].
    + eapply Hlo; eauto.
    + apply list_elem_of_lookup in H2 as [j2 H2].
      rewrite lookup_drop in H2.
      eapply (sorted_lookup util_compare items j1 (n + j2)); eauto. lia.
  - rewrite <- (take_drop n items) in Hs.
    apply StronglySorted_app in Hs. tauto.
  - apply StronglySorted_cons. split.
    + apply Forall_forall. intros x Hx.
      apply list_elem_of_lookup in Hx as [j Hx].
      rewrite lookup_drop in Hx. eapply Hhi; eauto. lia.
    + rewrite <- (take_drop n items) in Hs.
      apply StronglySorted_app in Hs. tauto.
Qed.

(** [insertString] keeps the array sorted and adds at most [name]. *)
Lemma insertString_sorted (items : list string) (name : string) :
  ordered items ->
  Z.of_nat (length items) < 2 ^ 31 ->
  exists items' b, Helpers.insertString items name = Ok (items', b)
    /\ ordered items'
    /\ (forall x, x ∈ items' <-> x ∈ items \/ (b = true /\ x = name)).
Proof.
  intros Hs Hlen. unfold Helpers.insertString, Helpers.insert.
  destruct (search_spec util_compare laws items name Hs Hlen)
    as (i & -> & Hi & Hcase). simpl.
  destruct Hcase as [(x & Hx & Hc)|[Hlo Hhi]].
  - pose proof (lookup_lt_Some _ _ _ Hx) as Hlt.
    replace (i <? Z.of_nat (length items)) with true
      by (symmetry; apply Z.ltb_lt; lia).
    assert (Hat : at_index items i = Some x) by (apply at_index_Some; split; [lia|done]).
    rewrite Hat. simpl. rewrite Hc. simpl.
    exists items, false. split; [done|]. split; [done|].
    intros y. split; [tauto|]. intros [?|[? _]]; [done|discriminate].
  - assert (Hsp : ordered (take (Z.to_nat i) items ++ name :: drop (Z.to_nat i) items)).
    { apply sorted_splice; auto.
      - intros j x Hx Hj. eapply Hlo; eauto. lia.
      - intros j x Hx Hj. apply (cmp_antisym _ laws). eapply Hhi; eauto. lia. }
    assert (Hmem : forall x, x ∈ take (Z.to_nat i) items ++ name :: drop (Z.to_nat i) items
                     <-> x ∈ items \/ (true = true /\ x = name)).
    { intros x. rewrite elem_of_app, elem_of_cons.
      rewrite <- (take_drop (Z.to_nat i) items) at 3. rewrite elem_of_app. tauto. }
    assert (Hnodup : (if i <? Z.of_nat (length items)
               then cmp ← compare_js util_compare (at_index items i) name; Ok (cmp =? 0)
               else Ok false) = Ok false).
    { destruct (Z.ltb_spec i (Z.of_nat (length items))) as [Hlt|]; [|done].
      destruct (at_index_in_range items i) as [x Hx]; [lia|].
      rewrite Hx. simpl. apply at_index_Some in Hx as [_ Hx].
      assert (0 < util_compare x name) by (eapply Hhi; eauto; lia).
      replace (util_compare x name =? 0) with false; [done|].
      symmetry. apply Z.eqb_neq. lia. }
    rewrite Hnodup. simpl.
    assert (Hneg : (i =? -1) = false) by (apply Z.eqb_neq; lia).
    destruct (Z.eqb_spec i 0) as [->|Hne0].
    + simpl. exists (name :: items), true. split; [done|].
      change (Z.to_nat 0) with 0%nat in Hsp, Hmem. rewrite take_0, drop_0 in Hsp, Hmem.
      split; [exact Hsp|exact Hmem].
    + destruct (Z.eqb_spec i (Z.of_nat (length items))) as [->|Hnel].
      * simpl. rewrite Hneg. exists (items ++ [name]), true. split; [done|].
        rewrite Nat2Z.id in Hsp, Hmem.
        rewrite take_ge, drop_ge in Hsp, Hmem by lia.
        split; [exact Hsp|exact Hmem].
      * simpl. rewrite Hneg. eexists _, true. split; [reflexivity|].
        split; [exact Hsp|exact Hmem].
Qed.

(** What [findLower] does on a sorted array, outcome by outcome. The
    four outcomes exclude one another, so each is also necessary. *)
Lemma findLower_spec (items : list string) (name : string) :
  ordered items ->
  Z.of_nat (length items) < 2 ^ 31 ->
  match Helpers.findLower items name with
  | Throw NotAnNXDomain => exists x, x ∈ items /\ util_compare x name = 0
  | Ok (Some p) =>
      (forall x, x ∈ items -> util_compare x name <> 0)
      /\ p ∈ items /\ precedes p name
      /\ (forall x, x ∈ items -> precedes x name -> x = p \/ precedes x p)
      /\ (exists y, y ∈ items /\ precedes name y)
  | Ok None =>
      (forall x, x ∈ items -> precedes name x)
  | Throw AssertionError =>
      items <> [] /\ (forall x, x ∈ items -> precedes x name)
  | _ => False
  end.
Proof.
  intros Hs Hlen. unfold Helpers.findLower.
  destruct (length items =? 0)%nat eqn:Elen.
  { apply Nat.eqb_eq in Elen. destruct items; [|discriminate].
    intros x Hx. by apply elem_of_nil in Hx. }
  apply Nat.eqb_neq in Elen.
  destruct (search_spec util_compare laws items name Hs Hlen) as (i & -> & Hi & Hcase).
  simpl.
  destruct Hcase as [(x & Hx & Hc)|[Hlo Hhi]].
  - assert (Hat : at_index items i = Some x) by (apply at_index_Some; split; [lia|done]).
    rewrite Hat. simpl. rewrite Hc. simpl.
    exists x. split; [|done]. eapply list_elem_of_lookup_2; eauto.
  - assert (Habs : forall x, x ∈ items -> util_compare x name <> 0).
    { intros x Hx. apply list_elem_of_lookup in Hx as [j Hj].
      destruct (Z.lt_ge_cases (Z.of_nat j) i).
      - specialize (Hlo j x Hj). lia.
      - specialize (Hhi j x Hj). lia. }
    destruct (Z.ltb_spec i (Z.of_nat (length items))) as [Hlt|Hge].
    + destruct (at_index_in_range items i) as [y Hy]; [lia|].
      rewrite Hy. simpl. apply at_index_Some in Hy as [_ Hy].
      assert (Hyc : 0 < util_compare y name) by (eapply Hhi; eauto; lia).
      replace (util_compare y name =? 0) with false by (symmetry; apply Z.eqb_neq; lia).
      replace (util_compare y name <? 0) with false by (symmetry; apply Z.ltb_ge; lia).
      destruct (Z.eqb_spec i 0) as [->|Hne0].
      * intros x Hx. apply list_elem_of_lookup in Hx as [j Hj].
        apply (cmp_antisym _ laws). eapply Hhi; eauto. lia.
      * destruct (at_index_in_range items (i - 1)) as [p Hp]; [lia|].
        rewrite Hp. apply at_index_Some in Hp as [_ Hp].
        split; [exact Habs|]. split; [eapply list_elem_of_lookup_2; eauto|].
        split; [eapply Hlo; eauto; lia|]. split.
        -- intros x Hx Hxn. apply list_elem_of_lookup in Hx as [j Hj].
           destruct (Z.lt_ge_cases (Z.of_nat j) i) as [Hji|Hji].
           ++ destruct (decide (j = Z.to_nat (i - 1))) as [->|Hjne].
              ** left. congruence.
              ** right. eapply (sorted_lookup util_compare items j (Z.to_nat (i - 1))); eauto. lia.
           ++ specialize (Hhi j x Hj Hji). unfold before in Hxn. lia.
        -- exists y. split; [eapply list_elem_of_lookup_2; eauto|].
           apply (cmp_antisym _ laws). exact Hyc.
    + assert (Hnone : at_index items i = None).
      { unfold at_index. replace (i <? 0) with false by (symmetry; apply Z.ltb_ge; lia).
        apply lookup_ge_None. lia. }
      rewrite Hnone. simpl. split; [by destruct items|].
      intros x Hx. apply list_elem_of_lookup in Hx as [j Hj].
      pose proof (lookup_lt_Some _ _ _ Hj). eapply Hlo; eauto. lia.
Qed.

End namelist_theory.

(** ** Wildcard matching *)

Section matching_theory.
Context `{Externals}.

Lemma at_index_of_nat {A : Type} (l : list A) (n : nat) :
  at_index l (Z.of_nat n) = l !! n.
Proof.
  unfold at_index. replace (Z.of_nat n <? 0) with false by (symmetry; apply Z.ltb_ge; lia).
  by rewrite Nat2Z.id.
Qed.

(** The inner loop of [filterMatches] compares the labels of [y] with
    the rightmost labels of [x]. *)
Lemma labels_loop_suffix (y x : list string) :
  (length y <= length x)%nat ->
  forallb (fun i => bool_decide (at_index y (Z.of_nat (length y) - i)
                                 = at_index x (Z.of_nat (length x) - i)))
          (seqZ 1 (Z.of_nat (length y))) = true
  <-> y `suffix_of` x.
Proof.
  intros Hlen. rewrite forallb_forall. split.
  - intros Hall. exists (take (length x - length y) x).
    rewrite <- (take_drop (length x - length y) x) at 1. f_equal.
    apply list_eq. intros j. rewrite lookup_drop.
    destruct (decide (j < length y)%nat) as [Hj|Hj].
    + specialize (Hall (Z.of_nat (length y) - Z.of_nat j)).
      rewrite bool_decide_eq_true in Hall.
      replace (Z.of_nat (length y) - (Z.of_nat (length y) - Z.of_nat j))
        with (Z.of_nat j) in Hall by lia.
      replace (Z.of_nat (length x) - (Z.of_nat (length y) - Z.of_nat j))
        with (Z.of_nat (length x - length y + j)) in Hall by lia.
      rewrite !at_index_of_nat in Hall. symmetry. apply Hall.
      apply list_elem_of_In, elem_of_seqZ. lia.
    + rewrite (proj2 (lookup_ge_None y j)) by lia.
      apply lookup_ge_None. lia.
  - intros [k ->] i Hi. apply list_elem_of_In, elem_of_seqZ in Hi.
    rewrite bool_decide_eq_true.
    replace (Z.of_nat (length y) - i) with (Z.of_nat (length y - Z.to_nat i)) by lia.
    replace (Z.of_nat (length (k ++ y)) - i)
      with (Z.of_nat (length k + (length y - Z.to_nat i))) by (rewrite length_app; lia).
    rewrite !at_index_of_nat.
    rewrite lookup_app_r by lia. f_equal. lia.
Qed.

(** The test of [filterMatches] on a wildcard owner is the rule
    [wildcard_rule]. *)
Lemma matches_wildcard_rule (Q : string) (rr : RR) :
  Helpers.isWild (rr_name rr) = true ->
  RecordMap.matches Q rr = true <-> wildcard_rule Q (rr_name rr).
Proof.
  intros Hw. unfold RecordMap.matches, wildcard_rule. rewrite Hw. simpl.
  destruct (Nat.ltb_spec (length (util_splitName Q)) (length (util_splitName (rr_name rr))))
    as [Hlt|Hge].
  - split; [discriminate|]. intros [? _]. lia.
  - rewrite labels_loop_suffix.
    + split; [intros; split; [lia|done]|tauto].
    + destruct (util_splitName (rr_name rr)); simpl in *; lia.
Qed.

Lemma matches_exact (Q : string) (rr : RR) :
  Helpers.isWild (rr_name rr) = false -> RecordMap.matches Q rr = true.
Proof. intros Hw. unfold RecordMap.matches. by rewrite Hw. Qed.

(** A wildcard owner matches itself as a query name. *)
Lemma matches_own_name (rr : RR) : RecordMap.matches (rr_name rr) rr = true.
Proof.
  destruct (Helpers.isWild (rr_name rr)) eqn:Hw; [|by apply matches_exact].
  apply matches_wildcard_rule; [done|]. split; [lia|].
  destruct (util_splitName (rr_name rr)) as [|l ls]; simpl; [done|].
  by exists [l].
Qed.

Lemma convert_own_name (rr : RR) : Helpers.convert (rr_name rr) rr = rr.
Proof. unfold Helpers.convert. destruct (Helpers.isWild (rr_name rr)); simpl; by destruct rr. Qed.


Lemma convert_exact (Q : string) (rr : RR) :
  Helpers.isWild (rr_name rr) = false -> Helpers.convert Q rr = rr.
Proof. intros Hw. unfold Helpers.convert. by rewrite Hw. Qed.

(** On the records of an exact owner [filterMatches] and [convert] do
    nothing. *)
Lemma emit_exact (Q : string) (rrs : list RR) :
  Forall (fun rr => Helpers.isWild (rr_name rr) = false) rrs ->
  map (Helpers.convert Q) (RecordMap.filterMatches Q rrs) = rrs.
Proof.
  unfold RecordMap.filterMatches.
  induction 1 as [|rr rrs Hrr _ IH]; [done|].
  simpl. rewrite matches_exact by done. simpl.
  by rewrite convert_exact, IH.
Qed.


End matching_theory.

(** ** Retrieval from a RecordMap *)

Section push_theory.
Context `{Externals}.

Lemma push_rrset_signatures zskkey zskpriv m name type rrs an :
  RecordMap.push_rrset zskkey zskpriv m name type rrs an
  = let an' := an ++ map (Helpers.convert name) (RecordMap.filterMatches name rrs) in
    sigs ← signatures zskkey zskpriv m name type an';
    Ok (an' ++ sigs).
Proof.
  unfold RecordMap.push_rrset, signatures, on_the_fly. simpl.
  destruct (RecordMap.sigs m !! Some type); [done|].
  destruct zskkey, zskpriv; simpl; rewrite ?app_nil_r; try done.
  by destruct (dnssec_sign _ _ _).
Qed.

(** Without its ZSK the zone signs nothing on the fly. *)
Lemma on_the_fly_no_key zskpriv an : on_the_fly None zskpriv an = Ok [].
Proof. done. Qed.

(** [push_rrset] only appends, when it returns. *)
Lemma push_rrset_prefix zskkey zskpriv m name type rrs an res :
  RecordMap.push_rrset zskkey zskpriv m name type rrs an = Ok res ->
  exists out, res = an ++ out.
Proof.
  rewrite push_rrset_signatures. simpl. intros Hp.
  destruct (signatures zskkey zskpriv m name type _) as [sg| |]; simpl in Hp;
    try discriminate.
  inversion Hp. rewrite <- app_assoc. eauto.
Qed.

(** Without its ZSK it returns. *)
Lemma push_rrset_no_key zskpriv m name type rrs an :
  exists out, RecordMap.push_rrset None zskpriv m name type rrs an = Ok (an ++ out).
Proof.
  rewrite push_rrset_signatures. simpl. unfold signatures.
  destruct (RecordMap.sigs m !! Some type); simpl; rewrite <- app_assoc; eauto.
Qed.

(** An error of [push_rrset] is an error of [dnssec.sign], asked for
    the signature of the list with the records just appended. *)
Lemma push_rrset_throw zskkey zskpriv m name type rrs an e :
  RecordMap.push_rrset zskkey zskpriv m name type rrs an = Throw e ->
  exists key priv out, zskkey = Some key /\ zskpriv = Some priv
    /\ dnssec_sign key priv (an ++ out) = Throw e.
Proof.
  unfold RecordMap.push_rrset. intros Hp.
  destruct (RecordMap.sigs m !! Some type); [discriminate|].
  destruct zskkey as [key|], zskpriv as [priv|]; try discriminate.
  destruct (dnssec_sign key priv _) as [sig| |] eqn:Es; simpl in Hp; try discriminate.
  inversion Hp; subst. eauto 6.
Qed.

(** A CNAME RRset shadows every other type. *)
Lemma push_shadowed zskkey zskpriv m name type cn an :
  util_isFQDN name = true -> is_u16 type = true ->
  type <> types.CNAME ->
  RecordMap.rrs m !! types.CNAME = Some cn -> cn <> [] ->
  RecordMap.push zskkey zskpriv m name type an
  = RecordMap.push_rrset zskkey zskpriv m name types.CNAME cn an.
Proof.
  intros Hf Hu Ht Hcn Hne. unfold RecordMap.push. rewrite Hf, Hu. simpl.
  replace (type =? types.CNAME) with false by (symmetry; by apply Z.eqb_neq).
  simpl. rewrite Hcn. by destruct cn.
Qed.

(** Without a CNAME RRset in the way, [push] emits the RRset of the
    queried type, if there is one. *)
Lemma push_by_type zskkey zskpriv m name type an :
  util_isFQDN name = true -> is_u16 type = true ->
  type = types.CNAME \/ RecordMap.rrs m !! types.CNAME = None ->
  RecordMap.push zskkey zskpriv m name type an
  = match RecordMap.rrs m !! type with
    | Some ((_ :: _) as rrs) =>
        RecordMap.push_rrset zskkey zskpriv m name type rrs an
    | _ => Ok an
    end.
Proof.
  intros Hf Hu Ht. unfold RecordMap.push. rewrite Hf, Hu. simpl.
  destruct (Z.eqb_spec type types.CNAME) as [->|Hne]; simpl.
  - by destruct (RecordMap.rrs m !! types.CNAME) as [[|]|].
  - destruct Ht as [?|Hnone]; [done|]. rewrite Hnone.
    by destruct (RecordMap.rrs m !! type) as [[|]|].
Qed.

(** [RecordMap.push] only ever appends, when it returns; and it is
    given a fully qualified name and a 16-bit type then. *)
Lemma RecordMap_push_prefix zskkey zskpriv m name type an res :
  RecordMap.push zskkey zskpriv m name type an = Ok res ->
  util_isFQDN name = true /\ is_u16 type = true /\ exists out, res = an ++ out.
Proof.
  unfold RecordMap.push. intros Hp.
  destruct (util_isFQDN name); [|discriminate]. simpl in Hp.
  destruct (is_u16 type); [|discriminate]. simpl in Hp.
  split; [done|]. split; [done|].
  assert (Hby : forall r,
             match RecordMap.rrs m !! type with
             | Some ((_ :: _) as rrs) =>
                 RecordMap.push_rrset zskkey zskpriv m name type rrs an
             | _ => Ok an
             end = Ok r -> exists out, r = an ++ out).
  { intros r Hr. destruct (RecordMap.rrs m !! type) as [[|x l]|].
    - inversion Hr. exists []. by rewrite app_nil_r.
    - by eapply push_rrset_prefix.
    - inversion Hr. exists []. by rewrite app_nil_r. }
  destruct (negb (type =? types.CNAME)); [|by apply Hby].
  destruct (RecordMap.rrs m !! types.CNAME) as [[|x l]|]; try (by apply Hby).
  by eapply push_rrset_prefix.
Qed.

Lemma RecordMap_push_throw zskkey zskpriv m name type an e :
  util_isFQDN name = true -> is_u16 type = true ->
  RecordMap.push zskkey zskpriv m name type an = Throw e ->
  exists key priv out, zskkey = Some key /\ zskpriv = Some priv
    /\ dnssec_sign key priv (an ++ out) = Throw e.
Proof.
  intros Hf Hu. unfold RecordMap.push. rewrite Hf, Hu. simpl. intros Hp.
  assert (Hby : match RecordMap.rrs m !! type with
                | Some ((_ :: _) as rrs) =>
                    RecordMap.push_rrset zskkey zskpriv m name type rrs an
                | _ => Ok an
                end = Throw e ->
                exists key priv out, zskkey = Some key /\ zskpriv = Some priv
                  /\ dnssec_sign key priv (an ++ out) = Throw e).
  { destruct (RecordMap.rrs m !! type) as [[|x l]|]; try discriminate.
    apply push_rrset_throw. }
  destruct (negb (type =? types.CNAME)); [|by apply Hby].
  destruct (RecordMap.rrs m !! types.CNAME) as [[|x l]|]; try (by apply Hby).
  by eapply push_rrset_throw.
Qed.

(** Without the ZSK [RecordMap.push] never throws on a fully
    qualified name and a 16-bit type. *)
Lemma RecordMap_push_appends zskpriv m name type an :
  util_isFQDN name = true -> is_u16 type = true ->
  exists out, RecordMap.push None zskpriv m name type an = Ok (an ++ out).
Proof.
  intros Hf Hu. unfold RecordMap.push. rewrite Hf, Hu. simpl.
  assert (Hby : exists out,
             match RecordMap.rrs m !! type with
             | Some ((_ :: _) as rrs) =>
                 RecordMap.push_rrset None zskpriv m name type rrs an
             | _ => Ok an
             end = Ok (an ++ out)).
  { destruct (RecordMap.rrs m !! type) as [[|r l]|].
    - exists []. by rewrite app_nil_r.
    - apply push_rrset_no_key.
    - exists []. by rewrite app_nil_r. }
  destruct (negb (type =? types.CNAME)); [|exact Hby].
  destruct (RecordMap.rrs m !! types.CNAME) as [[|r l]|]; try exact Hby.
  apply push_rrset_no_key.
Qed.

Lemma push_nonempty zskkey zskpriv m name type rrs an :
  util_isFQDN name = true -> is_u16 type = true ->
  type = types.CNAME \/ RecordMap.rrs m !! types.CNAME = None ->
  RecordMap.rrs m !! type = Some rrs -> rrs <> [] ->
  RecordMap.push zskkey zskpriv m name type an
  = RecordMap.push_rrset zskkey zskpriv m name type rrs an.
Proof.
  intros Hf Hu Ht Hrrs Hne. rewrite push_by_type by done.
  rewrite Hrrs. by destruct rrs.
Qed.

Lemma push_absent zskkey zskpriv m name type an :
  util_isFQDN name = true -> is_u16 type = true ->
  type = types.CNAME \/ RecordMap.rrs m !! types.CNAME = None ->
  RecordMap.rrs m !! type = None ->
  RecordMap.push zskkey zskpriv m name type an = Ok an.
Proof. intros Hf Hu Ht Hrrs. rewrite push_by_type by done. by rewrite Hrrs. Qed.

(** [Zone.push] is [RecordMap.push] on the map it consults. *)
Lemma Zone_push_consulted z name type an :
  Zone.push z name type (Some an)
  = RecordMap.push (Zone.zskkey z) (Zone.zskpriv z) (consulted z name) name type an.
Proof.
  unfold Zone.push, consulted.
  destruct (util_isFQDN name) eqn:Hf; simpl.
  - destruct (is_u16 type) eqn:Hu; simpl.
    + by destruct (Zone.names z !! name).
    + unfold RecordMap.push. by rewrite Hf, Hu.
  - unfold RecordMap.push. by rewrite Hf.
Qed.

Lemma Zone_push_prefix z name type an res :
  Zone.push z name type (Some an) = Ok res ->
  util_isFQDN name = true /\ is_u16 type = true /\ exists out, res = an ++ out.
Proof. rewrite Zone_push_consulted. apply RecordMap_push_prefix. Qed.

Lemma Zone_get_args z name type an :
  Zone.get z name type = Ok an -> util_isFQDN name = true /\ is_u16 type = true.
Proof.
  intros Hg. destruct (Zone_push_prefix z name type [] an Hg) as (? & ? & _). done.
Qed.

(** A zone without its ZSK makes no signature: [push] and [get]
    return for every fully qualified name and 16-bit type. *)
Lemma Zone_push_appends z name type an :
  Zone.zskkey z = None ->
  util_isFQDN name = true -> is_u16 type = true ->
  exists out, Zone.push z name type (Some an) = Ok (an ++ out).
Proof.
  intros Hk Hf Hu. rewrite Zone_push_consulted, Hk. by apply RecordMap_push_appends.
Qed.

Lemma Zone_get_total z name type :
  Zone.zskkey z = None ->
  util_isFQDN name = true -> is_u16 type = true ->
  exists out, Zone.get z name type = Ok out.
Proof.
  intros Hk Hf Hu. destruct (Zone_push_appends z name type [] Hk Hf Hu) as [out Ho].
  exists out. exact Ho.
Qed.

End push_theory.

(** ** Invariants of the zone tables *)

Section zone_invariants.
Context `{Externals}.

Lemma recordmap_empty_ok P : recordmap_ok P RecordMap.empty.
Proof. split; intros ? ? Hl; simpl in Hl; by rewrite lookup_empty in Hl. Qed.

Lemma recordmap_insert_ok (P : string -> Prop) m rr :
  recordmap_ok P m -> P (rr_name rr) -> recordmap_ok P (RecordMap.insert m rr).
Proof.
  intros [Hrrs Hsigs] HP.
  assert (Hrrs' : forall type rrs,
    <[rr_type rr := default [] (RecordMap.rrs m !! rr_type rr) ++ [rr]]> (RecordMap.rrs m)
      !! type = Some rrs ->
    rrs <> [] /\ Forall (fun rr => P (rr_name rr) /\ rr_type rr = type) rrs).
  { intros type rrs Hl. destruct (decide (rr_type rr = type)) as [<-|Hne].
    - rewrite lookup_insert_eq in Hl. inversion Hl; subst. split.
      + by destruct (default [] (RecordMap.rrs m !! rr_type rr)).
      + apply Forall_app. split; [|by repeat constructor].
        destruct (RecordMap.rrs m !! rr_type rr) as [l|] eqn:El; simpl; [|constructor].
        by apply (Hrrs _ _ El).
    - rewrite lookup_insert_ne in Hl by done. by apply Hrrs. }
  unfold RecordMap.insert. destruct (Z.eqb_spec (rr_type rr) types.RRSIG) as [Ht|Ht].
  - split; [exact Hrrs'|]. simpl. intros covered sigs Hl.
    destruct (decide (data_typeCovered (rr_data rr) = covered)) as [<-|Hne].
    + rewrite lookup_insert_eq in Hl. inversion Hl; subst. split.
      * by destruct (default [] (RecordMap.sigs m !! data_typeCovered (rr_data rr))).
      * apply Forall_app. split; [|by repeat constructor].
        destruct (RecordMap.sigs m !! data_typeCovered (rr_data rr)) as [l|] eqn:El;
          simpl; [|constructor].
        by apply (Hsigs _ _ El).
    + rewrite lookup_insert_ne in Hl by done. by apply Hsigs.
  - split; [exact Hrrs'|]. simpl. exact Hsigs.
Qed.

Lemma insert_inv z record z' :
  Zone.insert z record = Ok z' ->
  let rr := wire_canonical record in
  let z1 := inserted z rr in
  Zone.origin z' = Zone.origin z /\ Zone.count z' = Zone.count z
  /\ Zone.names z' = Zone.names z1 /\ Zone.wild z' = Zone.wild z1
  /\ Zone.zskkey z' = Zone.zskkey z /\ Zone.zskpriv z' = Zone.zskpriv z
  /\ (if rr_type rr =? types.NSEC
      then exists b, NameList.insert (Zone.nsec z) (rr_name rr) = Ok (Zone.nsec z', b)
      else Zone.nsec z' = Zone.nsec z).
Proof.
  unfold Zone.insert, inserted. intros Hi. simpl.
  destruct (if negb (rr_type (wire_canonical record) =? types.A)
               && negb (rr_type (wire_canonical record) =? types.AAAA)
            then if negb (util_isSubdomain (Zone.origin z) (rr_name (wire_canonical record)))
                 then Throw NotAChild else Ok tt
            else Ok tt) as [[]| |]; simpl in Hi; try discriminate.
  destruct (rr_type (wire_canonical record) =? types.NSEC).
  - destruct (Helpers.isWild (rr_name (wire_canonical record))); simpl in Hi.
    all: destruct (NameList.insert _ _) as [[l b]| |] eqn:En; simpl in Hi; try discriminate.
    all: inversion Hi; subst; simpl; repeat split; eauto.
  - destruct (Helpers.isWild (rr_name (wire_canonical record))); simpl in Hi.
    all: inversion Hi; subst; simpl; repeat split; eauto.
Qed.

Lemma inserted_ok z rr : zone_ok z -> zone_ok (inserted z rr).
Proof.
  intros [Hnames Hwild]. unfold inserted.
  destruct (Helpers.isWild (rr_name rr)) eqn:Hw; split; simpl; auto.
  - by apply recordmap_insert_ok.
  - intros name m Hl. destruct (decide (rr_name rr = name)) as [<-|Hne].
    + rewrite lookup_insert_eq in Hl. inversion Hl; subst. split; [done|].
      apply recordmap_insert_ok; [|done].
      destruct (Zone.names z !! rr_name rr) as [m0|] eqn:E0; simpl.
      * by apply (Hnames _ _ E0).
      * apply recordmap_empty_ok.
    + rewrite lookup_insert_ne in Hl by done. by apply Hnames.
Qed.

Lemma zone_ok_tables z z' :
  Zone.names z' = Zone.names z -> Zone.wild z' = Zone.wild z ->
  zone_ok z -> zone_ok z'.
Proof. unfold zone_ok. by intros -> ->. Qed.

Lemma insert_ok z record z' :
  zone_ok z -> Zone.insert z record = Ok z' -> zone_ok z'.
Proof.
  intros Hok Hi. apply insert_inv in Hi as (_ & _ & Hn & Hw & _).
  eapply zone_ok_tables; [exact Hn|exact Hw|]. by apply inserted_ok.
Qed.

Lemma empty_tables_ok z :
  Zone.names z = ∅ -> Zone.wild z = RecordMap.empty -> zone_ok z.
Proof.
  intros Hn Hw. split.
  - intros name m Hl. rewrite Hn in Hl. by rewrite lookup_empty in Hl.
  - rewrite Hw. apply recordmap_empty_ok.
Qed.

Lemma setOrigin_inv z origin z' :
  Zone.setOrigin z origin = Ok z' ->
  Zone.names z' = Zone.names z /\ Zone.wild z' = Zone.wild z
  /\ Zone.nsec z' = Zone.nsec z
  /\ Zone.origin z' = toLowerCase (default "." origin).
Proof.
  unfold Zone.setOrigin. destruct (util_isFQDN (default "." origin)); simpl; [|discriminate].
  intros Hz. by inversion Hz; subst.
Qed.

Lemma setZSK_inv z str z' :
  Zone.setZSKFromString z str = Ok z' ->
  Zone.names z' = Zone.names z /\ Zone.wild z' = Zone.wild z
  /\ Zone.nsec z' = Zone.nsec z /\ Zone.origin z' = Zone.origin z.
Proof.
  unfold Zone.setZSKFromString.
  destruct (dnssec_decodePrivate str) as [[alg priv]| |]; simpl; try discriminate.
  intros Hz. by inversion Hz; subst.
Qed.

(** Every reachable zone keeps exact owners and wildcard owners in
    their own tables. *)
Lemma reachable_ok z : reachable z -> zone_ok z.
Proof.
  induction 1 as [origin z Hnew|z origin z' _ IH Hset|z str z' _ IH Hset
                 |z rr z' _ IH Hins|z _ IH|z _ IH].
  - apply setOrigin_inv in Hnew as (Hn & Hw & _). by apply empty_tables_ok.
  - apply setOrigin_inv in Hset as (Hn & Hw & _). by eapply zone_ok_tables.
  - apply setZSK_inv in Hset as (Hn & Hw & _). by eapply zone_ok_tables.
  - by eapply insert_ok.
  - by apply empty_tables_ok.
  - by apply empty_tables_ok.
Qed.

Lemma reachable_insert_all z rrs z' :
  reachable z -> Zone.insert_all z rrs = Ok z' -> reachable z'.
Proof.
  revert z. induction rrs as [|rr rrs IH]; intros z Hr Hi; simpl in Hi.
  - by inversion Hi; subst.
  - destruct (Zone.insert z rr) as [z1| |] eqn:E1; simpl in Hi; try discriminate.
    eapply IH; [|exact Hi]. by eapply reach_insert.
Qed.

Lemma reachable_build origin rrs z : build origin rrs = Ok z -> reachable z.
Proof.
  unfold build. intros Hb.
  destruct (Zone.new (Some origin)) as [z0| |] eqn:E0; simpl in Hb; try discriminate.
  eapply reachable_insert_all; [|exact Hb]. by eapply reach_new.
Qed.

(** The origin of a reachable zone is in lower case. *)
Lemma lower_ascii_idemp c : lower_ascii (lower_ascii c) = lower_ascii c.
Proof. by destruct c as [[] [] [] [] [] [] [] []]. Qed.

Lemma toLowerCase_idemp s : toLowerCase (toLowerCase s) = toLowerCase s.
Proof.
  induction s as [|c s IH]; [done|]. simpl. by rewrite IH, lower_ascii_idemp.
Qed.

Lemma reachable_origin_lower z : reachable z -> toLowerCase (Zone.origin z) = Zone.origin z.
Proof.
  induction 1 as [origin z Hnew|z origin z' _ IH Hset|z str z' _ IH Hset
                 |z rr z' _ IH Hins|z _ IH|z _ IH].
  - apply setOrigin_inv in Hnew as (_ & _ & _ & ->). apply toLowerCase_idemp.
  - apply setOrigin_inv in Hset as (_ & _ & _ & ->). apply toLowerCase_idemp.
  - apply setZSK_inv in Hset as (_ & _ & _ & ->). exact IH.
  - apply insert_inv in Hins as (-> & _). exact IH.
  - reflexivity.
  - exact IH.
Qed.

End zone_invariants.

(** ** Retrieval at an exact owner and at a wildcard *)

Section retrieval.
Context `{Externals}.

Lemma exact_owner_records z name m :
  zone_ok z -> Zone.names z !! name = Some m ->
  (forall type rrs, RecordMap.rrs m !! type = Some rrs ->
     rrs <> [] /\ Forall (fun rr => rr_name rr = name /\ rr_type rr = type) rrs
     /\ Forall (fun rr => Helpers.isWild (rr_name rr) = false) rrs)
  /\ (forall covered sigs, RecordMap.sigs m !! covered = Some sigs ->
     Forall (fun rr => rr_type rr = types.RRSIG
                       /\ data_typeCovered (rr_data rr) = covered) sigs
     /\ Forall (fun rr => Helpers.isWild (rr_name rr) = false) sigs).
Proof.
  intros [Hnames _] Hm. destruct (Hnames _ _ Hm) as [Hw [Hrrs Hsigs]]. split.
  - intros type rrs Hl. destruct (Hrrs _ _ Hl) as [Hne Hall].
    split; [done|]. split; [done|].
    eapply Forall_impl; [exact Hall|]. intros rr [-> _]. done.
  - intros covered sigs Hl. destruct (Hsigs _ _ Hl) as [_ Hall]. split.
    + eapply Forall_impl; [exact Hall|]. intros rr (_ & ? & ?). done.
    + eapply Forall_impl; [exact Hall|]. intros rr [-> _]. done.
Qed.

(** At an exact owner [push_rrset] appends the RRset as stored and the
    signatures [covering] it. *)
Lemma push_rrset_exact z name m type rrs an :
  zone_ok z -> Zone.names z !! name = Some m ->
  RecordMap.rrs m !! type = Some rrs ->
  RecordMap.push_rrset (Zone.zskkey z) (Zone.zskpriv z) m name type rrs an
  = (sigs ← covering z m type (an ++ rrs); Ok (an ++ rrs ++ sigs)).
Proof.
  intros Hok Hm Hrrs.
  destruct (exact_owner_records z name m Hok Hm) as [Hr Hs].
  destruct (Hr _ _ Hrrs) as (_ & _ & Hex).
  rewrite push_rrset_signatures. simpl. rewrite emit_exact by done.
  unfold signatures, covering.
  destruct (RecordMap.sigs m !! Some type) as [sigs|] eqn:Es.
  - simpl. rewrite emit_exact by (by apply (Hs _ _ Es)). by rewrite <- app_assoc.
  - destruct (on_the_fly _ _ _); simpl; [|done..]. by rewrite <- app_assoc.
Qed.



End retrieval.

(** ** C6: CNAME exclusivity *)

(** C6. If the exact-owner table of a reachable zone holds a CNAME RRset
    [cn] at the name [N], then for every 16-bit type [T] other than
    CNAME the retrieval [get] at [(N, T)] is made of exactly the CNAME
    records, followed by the stored RRSIGs that cover CNAME or, when
    none is stored and the zone has a ZSK, by the one signature
    [dnssec.sign] makes of the CNAME RRset; nothing else stored at [N]
    is emitted. The CNAME RRset is non-empty, its records are CNAME
    records owned by [N], and the stored signatures are RRSIGs covering
    CNAME. A [push] onto a list [an] appends the same records, the
    signature on the fly being asked for the whole list, the records
    of [an] included. *)
Theorem cname_exclusivity `{Externals} (z : Zone.t) (N : string) (T : Z)
    (m : RecordMap.t) (cn : list RR) :
  reachable z ->
  util_isFQDN N = true -> is_u16 T = true -> T <> types.CNAME ->
  Zone.names z !! N = Some m ->
  RecordMap.rrs m !! types.CNAME = Some cn ->
  Zone.get z N T = (sigs ← covering z m types.CNAME cn; Ok (cn ++ sigs))
  /\ (forall out, Zone.get z N T = Ok out ->
        forall rr, rr ∈ out -> rr_type rr <> types.CNAME ->
          (rr ∉ cn) /\
          ((exists sigs, RecordMap.sigs m !! Some types.CNAME = Some sigs /\ rr ∈ sigs)
           \/ (exists key priv, Zone.zskkey z = Some key /\ Zone.zskpriv z = Some priv
                  /\ RecordMap.sigs m !! Some types.CNAME = None
                  /\ dnssec_sign key priv cn = Ok rr)))
  /\ cn <> []
  /\ Forall (fun rr => rr_name rr = N /\ rr_type rr = types.CNAME) cn
  /\ (forall sigs, RecordMap.sigs m !! Some types.CNAME = Some sigs ->
        Forall (fun rr => rr_type rr = types.RRSIG
                          /\ data_typeCovered (rr_data rr) = Some types.CNAME) sigs)
  /\ (forall an, Zone.push z N T (Some an)
                 = (sigs ← covering z m types.CNAME (an ++ cn);
                    Ok (an ++ cn ++ sigs))).
Proof.
  intros Hreach Hf Hu HT Hm Hcn.
  pose proof (reachable_ok z Hreach) as Hok.
  destruct (exact_owner_records z N m Hok Hm) as [Hr Hs].
  destruct (Hr _ _ Hcn) as (Hne & Hall & _).
  assert (Hpush : forall an, Zone.push z N T (Some an)
                    = (sigs ← covering z m types.CNAME (an ++ cn);
                       Ok (an ++ cn ++ sigs))).
  { intros an. rewrite Zone_push_consulted. unfold consulted. rewrite Hm.
    rewrite (push_shadowed _ _ m N T cn) by done.
    by apply push_rrset_exact. }
  assert (Hget : Zone.get z N T = (sigs ← covering z m types.CNAME cn; Ok (cn ++ sigs))).
  { unfold Zone.get. rewrite (Hpush []). done. }
  split; [exact Hget|]. split.
  { intros out Hout rr Hin Hty. rewrite Hget in Hout.
    assert (Hnot : rr ∉ cn).
    { intros Hc. rewrite Forall_forall in Hall. by destruct (Hall rr Hc). }
    split; [exact Hnot|].
    unfold covering, on_the_fly in Hout.
    destruct (RecordMap.sigs m !! Some types.CNAME) as [sg|] eqn:Es; simpl in Hout.
    - left. exists sg. split; [done|]. inversion Hout; subst out.
      apply elem_of_app in Hin as [?|?]; done.
    - right. destruct (Zone.zskkey z) as [key|], (Zone.zskpriv z) as [priv|];
        simpl in Hout;
        try (inversion Hout; subst out; rewrite app_nil_r in Hin; done).
      destruct (dnssec_sign key priv cn) as [sig| |] eqn:Esig; simpl in Hout;
        try discriminate.
      inversion Hout; subst out.
      apply elem_of_app in Hin as [?|Hin]; [done|].
      apply list_elem_of_singleton in Hin as ->. eauto 8. }
  split; [done|]. split; [done|]. split.
  - intros sigs Hsigs. by apply (Hs _ _ Hsigs).
  - exact Hpush.
Qed.

Lemma cname_exclusivity_witness :
  exists z0 z, build (H := SpecModel.externals) "example."
                 [Examples.cname_a; Examples.a_a] = Ok z0
    /\ Zone.setZSKFromString z0 Examples.zsk = Ok z
    /\ Zone.get z0 "a.example." types.A = Ok [Examples.cname_a]
    /\ exists sig, Zone.get z "a.example." types.A = Ok [Examples.cname_a; sig].
Proof.
  eexists. eexists.
  split; [vm_compute; reflexivity|]. split; [vm_compute; reflexivity|].
  match goal with
  | |- Zone.get ?z0 _ _ = _ /\ (exists sig, Zone.get ?z _ _ = _) =>
      assert (Hreach0 : reachable (H := SpecModel.externals) z0)
        by (apply (reachable_build "example." [Examples.cname_a; Examples.a_a]);
            vm_compute; reflexivity);
      assert (Hreach : reachable (H := SpecModel.externals) z)
        by (apply (reach_setZSK z0 Examples.zsk z Hreach0); vm_compute; reflexivity);
      assert (Hm0 : Zone.names z0 !! "a.example."
                    = Some (RecordMap.insert
                              (RecordMap.insert RecordMap.empty Examples.cname_a)
                              Examples.a_a)) by (vm_compute; reflexivity);
      assert (Hm : Zone.names z !! "a.example."
                   = Some (RecordMap.insert
                             (RecordMap.insert RecordMap.empty Examples.cname_a)
                             Examples.a_a)) by (vm_compute; reflexivity);
      assert (Hcn : RecordMap.rrs (RecordMap.insert
                                     (RecordMap.insert RecordMap.empty Examples.cname_a)
                                     Examples.a_a) !! types.CNAME
                    = Some [Examples.cname_a]) by (vm_compute; reflexivity);
      pose proof (proj1 (cname_exclusivity (H := SpecModel.externals) z0 "a.example."
                           types.A _ [Examples.cname_a] Hreach0 eq_refl eq_refl
                           ltac:(discriminate) Hm0 Hcn)) as Hget0;
      pose proof (proj1 (cname_exclusivity (H := SpecModel.externals) z "a.example."
                           types.A _ [Examples.cname_a] Hreach eq_refl eq_refl
                           ltac:(discriminate) Hm Hcn)) as Hget
  end.
  split.
  - rewrite Hget0. vm_compute. reflexivity.
  - eexists. rewrite Hget. vm_compute. reflexivity.
Defined.

Section exact_retrieval.
Context `{Externals}.

(** At an exact owner without CNAME, [push] appends the stored RRset
    of the type and its signatures. *)
Lemma push_exact_no_cname z name m type an :
  zone_ok z -> Zone.names z !! name = Some m ->
  util_isFQDN name = true -> is_u16 type = true ->
  type = types.CNAME \/ RecordMap.rrs m !! types.CNAME = None ->
  Zone.push z name type (Some an) = (out ← stored z m type an; Ok (an ++ out)).
Proof.
  intros Hok Hm Hf Hu Hcn. rewrite Zone_push_consulted. unfold consulted. rewrite Hm.
  unfold stored. destruct (RecordMap.rrs m !! type) as [rrs|] eqn:Hrrs.
  - destruct (exact_owner_records z name m Hok Hm) as [Hr _].
    destruct (Hr _ _ Hrrs) as (Hne & _).
    rewrite (push_nonempty _ _ m name type rrs) by done.
    rewrite (push_rrset_exact z name m type rrs an Hok Hm Hrrs).
    by destruct (covering z m type (an ++ rrs)).
  - rewrite push_absent by done. simpl. by rewrite app_nil_r.
Qed.

(** An exact owner that yields no local answer holds no CNAME. *)
Lemma no_answer_no_cname z name m type :
  zone_ok z -> Zone.names z !! name = Some m ->
  Zone.get z name type = Ok [] ->
  RecordMap.rrs m !! types.CNAME = None.
Proof.
  intros Hok Hm Hget.
  destruct (RecordMap.rrs m !! types.CNAME) as [cn|] eqn:Hcn; [|done].
  exfalso.
  destruct (exact_owner_records z name m Hok Hm) as [Hr _].
  destruct (Hr _ _ Hcn) as (Hne & _).
  unfold Zone.get in Hget. rewrite Zone_push_consulted in Hget.
  unfold consulted in Hget. rewrite Hm in Hget.
  destruct (util_isFQDN name) eqn:Hf;
    [|unfold RecordMap.push in Hget; rewrite Hf in Hget; discriminate].
  destruct (is_u16 type) eqn:Hu;
    [|unfold RecordMap.push in Hget; rewrite Hf, Hu in Hget; discriminate].
  destruct (decide (type = types.CNAME)) as [->|Hne'].
  - rewrite (push_nonempty _ _ m name types.CNAME cn) in Hget by auto.
    rewrite (push_rrset_exact z name m) in Hget by done.
    destruct (covering z m types.CNAME _); simpl in Hget; try discriminate.
    inversion Hget as [Hnil]. apply app_eq_nil in Hnil as [? _]. done.
  - rewrite (push_shadowed _ _ m name type cn) in Hget by done.
    rewrite (push_rrset_exact z name m) in Hget by done.
    destruct (covering z m types.CNAME _); simpl in Hget; try discriminate.
    inversion Hget as [Hnil]. apply app_eq_nil in Hnil as [? _]. done.
Qed.

Lemma find_no_answer fuel z name type :
  Zone.get z name type = Ok [] ->
  Zone.find (S fuel) z name type = Ok ([], [], []).
Proof. intros Hget. unfold Zone.find. by rewrite Hget. Qed.

End exact_retrieval.

(** ** C7: the response assembler *)

Lemma resolve_unfold `{Externals} (fuel : nat) (z : Zone.t) (name : string) (type : Z) :
  util_isFQDN name = true -> is_u16 type = true ->
  Zone.resolve fuel z name type
  = (a ← Zone.query fuel z (toLowerCase name)
           (if type =? types.ANY then types.NS else type);
     Ok (mkMessage (response_code a) (Zone.an_aa a) (Zone.an_answer a)
           (Zone.an_authority a) (Zone.an_additional a))).
Proof.
  intros Hf Hu. unfold Zone.resolve. rewrite Hf, Hu. simpl.
  destruct (Zone.query fuel z (toLowerCase name) _) as [a| |]; done.
Qed.

Lemma lower_ascii_lowercase c :
  (N_of_ascii c <? 128)%N = true ->
  lower_ascii c = replace_letter c upper_case_letters lower_case_letters.
Proof. destruct c as [[] [] [] [] [] [] [] []]; intros Hc; done. Qed.

Lemma toLowerCase_lowercase s : ascii_only s = true -> toLowerCase s = lowercase s.
Proof.
  unfold ascii_only. induction s as [|c s IH]; [done|]. simpl.
  intros Hs. apply andb_true_iff in Hs as [Hc Hs].
  by rewrite IH, lower_ascii_lowercase.
Qed.

Lemma lowercase_no_capital s :
  Forall (fun c => c ∉ upper_case_letters) (list_ascii_of_string (lowercase s)).
Proof.
  induction s as [|c s IH]; [constructor|]. simpl. constructor; [|exact IH].
  destruct c as [[] [] [] [] [] [] [] []];
    apply (bool_decide_unpack _); vm_compute; reflexivity.
Qed.

(** C7. For a fully qualified name of ASCII characters and a 16-bit
    type, [resolve] queries the name in lower case, every capital
    letter replaced by its small letter, with the type ANY replaced by
    NS. The message it returns has the three sections and the aa flag
    of the result of that query, unchanged, and the response code
    NXDOMAIN if and only if that result has [aa = false] and
    [ok = false], NOERROR otherwise. An error of [query] is the error
    of [resolve]. The queried name holds no capital letter. *)
Theorem resolve_assembles_query `{Externals} (fuel : nat) (z : Zone.t)
    (name : string) (type : Z) :
  util_isFQDN name = true -> is_u16 type = true -> ascii_only name = true ->
  match Zone.query fuel z (lowercase name)
          (if type =? types.ANY then types.NS else type) with
  | Ok (Zone.mkAnswer an ns ar aa ok) =>
      Zone.resolve fuel z name type
      = Ok (mkMessage (if aa || ok then codes.NOERROR else codes.NXDOMAIN)
              aa an ns ar)
  | Throw e => Zone.resolve fuel z name type = Throw e
  | OutOfFuel => Zone.resolve fuel z name type = OutOfFuel
  end
  /\ Forall (fun c => c ∉ upper_case_letters) (list_ascii_of_string (lowercase name)).
Proof.
  intros Hf Hu Ha. split; [|apply lowercase_no_capital].
  rewrite (resolve_unfold fuel z name type Hf Hu).
  rewrite (toLowerCase_lowercase name Ha).
  destruct (Zone.query fuel z (lowercase name) _) as [[an ns ar aa ok]| |]; simpl;
    [|done..].
  unfold response_code. simpl. by destruct aa, ok.
Qed.

Lemma resolve_assembles_query_witness :
  exists z, build (H := SpecModel.externals) "example."
              [MoreExamples.ns_example; Examples.a_ns_example] = Ok z
    /\ Zone.resolve 2 z "EXAMPLE." types.ANY
       = Ok (mkMessage codes.NOERROR true [MoreExamples.ns_example] []
               [Examples.a_ns_example])
    /\ Zone.resolve 2 z "Www.Other." types.A
       = Ok (mkMessage codes.NXDOMAIN false [] [] []).
Proof.
  eexists. split; [vm_compute; reflexivity|].
  match goal with
  | |- Zone.resolve 2 ?z _ _ = _ /\ _ =>
      pose proof (proj1 (resolve_assembles_query (H := SpecModel.externals) 2 z
                           "EXAMPLE." types.ANY eq_refl eq_refl eq_refl)) as Hany;
      pose proof (proj1 (resolve_assembles_query (H := SpecModel.externals) 2 z
                           "Www.Other." types.A eq_refl eq_refl eq_refl)) as Hnx
  end.
  split; [exact Hany|exact Hnx].
Defined.

(** ** C10: [has] looks at exact owners only *)

(** C10. [has] consults the exact-owner table only: for a fully
    qualified name without entry in that table it answers [false] for
    every 16-bit type. There is a reachable zone and a query for which
    [has] answers [false] while [get] returns a record, synthesized from
    a wildcard. *)
Theorem has_ignores_wildcards :
  (forall (E : Externals) (z : Zone.t) (name : string) (type : Z),
     util_isFQDN name = true -> is_u16 type = true ->
     Zone.names z !! name = None ->
     Zone.has z name type = Ok false)
  /\ (exists (z : Zone.t) (name : string) (type : Z) (rr : RR),
        reachable (H := SpecModel.externals) z
        /\ Zone.has (H := SpecModel.externals) z name type = Ok false
        /\ Zone.get (H := SpecModel.externals) z name type = Ok [rr]).
Proof.
  split.
  - intros E z name type Hf Hu Hn. unfold Zone.has. by rewrite Hf, Hu, Hn.
  - destruct (build (H := SpecModel.externals) "example." [Examples.wild_a])
      as [z| |] eqn:Hb; [|vm_compute in Hb; discriminate..].
    exists z, "foo.example.", types.A, (with_owner "foo.example." Examples.wild_a).
    split; [by eapply reachable_build|].
    vm_compute in Hb. inversion Hb; subst. split; vm_compute; reflexivity.
Qed.

Lemma has_ignores_wildcards_witness :
  exists z, build (H := SpecModel.externals) "example." [Examples.wild_a] = Ok z
    /\ Zone.has z "foo.example." types.A = Ok false
    /\ Zone.get z "foo.example." types.A = Ok [with_owner "foo.example." Examples.wild_a].
Proof.
  eexists. split; [vm_compute; reflexivity|]. split.
  - apply (proj1 has_ignores_wildcards SpecModel.externals).
    + reflexivity.
    + reflexivity.
    + vm_compute; reflexivity.
  - vm_compute; reflexivity.
Defined.

(** ** C9: authoritative NODATA at the origin *)

(** Where the zone passes its own authority test at the origin and has
    no ZSK, a query at the origin without local answer is answered
    with the SOA of the origin and what the push of its NSEC appends. *)
Lemma nodata_where_authoritative `{Externals} (fuel : nat) (z : Zone.t) (type : Z) :
  Zone.zskkey z = None ->
  util_isFQDN (Zone.origin z) = true -> is_u16 type = true ->
  authoritative z (Zone.origin z) = true ->
  Zone.get z (Zone.origin z) type = Ok [] ->
  exists soa nsec : list RR,
    Zone.get z (Zone.origin z) types.SOA = Ok soa
    /\ Zone.push z (Zone.origin z) types.NSEC (Some soa) = Ok (soa ++ nsec)
    /\ Zone.query (S fuel) z (Zone.origin z) type
       = Ok (Zone.mkAnswer [] (soa ++ nsec) [] true false).
Proof.
  intros Hk Hf Hu Hauth Hget.
  destruct (Zone_get_total z (Zone.origin z) types.SOA Hk Hf eq_refl) as [soa Hsoa].
  destruct (Zone_push_appends z (Zone.origin z) types.NSEC soa Hk Hf eq_refl)
    as [nsec Hnsec].
  exists soa, nsec. split; [exact Hsoa|]. split; [exact Hnsec|].
  unfold Zone.query. rewrite Hf, Hu. simpl.
  rewrite (find_no_answer fuel z _ type Hget). simpl.
  unfold authoritative in Hauth.
  rewrite Hauth, Hsoa. simpl. unfold Zone.proveNoData. by rewrite Hnsec.
Qed.

(** C9. A query at the origin of a root zone for a type without local
    answer there is not answered with [aa = true] and the SOA and NSEC
    of the origin: it throws. The root zone holds its SOA and its NSEC
    record; the query [(., A)] finds no answer, the zone does not pass
    its own authority test at the root name, no NS is found at the
    child, which is the root name again, and the proof of the name
    error asks [nsec.lower] for the root name, which owns an NSEC
    record: 'Not an NXDOMAIN.' is thrown, by [query] and by
    [resolve]. The same query at the origin of a zone below the root
    is answered as the specification says. *)
Theorem nodata_at_root_origin_throws :
  forall fuel : nat,
  (exists z, build (H := SpecModel.externals) "."
               [Examples.soa_root; Examples.nsec_root] = Ok z
     /\ Zone.get z "." types.A = Ok []
     /\ authoritative z "." = false
     /\ child_of z "." = "."
     /\ Zone.get z "." types.NS = Ok []
     /\ NameList.lower (Zone.nsec z) "." = Throw NotAnNXDomain
     /\ Zone.query (S fuel) z "." types.A = Throw NotAnNXDomain
     /\ Zone.resolve (S fuel) z "." types.A = Throw NotAnNXDomain)
  /\ (exists z, build (H := SpecModel.externals) "example."
                  [Examples.soa_example; Examples.nsec_example] = Ok z
        /\ Zone.query (S fuel) z "example." types.A
           = Ok (Zone.mkAnswer [] [Examples.soa_example; Examples.nsec_example]
                   [] true false)).
Proof.
  intros fuel. split.
  - eexists. split; [vm_compute; reflexivity|].
    repeat split; vm_compute; reflexivity.
  - eexists. split; [vm_compute; reflexivity|]. vm_compute; reflexivity.
Qed.

(** ** The canonical order of the model is a comparator *)

Section lex_theory.
Context {A : Type} (cmp : A -> A -> comparison).
Hypothesis cmp_eq : forall x y, cmp x y = Eq <-> x = y.
Hypothesis cmp_opp : forall x y, cmp y x = CompOpp (cmp x y).
Hypothesis cmp_lt_trans : forall x y z, cmp x y = Lt -> cmp y z = Lt -> cmp x z = Lt.

Lemma lex_eq l1 l2 : SpecModel.lex cmp l1 l2 = Eq <-> l1 = l2.
Proof.
  revert l2. induction l1 as [|x l1 IH]; intros [|y l2]; simpl; try (split; discriminate).
  - done.
  - destruct (cmp x y) eqn:E.
    + apply cmp_eq in E as ->. rewrite IH. split; congruence.
    + split; [discriminate|]. intros Heq. inversion Heq; subst.
      rewrite (proj2 (cmp_eq y y) eq_refl) in E. discriminate.
    + split; [discriminate|]. intros Heq. inversion Heq; subst.
      rewrite (proj2 (cmp_eq y y) eq_refl) in E. discriminate.
Qed.

Lemma lex_opp l1 l2 : SpecModel.lex cmp l2 l1 = CompOpp (SpecModel.lex cmp l1 l2).
Proof.
  revert l2. induction l1 as [|x l1 IH]; intros [|y l2]; simpl; try done.
  rewrite (cmp_opp x y). destruct (cmp x y); simpl; auto.
Qed.

Lemma lex_lt_trans l1 l2 l3 :
  SpecModel.lex cmp l1 l2 = Lt -> SpecModel.lex cmp l2 l3 = Lt ->
  SpecModel.lex cmp l1 l3 = Lt.
Proof.
  revert l2 l3. induction l1 as [|x l1 IH]; intros [|y l2] [|z l3]; simpl; try done.
  destruct (cmp x y) eqn:Exy; try discriminate;
    destruct (cmp y z) eqn:Eyz; try discriminate.
  - apply cmp_eq in Exy as ->. rewrite Eyz. apply IH.
  - apply cmp_eq in Exy as ->. by rewrite Eyz.
  - apply cmp_eq in Eyz as ->. by rewrite Exy.
  - by rewrite (cmp_lt_trans x y z).
Qed.

End lex_theory.

Lemma N_compare_opp (x y : N) : (y ?= x)%N = CompOpp (x ?= y)%N.
Proof. apply N.compare_antisym. Qed.

Lemma N_compare_lt_trans (x y z : N) :
  (x ?= y)%N = Lt -> (y ?= z)%N = Lt -> (x ?= z)%N = Lt.
Proof. rewrite !N.compare_lt_iff. lia. Qed.

(** [SpecModel.compare] is the sign of a total preorder on names. *)
Lemma spec_compare_comparator : comparator SpecModel.compare.
Proof.
  pose proof (lex_eq N.compare N.compare_eq_iff) as Heq1.
  pose proof (lex_opp N.compare N_compare_opp) as Hopp1.
  pose proof (lex_lt_trans N.compare N.compare_eq_iff N_compare_lt_trans) as Htr1.
  pose proof (lex_eq _ Heq1) as Heq2.
  pose proof (lex_opp _ Hopp1) as Hopp2.
  pose proof (lex_lt_trans _ Heq1 Htr1) as Htr2.
  unfold SpecModel.compare. split.
  - intros a. by rewrite (proj2 (Heq2 _ _) eq_refl).
  - intros a b. rewrite (Hopp2 (SpecModel.canonical_key a) (SpecModel.canonical_key b)).
    destruct (SpecModel.lex _ (SpecModel.canonical_key a) (SpecModel.canonical_key b));
      simpl; lia.
  - intros a b c.
    destruct (SpecModel.lex _ (SpecModel.canonical_key a) (SpecModel.canonical_key b)) eqn:Eab;
      destruct (SpecModel.lex _ (SpecModel.canonical_key b) (SpecModel.canonical_key c)) eqn:Ebc;
      simpl; try lia; intros _ _.
    + apply Heq2 in Eab. rewrite Eab, Ebc. simpl. lia.
    + apply Heq2 in Eab. rewrite Eab, Ebc. simpl. lia.
    + apply Heq2 in Ebc. rewrite <- Ebc, Eab. simpl. lia.
    + rewrite (Htr2 _ _ _ Eab Ebc). simpl. lia.
Qed.

(** ** C2: the wildcard match law *)






(** ** C5: repeated insertion *)

Section insertion.
Context `{Externals}.

Lemma rrs_insert m rr :
  RecordMap.rrs (RecordMap.insert m rr)
  = <[rr_type rr := default [] (RecordMap.rrs m !! rr_type rr) ++ [rr]]> (RecordMap.rrs m).
Proof. unfold RecordMap.insert. by destruct (rr_type rr =? types.RRSIG). Qed.

(** After [insert] the map consulted for the owner of the record is
    the map consulted before with the record inserted, once the owner
    is known to the zone. *)
Lemma insert_consulted z record z' :
  zone_ok z -> Zone.insert z record = Ok z' ->
  let rr := wire_canonical record in
  (Helpers.isWild (rr_name rr) = true \/ is_Some (Zone.names z' !! rr_name rr))
  /\ exists m0, consulted z' (rr_name rr) = RecordMap.insert m0 rr
       /\ (Helpers.isWild (rr_name rr) = true \/ is_Some (Zone.names z !! rr_name rr) ->
           m0 = consulted z (rr_name rr)).
Proof.
  intros Hok Hi rr. apply insert_inv in Hi as (_ & _ & Hn & Hw & _).
  fold rr in Hn, Hw. unfold consulted. rewrite Hn, Hw. unfold inserted.
  destruct (Helpers.isWild (rr_name rr)) eqn:Hwild; simpl.
  - split; [by left|].
    assert (Hnone : Zone.names z !! rr_name rr = None).
    { destruct (Zone.names z !! rr_name rr) as [m|] eqn:E; [|done].
      destruct Hok as [Hnames _]. destruct (Hnames _ _ E) as [Hf _]. congruence. }
    rewrite Hnone. eauto.
  - rewrite lookup_insert_eq. split; [right; eauto|].
    eexists. split; [reflexivity|].
    intros [?|[m Hm]]; [done|]. by rewrite Hm.
Qed.

Lemma filterMatches_snoc name rrs rr :
  RecordMap.matches name rr = true ->
  RecordMap.filterMatches name (rrs ++ [rr]) = RecordMap.filterMatches name rrs ++ [rr].
Proof.
  intros Hm. unfold RecordMap.filterMatches. rewrite List.filter_app. simpl. by rewrite Hm.
Qed.

(** A retrieval at the owner and type of a record just inserted ends
    the emitted RRset with that record. *)
Lemma get_after_insert zskkey zskpriv m rr :
  util_isFQDN (rr_name rr) = true -> is_u16 (rr_type rr) = true ->
  rr_type rr = types.CNAME
  \/ RecordMap.rrs (RecordMap.insert m rr) !! types.CNAME = None ->
  let emitted :=
    map (Helpers.convert (rr_name rr))
        (RecordMap.filterMatches (rr_name rr)
           (default [] (RecordMap.rrs m !! rr_type rr))) ++ [rr] in
  RecordMap.push zskkey zskpriv (RecordMap.insert m rr) (rr_name rr) (rr_type rr) []
  = (sigs ← signatures zskkey zskpriv (RecordMap.insert m rr)
              (rr_name rr) (rr_type rr) emitted;
     Ok (emitted ++ sigs)).
Proof.
  intros Hf Hu Hcn emitted.
  rewrite (push_nonempty _ _ _ _ _ (default [] (RecordMap.rrs m !! rr_type rr) ++ [rr]));
    try done.
  - rewrite push_rrset_signatures. simpl.
    rewrite filterMatches_snoc by apply matches_own_name.
    rewrite map_app. simpl. by rewrite convert_own_name.
  - rewrite rrs_insert. apply lookup_insert_eq.
  - by destruct (default [] (RecordMap.rrs m !! rr_type rr)).
Qed.

Lemma sigs_insert m rr covered :
  RecordMap.sigs (RecordMap.insert m rr) !! covered = RecordMap.sigs m !! covered
  \/ RecordMap.sigs (RecordMap.insert m rr) !! covered
     = Some (default [] (RecordMap.sigs m !! covered) ++ [rr]).
Proof.
  unfold RecordMap.insert. destruct (rr_type rr =? types.RRSIG); simpl; [|by left].
  destruct (decide (data_typeCovered (rr_data rr) = covered)) as [->|Hne].
  - right. apply lookup_insert_eq.
  - left. by apply lookup_insert_ne.
Qed.

(** Inserting a record never shortens the signatures that follow an
    RRset at the owner of the record. *)
Lemma signatures_insert_length zskkey zskpriv m rr type an an' s1 s2 :
  signatures zskkey zskpriv m (rr_name rr) type an = Ok s1 ->
  signatures zskkey zskpriv (RecordMap.insert m rr) (rr_name rr) type an' = Ok s2 ->
  (length s1 <= length s2)%nat.
Proof.
  unfold signatures, on_the_fly. intros H1 H2.
  assert (Hfly : forall l s, match zskkey, zskpriv with
                             | Some key, Some priv =>
                                 sig ← dnssec_sign key priv l; Ok [sig]
                             | _, _ => Ok []
                             end = Ok s -> (length s <= 1)%nat).
  { intros l s Hs. destruct zskkey as [key|], zskpriv as [priv|];
      try (inversion Hs; simpl; lia).
    destruct (dnssec_sign key priv l); simpl in Hs; try discriminate.
    inversion Hs. simpl. lia. }
  destruct (sigs_insert m rr (Some type)) as [Heq|Heq]; rewrite Heq in H2.
  - destruct (RecordMap.sigs m !! Some type).
    + inversion H1; inversion H2; subst. done.
    + destruct zskkey as [key|], zskpriv as [priv|];
        try (inversion H1; inversion H2; subst; simpl; lia).
      destruct (dnssec_sign key priv an); simpl in H1; try discriminate.
      destruct (dnssec_sign key priv an'); simpl in H2; try discriminate.
      inversion H1; inversion H2; subst. done.
  - inversion H2; subst s2.
    rewrite filterMatches_snoc by apply matches_own_name.
    rewrite map_app, length_app. simpl.
    destruct (RecordMap.sigs m !! Some type); simpl.
    + inversion H1; subst. lia.
    + apply Hfly in H1. lia.
Qed.

Hypothesis laws : comparator util_compare.

(** The name list of a reachable zone is sorted, as long as it stays
    within the range of the 32-bit arithmetic of [search]. *)
Lemma reachable_nsec_sorted z :
  reachable z ->
  Z.of_nat (length (Zone.nsec z)) < 2 ^ 31 ->
  sorted util_compare (Zone.nsec z).
Proof.
  induction 1 as [origin z Hnew|z origin z' _ IH Hset|z str z' _ IH Hset
                 |z rr z' _ IH Hins|z _ IH|z _ IH]; intros Hlen.
  - apply setOrigin_inv in Hnew as (_ & _ & -> & _). constructor.
  - apply setOrigin_inv in Hset as (_ & _ & Hn & _). rewrite Hn in *. auto.
  - apply setZSK_inv in Hset as (_ & _ & Hn & _). rewrite Hn in *. auto.
  - apply insert_inv in Hins as (_ & _ & _ & _ & _ & _ & Hn).
    destruct (rr_type (wire_canonical rr) =? types.NSEC).
    + destruct Hn as [b Hn]. unfold NameList.insert in Hn.
      assert (Hle : (length (Zone.nsec z) <= length (Zone.nsec z'))%nat).
      { unfold Helpers.insertString in Hn.
        destruct (Helpers.insert (Zone.nsec z) _ util_compare true) as [[l i]| |] eqn:Ei;
          simpl in Hn; try discriminate.
        inversion Hn; subst. by eapply insert_length_ge. }
      destruct (insertString_sorted laws (Zone.nsec z) (rr_name (wire_canonical rr)))
        as (items' & b' & Heq & Hs & _); [apply IH; lia|lia|].
      rewrite Heq in Hn. by inversion Hn; subst.
    + rewrite Hn in *. auto.
  - constructor.
  - constructor.
Qed.

End insertion.

(** C5 (amended). Insertion is not idempotent for retrieval: the zone
    stores a record once per insertion, so after inserting [R] twice a
    [get] at the owner and type of [R] that returns the RRset of [R]
    (the type is CNAME, or no CNAME shadows it) ends that RRset with
    two copies of [R], against one copy after a single insertion,
    each time followed by the signatures covering it (an error of
    [dnssec.sign], asked for a signature on the fly, is the error of
    [get]); where both retrievals return, the second returns more
    records than the first, and in a zone without ZSK both return.
    For NSEC records, the name list of a reachable zone holds each
    owner name at most once (while it has fewer than 2^31 names, the
    range of the 32-bit midpoint of [search]). *)
Theorem insert_twice_and_nsec_unique `{Externals} :
  (forall (z z1 z2 : Zone.t) (R : RR),
     reachable z ->
     Zone.insert z R = Ok z1 -> Zone.insert z1 R = Ok z2 ->
     let rr := wire_canonical R in
     util_isFQDN (rr_name rr) = true -> is_u16 (rr_type rr) = true ->
     rr_type rr = types.CNAME
     \/ RecordMap.rrs (consulted z1 (rr_name rr)) !! types.CNAME = None ->
     exists l,
       Zone.get z1 (rr_name rr) (rr_type rr)
       = (sigs ← signatures (Zone.zskkey z1) (Zone.zskpriv z1)
                   (consulted z1 (rr_name rr)) (rr_name rr) (rr_type rr) (l ++ [rr]);
          Ok ((l ++ [rr]) ++ sigs))
       /\ Zone.get z2 (rr_name rr) (rr_type rr)
          = (sigs ← signatures (Zone.zskkey z2) (Zone.zskpriv z2)
                      (consulted z2 (rr_name rr)) (rr_name rr) (rr_type rr)
                      (l ++ [rr; rr]);
             Ok ((l ++ [rr; rr]) ++ sigs))
       /\ (forall out1 out2,
             Zone.get z1 (rr_name rr) (rr_type rr) = Ok out1 ->
             Zone.get z2 (rr_name rr) (rr_type rr) = Ok out2 ->
             (length out1 < length out2)%nat)
       /\ (Zone.zskkey z = None ->
           exists out1 out2,
             Zone.get z1 (rr_name rr) (rr_type rr) = Ok out1
             /\ Zone.get z2 (rr_name rr) (rr_type rr) = Ok out2))
  /\ (comparator util_compare ->
      forall z : Zone.t,
        reachable z ->
        Z.of_nat (length (Zone.nsec z)) < 2 ^ 31 ->
        NoDup (Zone.nsec z)).
Proof.
  split.
  - intros z z1 z2 R Hreach H1 H2 rr Hf Hu Hcn.
    pose proof (reachable_ok z Hreach) as Hok.
    pose proof (insert_ok z R z1 Hok H1) as Hok1.
    destruct (insert_consulted z R z1 Hok H1) as (Hknown & m0 & Hc1 & _).
    destruct (insert_consulted z1 R z2 Hok1 H2) as (_ & m1 & Hc2 & Hm1).
    fold rr in Hknown, Hc1, Hc2, Hm1.
    specialize (Hm1 Hknown). subst m1. rewrite Hc1 in Hc2, Hcn.
    apply insert_inv in H1 as (_ & _ & _ & _ & Hk1 & _).
    apply insert_inv in H2 as (_ & _ & _ & _ & Hk2 & Hp2 & _).
    unfold Zone.get. rewrite !Zone_push_consulted, Hc1, Hc2, Hk2, Hp2.
    rewrite (get_after_insert (Zone.zskkey z1) (Zone.zskpriv z1) m0 rr Hf Hu Hcn).
    rewrite (get_after_insert (Zone.zskkey z1) (Zone.zskpriv z1)
               (RecordMap.insert m0 rr) rr Hf Hu).
    2:{ destruct Hcn as [?|Hnone]; [by left|right].
        destruct (decide (rr_type rr = types.CNAME)) as [Heq|Hne].
        - exfalso. rewrite rrs_insert in Hnone.
          rewrite <- Heq in Hnone. by rewrite lookup_insert_eq in Hnone.
        - rewrite rrs_insert. rewrite lookup_insert_ne by done. exact Hnone. }
    rewrite rrs_insert, lookup_insert_eq. simpl.
    rewrite filterMatches_snoc by apply matches_own_name.
    rewrite map_app. simpl. rewrite convert_own_name.
    set (l := map (Helpers.convert (rr_name rr))
                (RecordMap.filterMatches (rr_name rr)
                   (default [] (RecordMap.rrs m0 !! rr_type rr)))).
    replace ((l ++ [rr]) ++ [rr]) with (l ++ [rr; rr]) by (by rewrite <- app_assoc).
    exists l. split; [reflexivity|]. split; [reflexivity|]. split.
    + intros out1 out2 Ho1 Ho2.
      destruct (signatures _ _ (RecordMap.insert m0 rr) _ _ (l ++ [rr]))
        as [s1| |] eqn:E1; simpl in Ho1; try discriminate.
      destruct (signatures _ _ (RecordMap.insert (RecordMap.insert m0 rr) rr) _ _ _)
        as [s2| |] eqn:E2; simpl in Ho2; try discriminate.
      inversion Ho1; inversion Ho2; subst. rewrite !length_app. simpl.
      pose proof (signatures_insert_length (Zone.zskkey z1) (Zone.zskpriv z1)
                    (RecordMap.insert m0 rr) rr (rr_type rr) (l ++ [rr]) (l ++ [rr; rr])
                    s1 s2 E1 E2).
      lia.
    + intros Hk. rewrite Hk1, Hk. unfold signatures.
      destruct (RecordMap.sigs (RecordMap.insert m0 rr) !! Some (rr_type rr));
        destruct (RecordMap.sigs (RecordMap.insert (RecordMap.insert m0 rr) rr)
                    !! Some (rr_type rr)); simpl; eauto.
  - intros laws z Hreach Hlen.
    eapply sorted_NoDup; [exact laws|]. by apply reachable_nsec_sorted.
Qed.

Lemma insert_twice_and_nsec_unique_witness :
  (exists z z1 z2,
     build (H := SpecModel.externals) "example." [Examples.wild_a] = Ok z
     /\ Zone.insert z Examples.a_a = Ok z1
     /\ Zone.insert z1 Examples.a_a = Ok z2
     /\ exists out1 out2,
          Zone.get z1 "a.example." types.A = Ok out1
          /\ Zone.get z2 "a.example." types.A = Ok out2
          /\ (length out1 < length out2)%nat)
  /\ exists z, build (H := SpecModel.externals) "."
                 [Examples.nsec_com; Examples.nsec_root; Examples.nsec_com] = Ok z
       /\ Zone.nsec z = ["."; "com."]
       /\ NoDup (Zone.nsec z).
Proof.
  split.
  - eexists _, _, _.
    split; [vm_compute; reflexivity|].
    split; [vm_compute; reflexivity|].
    split; [vm_compute; reflexivity|].
    match goal with
    | |- context [Zone.get ?z1 _ _ = Ok _ /\ Zone.get ?z2 _ _ = Ok _ /\ _] =>
        destruct (proj1 (insert_twice_and_nsec_unique (H := SpecModel.externals))
                    (Zone.mk "example." 1 ∅
                       (RecordMap.insert RecordMap.empty Examples.wild_a) [] None None)
                    z1 z2 Examples.a_a)
          as (l & _ & _ & Hlen & Hret)
    end.
    + apply (reachable_build "example." [Examples.wild_a]). vm_compute; reflexivity.
    + vm_compute; reflexivity.
    + vm_compute; reflexivity.
    + reflexivity.
    + reflexivity.
    + right. vm_compute; reflexivity.
    + destruct (Hret eq_refl) as (out1 & out2 & Hg1 & Hg2).
      exists out1, out2. split; [exact Hg1|]. split; [exact Hg2|].
      by apply Hlen.
  - eexists. split; [vm_compute; reflexivity|]. split; [vm_compute; reflexivity|].
    apply (proj2 (insert_twice_and_nsec_unique (H := SpecModel.externals))
             spec_compare_comparator).
    + apply (reachable_build "." [Examples.nsec_com; Examples.nsec_root; Examples.nsec_com]).
      vm_compute; reflexivity.
    + vm_compute; reflexivity.
Defined.

(** Ingest is not idempotent: an A record inserted twice is returned
    twice. *)
Lemma idempotent_ingest_counterexample :
  rr_type Examples.a_a <> types.NSEC
  /\ exists z z1 z2,
       build (H := SpecModel.externals) "example." [] = Ok z
       /\ Zone.insert z Examples.a_a = Ok z1
       /\ Zone.insert z1 Examples.a_a = Ok z2
       /\ Zone.get z1 "a.example." types.A = Ok [Examples.a_a]
       /\ Zone.get z2 "a.example." types.A = Ok [Examples.a_a; Examples.a_a]
       /\ Zone.get z2 "a.example." types.A <> Zone.get z1 "a.example." types.A.
Proof.
  split; [discriminate|].
  eexists _, _, _.
  split; [vm_compute; reflexivity|].
  split; [vm_compute; reflexivity|].
  split; [vm_compute; reflexivity|].
  split; [vm_compute; reflexivity|].
  split; [vm_compute; reflexivity|].
  vm_compute. discriminate.
Qed.

(** ** C1: queries that throw or do not end *)

Section glue_theory.
Context `{Externals}.

(** [glue] called without authority list, as [find] calls it for NS,
    SOA, MX and SRV records, throws when the zone has no address
    record for the name: it hands the missing list to [push]. *)
Lemma glue_without_list_throws z name an :
  util_isFQDN name = true ->
  Zone.push z name types.A (Some an) = Ok an ->
  Zone.push z name types.AAAA (Some an) = Ok an ->
  Zone.glue z (Some name) an None None = Throw AssertionError.
Proof.
  intros Hf HA HAAAA. unfold Zone.glue. simpl. rewrite Hf. simpl.
  rewrite HA. simpl. rewrite HAAAA. simpl.
  rewrite Nat.eqb_refl. unfold Zone.push. rewrite Hf. done.
Qed.

(** When the push of the queried type appends nothing, [glue] pushes
    the SOA stored for [name], the name it was asked to glue, to the
    authority list. *)
Lemma glue_nothing_appended z name an t ns :
  util_isFQDN name = true -> t <> 0 ->
  Zone.push z name t (Some an) = Ok an ->
  Zone.glue z (Some name) an (Some t) (Some ns)
  = (ns' ← Zone.push z name types.SOA (Some ns); Ok (an, Some ns')).
Proof.
  intros Hf Ht Hpush. unfold Zone.glue. simpl. rewrite Hf. simpl.
  destruct t as [|t|t]; [done| |]; rewrite Hpush; simpl; by rewrite Nat.eqb_refl.
Qed.

End glue_theory.

(** C1. Not every query returns a result. A root zone that holds the
    NS record of [com.] and no address of its nameserver throws an
    assertion error on the query [(com., NS)], and so does [resolve],
    whatever the fuel: [find] calls [glue] without authority list,
    [glue] finds no address and pushes the SOA to the missing list. *)
Theorem query_ns_without_glue_throws :
  forall fuel : nat,
  exists z, build (H := SpecModel.externals) "." [Examples.ns_com] = Ok z
    /\ Zone.get z "com." types.NS = Ok [Examples.ns_com]
    /\ Zone.get z "a.gtld-servers.net." types.A = Ok []
    /\ Zone.get z "a.gtld-servers.net." types.AAAA = Ok []
    /\ Zone.glue z (Some "a.gtld-servers.net.") [] None None = Throw AssertionError
    /\ Zone.query (S fuel) z "com." types.NS = Throw AssertionError
    /\ Zone.resolve (S fuel) z "com." types.NS = Throw AssertionError.
Proof.
  intros fuel. eexists. split; [vm_compute; reflexivity|].
  repeat split; vm_compute; reflexivity.
Qed.

(** A CNAME that points to its own owner keeps [find] appending the
    same record to the list it iterates: no amount of fuel suffices. *)
Lemma find_cname_loop_diverges :
  forall z, build (H := SpecModel.externals) "example." [Examples.cname_self] = Ok z ->
  forall fuel, Zone.find fuel z "loop.example." types.A = OutOfFuel.
Proof.
  intros z Hb.
  pose proof (reachable_ok z (reachable_build _ _ _ Hb)) as Hok.
  assert (Hm : Zone.names z !! "loop.example."
               = Some (RecordMap.insert RecordMap.empty Examples.cname_self))
    by (vm_compute in Hb; inversion Hb; subst; vm_compute; reflexivity).
  assert (Hkey : Zone.zskkey z = None)
    by (vm_compute in Hb; inversion Hb; subst; reflexivity).
  assert (Hpush : forall an, Zone.push z "loop.example." types.A (Some an)
                             = Ok (an ++ [Examples.cname_self])).
  { intros an. rewrite Zone_push_consulted. unfold consulted. rewrite Hm.
    rewrite (push_shadowed _ _ _ "loop.example." types.A [Examples.cname_self]);
      try done.
    rewrite (push_rrset_exact z "loop.example.") by done.
    unfold covering. rewrite Hkey. done. }
  assert (Hloop : forall fuel i,
             Zone.find_loop fuel z types.A i (replicate (S i) Examples.cname_self) [] []
             = OutOfFuel).
  { induction fuel as [|fuel IH]; intros i; [done|].
    cbn [Zone.find_loop].
    rewrite lookup_replicate_2 by lia.
    unfold Zone.find_step. change (rr_type Examples.cname_self =? types.CNAME) with true.
    cbn [orb]. unfold Zone.glue.
    change (isFQDN_js (data_target (rr_data Examples.cname_self))) with (Ok true).
    cbn [mbind Res_bind assert default data_target rr_data Examples.cname_self].
    unfold types.A in *. cbn [mbind Res_bind assert default].
    rewrite Hpush. cbn [mbind Res_bind].
    rewrite length_app. cbn [length].
    replace (length (replicate (S i) Examples.cname_self)
               =? length (replicate (S i) Examples.cname_self) + 1)%nat with false
      by (symmetry; apply Nat.eqb_neq; lia).
    cbn [mbind Res_bind default].
    replace (replicate (S i) Examples.cname_self ++ [Examples.cname_self])
      with (replicate (S (S i)) Examples.cname_self)
      by (rewrite (replicate_S_end (S i)); done).
    apply IH. }
  intros fuel. unfold Zone.find, Zone.get. rewrite Hpush. apply (Hloop fuel 0%nat).
Qed.

(** ** C3: the predecessor of a name *)

Section lower_theory.
Context `{Externals}.
Hypothesis laws : comparator util_compare.

(** A name that is canonically greater than every stored name has a
    predecessor, the last stored name, but [findLower] throws: the
    insertion index is [items.length], and [items[items.length]] is
    [undefined]. *)
Lemma findLower_after_last (items : list string) (name : string) :
  sorted util_compare items ->
  Z.of_nat (length items) < 2 ^ 31 ->
  items <> [] ->
  (forall x, x ∈ items -> before util_compare x name) ->
  Helpers.findLower items name = Throw AssertionError.
Proof.
  intros Hs Hlen Hne Hall.
  pose proof (findLower_spec laws items name Hs Hlen) as Hspec.
  destruct items as [|x0 items0]; [done|].
  assert (Hx0 : before util_compare x0 name) by (apply Hall; left).
  unfold before in Hx0.
  destruct (Helpers.findLower (x0 :: items0) name) as [[p|]|[]|]; try done.
  - destruct Hspec as (_ & _ & _ & _ & y & Hy & Hny).
    specialize (Hall y Hy). unfold before in Hall, Hny.
    apply (cmp_antisym _ laws) in Hny. lia.
  - specialize (Hspec x0 ltac:(left)). unfold before in Hspec.
    apply (cmp_antisym _ laws) in Hspec. lia.
  - destruct Hspec as (x & Hx & Hc). specialize (Hall x Hx). unfold before in Hall. lia.
Qed.

End lower_theory.

(** C3. [lower] does not return the predecessor of a name that is
    canonically greater than every stored name. The list holds [.] and
    [com.]; [org.] is absent and [com.] is the greatest stored name less
    than it, yet [lower(org.)] throws an assertion error instead of
    returning [com.]. In the other cases [lower] does what is expected
    of it: a stored name gives the NotAnNXDomain error, a name between
    two stored names gives its predecessor. *)
Theorem lower_after_last_name_throws :
  exists names,
    (('(l, _) ← NameList.insert (H := SpecModel.externals) NameList.empty "com.";
      '(l, _) ← NameList.insert l ".";
      Ok l) = Ok names)
    /\ names = ["."; "com."]
    /\ SpecModel.compare "." "org." < 0
    /\ SpecModel.compare "com." "org." < 0
    /\ NameList.lower (H := SpecModel.externals) names "org." = Throw AssertionError
    /\ NameList.lower (H := SpecModel.externals) names "com." = Throw NotAnNXDomain
    /\ NameList.lower (H := SpecModel.externals) names "aaa." = Ok (Some ".").
Proof.
  eexists. split; [vm_compute; reflexivity|].
  repeat split; vm_compute; reflexivity.
Qed.

(** ** C4: the authority section of an unresolved CNAME *)

(** C4. An unresolved CNAME target does not bring the SOA of the zone
    into the authority section. The zone [example.] holds its SOA and
    the CNAME [a.example. -> nx.other.]; [glue] for [nx.other.] appends
    nothing to the answer and is given an authority list, but it pushes
    the SOA stored at [nx.other.], of which there is none, not the SOA
    of the zone: the authority list stays empty, in [glue] and in the
    message [resolve] returns. *)
Theorem unresolved_cname_has_no_soa :
  forall fuel : nat,
  exists z, build (H := SpecModel.externals) "example."
              [Examples.soa_example; Examples.cname_a] = Ok z
    /\ Zone.get z "example." types.SOA = Ok [Examples.soa_example]
    /\ Zone.glue z (Some "nx.other.") [Examples.cname_a] (Some types.A) (Some [])
       = Ok ([Examples.cname_a], Some [])
    /\ Zone.resolve (S (S fuel)) z "a.example." types.A
       = Ok (mkMessage codes.NOERROR true [Examples.cname_a] [] []).
Proof.
  intros fuel. eexists. split; [vm_compute; reflexivity|].
  repeat split; vm_compute; reflexivity.
Qed.

(** ** C8: the name error at the root *)

Section name_error.
Context `{Externals}.

(** The last branch of [query]: no local answer, no authority over
    the name, no NS at the child. A zone whose origin is not the root
    answers with empty sections. *)
Lemma query_name_error_quiet (fuel : nat) (z : Zone.t) (name : string) (type : Z) :
  util_isFQDN name = true -> is_u16 type = true ->
  Zone.get z name type = Ok [] ->
  util_equal (util_from name (util_split name) (- Zone.count z)) (Zone.origin z) = false ->
  Zone.get z (util_from name (util_split name) (- (Zone.count z + 1))) types.NS = Ok [] ->
  Zone.origin z <> "." ->
  Zone.query (S fuel) z name type = Ok (Zone.mkAnswer [] [] [] false false).
Proof.
  intros Hf Hu Hget Hauth Hns Horigin. unfold Zone.query. rewrite Hf, Hu. simpl.
  rewrite (find_no_answer fuel z name type Hget). simpl. rewrite Hauth.
  rewrite (find_no_answer fuel z _ types.NS Hns). simpl.
  by rewrite bool_decide_eq_false_2.
Qed.

(** The root zone proves the name error when [lower] returns: SOA of
    the origin, NSEC of the predecessor if there is one, NSEC of the
    origin. An error of [lower] is the error of the query. *)
Lemma query_name_error_root (fuel : nat) (z : Zone.t) (name : string) (type : Z) :
  util_isFQDN name = true -> is_u16 type = true ->
  Zone.get z name type = Ok [] ->
  util_equal (util_from name (util_split name) (- Zone.count z)) (Zone.origin z) = false ->
  Zone.get z (util_from name (util_split name) (- (Zone.count z + 1))) types.NS = Ok [] ->
  Zone.origin z = "." ->
  Zone.query (S fuel) z name type
  = (soa ← Zone.get z "." types.SOA;
     lower ← NameList.lower (Zone.nsec z)
               (util_from name (util_split name) (- (Zone.count z + 1)));
     ns ← match lower with
          | None | Some "" => Ok soa
          | Some lower => Zone.push z lower types.NSEC (Some soa)
          end;
     ns ← Zone.push z "." types.NSEC (Some ns);
     Ok (Zone.mkAnswer [] ns [] false false)).
Proof.
  intros Hf Hu Hget Hauth Hns Horigin. unfold Zone.query. rewrite Hf, Hu. simpl.
  rewrite (find_no_answer fuel z name type Hget). simpl. rewrite Hauth.
  rewrite (find_no_answer fuel z _ types.NS Hns). simpl.
  rewrite bool_decide_eq_true_2 by done. rewrite Horigin.
  destruct (Zone.get z "." types.SOA) as [soa| |]; simpl; try done.
  unfold Zone.proveNameError, Zone.proveNoData. rewrite Horigin.
  destruct (NameList.lower (Zone.nsec z) _) as [lower| |]; simpl; try done.
  by destruct (match lower with
               | Some (String _ _ as lower0) => Zone.push z lower0 types.NSEC (Some soa)
               | _ => Ok soa
               end).
Qed.

End name_error.

(** C8. The root zone gives no name-error proof for a top-level name
    that sorts after every owner of an NSEC record. The root zone holds
    SOA, NS of [com.] with glue, and the NSEC chain of [.] and [com.];
    the query [(example.zzz., A)] has no local answer, the zone is not
    authoritative for the name, there is no NS at the child [zzz.], and
    the predecessor of [zzz.] is [com.]; [lower] throws and with it the
    query. A name that sorts before a stored name gets the proof: SOA,
    NSEC of the predecessor, NSEC of the origin. *)
Theorem root_name_error_throws_after_last_name :
  forall fuel : nat,
  exists z, build (H := SpecModel.externals) "."
              [Examples.soa_root; Examples.ns_com; Examples.a_gtld;
               Examples.nsec_root; Examples.nsec_com] = Ok z
    /\ Zone.nsec z = ["."; "com."]
    /\ Zone.get z "example.zzz." types.A = Ok []
    /\ util_equal (util_from "example.zzz." (util_split "example.zzz.") (- Zone.count z))
                  (Zone.origin z) = false
    /\ util_from "example.zzz." (util_split "example.zzz.") (- (Zone.count z + 1)) = "zzz."
    /\ Zone.get z "zzz." types.NS = Ok []
    /\ SpecModel.compare "com." "zzz." < 0
    /\ NameList.lower (Zone.nsec z) "zzz." = Throw AssertionError
    /\ Zone.query (S fuel) z "example.zzz." types.A = Throw AssertionError
    /\ Zone.query (S fuel) z "example.aaa." types.A
       = Ok (Zone.mkAnswer []
               [Examples.soa_root; Examples.nsec_root; Examples.nsec_root]
               [] false false).
Proof.
  intros fuel. eexists. split; [vm_compute; reflexivity|].
  repeat split; vm_compute; reflexivity.
Qed.

(** * Further properties *)

(** ** Binary search and the name list *)

Section search_extras.
Context {A : Type} (compare : A -> A -> Z).
Hypothesis laws : comparator compare.

(** X1. On a sorted array of fewer than 2^31 items, [search] with
    [insert = true] returns without error the number of items that are
    canonically less than the key: the items before the returned index
    are exactly those that compare below the key. *)
Theorem search_counts_smaller (items : list A) (key : A) :
  sorted compare items ->
  Z.of_nat (length items) < 2 ^ 31 ->
  exists i, Helpers.search items key compare true = Ok i
    /\ 0 <= i <= Z.of_nat (length items)
    /\ (forall j x, items !! j = Some x -> (Z.of_nat j < i <-> compare x key < 0)).
Proof.
  intros Hs Hlen.
  destruct (search_spec compare laws items key Hs Hlen) as (i & Hi & Hr & Hcase).
  exists i. split; [exact Hi|]. split; [exact Hr|].
  intros j x Hx. destruct Hcase as [(y & Hy & Hc)|[Hlo Hhi]].
  - split.
    + intros Hj.
      assert (before compare x y)
        by (eapply (sorted_lookup compare items j (Z.to_nat i)); eauto; lia).
      eapply before_eq_r; eauto.
    + intros Hxk. destruct (Z.lt_ge_cases (Z.of_nat j) i) as [|Hge]; [done|exfalso].
      destruct (decide (j = Z.to_nat i)) as [->|Hne].
      * rewrite Hy in Hx. inversion Hx; subst. lia.
      * assert (Hyx : before compare y x)
          by (eapply (sorted_lookup compare items (Z.to_nat i) j); eauto; lia).
        assert (Hky : before compare key x).
        { eapply before_eq_l; [exact laws| |exact Hyx].
          by apply (cmp_eq_sym compare laws). }
        unfold before in Hky. apply (cmp_antisym _ laws) in Hky. lia.
  - split.
    + intros Hj. eapply Hlo; eauto.
    + intros Hxk. destruct (Z.lt_ge_cases (Z.of_nat j) i) as [|Hge]; [done|exfalso].
      specialize (Hhi j x Hx Hge). lia.
Qed.

(** X2. On a sorted array of fewer than 2^31 items, [search] with
    [insert = false] returns -1 exactly when no item is canonically
    equal to the key, and otherwise the index of an item that is. *)
Theorem search_finds_or_minus_one (items : list A) (key : A) :
  sorted compare items ->
  Z.of_nat (length items) < 2 ^ 31 ->
  exists i, Helpers.search items key compare false = Ok i
    /\ (i = -1 <-> forall x, x ∈ items -> compare x key <> 0)
    /\ (i <> -1 -> 0 <= i < Z.of_nat (length items)
                   /\ exists x, items !! Z.to_nat i = Some x /\ compare x key = 0).
Proof.
  intros Hs Hlen. unfold Helpers.search.
  destruct (search_loop_spec compare laws (S (length items)) items key 0
              (Z.of_nat (length items) - 1) Hs Hlen)
    as [(pos & x & -> & Hp & Hx & Hc)|(s & -> & Hr & Hlo & Hhi)]; try lia.
  - intros i x Hx Hi. apply lookup_lt_Some in Hx. lia.
  - simpl. exists pos. pose proof (lookup_lt_Some _ _ _ Hx) as Hlt. split; [done|]. split.
    + split; [lia|]. intros Hall. exfalso. apply (Hall x); [|done].
      eapply list_elem_of_lookup_2; eauto.
    + intros _. split; [lia|]. eauto.
  - simpl. exists (-1). split; [done|]. split; [|done].
    split; [|done]. intros _ x Hx.
    apply list_elem_of_lookup in Hx as [j Hj].
    destruct (Z.lt_ge_cases (Z.of_nat j) s).
    + specialize (Hlo j x Hj). lia.
    + specialize (Hhi j x Hj). lia.
Qed.

End search_extras.

Lemma search_counts_smaller_witness :
  Helpers.search ["."; "com."; "org."] "net." SpecModel.compare true = Ok 2
  /\ exists i, Helpers.search ["."; "com."; "org."] "net." SpecModel.compare true = Ok i
       /\ (Z.of_nat 1 < i <-> SpecModel.compare "com." "net." < 0).
Proof.
  split; [vm_compute; reflexivity|].
  destruct (search_counts_smaller SpecModel.compare spec_compare_comparator
              ["."; "com."; "org."] "net.") as (i & Hi & _ & Hiff).
  - unfold sorted, before. repeat constructor; vm_compute; reflexivity.
  - vm_compute; reflexivity.
  - exists i. split; [exact Hi|]. apply (Hiff 1%nat "com."). reflexivity.
Defined.

Lemma search_finds_or_minus_one_witness :
  Helpers.search ["."; "com."; "org."] "net." SpecModel.compare false = Ok (-1)
  /\ Helpers.search ["."; "com."; "org."] "COM." SpecModel.compare false = Ok 1
  /\ exists i, Helpers.search ["."; "com."; "org."] "net." SpecModel.compare false = Ok i
       /\ (i = -1 <-> forall x, x ∈ ["."; "com."; "org."] -> SpecModel.compare x "net." <> 0).
Proof.
  split; [vm_compute; reflexivity|]. split; [vm_compute; reflexivity|].
  destruct (search_finds_or_minus_one SpecModel.compare spec_compare_comparator
              ["."; "com."; "org."] "net.") as (i & Hi & Hiff & _).
  - unfold sorted, before. repeat constructor; vm_compute; reflexivity.
  - vm_compute; reflexivity.
  - exists i. split; [exact Hi|exact Hiff].
Defined.

Section namelist_extras.
Context `{Externals}.
Hypothesis laws : comparator util_compare.

(** The boolean [insertString] returns tells whether the name was new. *)
Lemma insertString_result (items : list string) (name : string) :
  sorted util_compare items ->
  Z.of_nat (length items) < 2 ^ 31 ->
  exists items' b, Helpers.insertString items name = Ok (items', b)
    /\ sorted util_compare items'
    /\ (forall x, x ∈ items' <-> x ∈ items \/ (b = true /\ x = name))
    /\ (length items <= length items')%nat
    /\ (if b then items' ≡ₚ name :: items
                  /\ forall x, x ∈ items -> util_compare x name <> 0
        else items' = items
             /\ exists x, x ∈ items /\ util_compare x name = 0).
Proof.
  intros Hs Hlen.
  destruct (insertString_sorted laws items name Hs Hlen) as (items' & b & Heq & Hs' & Hmem).
  exists items', b. split; [exact Heq|]. split; [exact Hs'|]. split; [exact Hmem|].
  unfold Helpers.insertString, Helpers.insert in Heq.
  destruct (search_spec util_compare laws items name Hs Hlen) as (i & Hi & Hr & Hcase).
  rewrite Hi in Heq. simpl in Heq.
  destruct Hcase as [(x & Hx & Hc)|[Hlo Hhi]].
  - pose proof (lookup_lt_Some _ _ _ Hx) as Hlt.
    replace (i <? Z.of_nat (length items)) with true in Heq
      by (symmetry; apply Z.ltb_lt; lia).
    assert (Hat : at_index items i = Some x) by (apply at_index_Some; split; [lia|done]).
    rewrite Hat in Heq. simpl in Heq. rewrite Hc in Heq. simpl in Heq.
    inversion Heq; subst. split; [done|]. split; [done|].
    exists x. split; [|done]. eapply list_elem_of_lookup_2; eauto.
  - assert (Hnodup : (if i <? Z.of_nat (length items)
               then cmp ← compare_js util_compare (at_index items i) name; Ok (cmp =? 0)
               else Ok false) = Ok false).
    { destruct (Z.ltb_spec i (Z.of_nat (length items))) as [Hlt|]; [|done].
      destruct (at_index_in_range items i) as [x Hx]; [lia|].
      rewrite Hx. simpl. apply at_index_Some in Hx as [_ Hx].
      assert (0 < util_compare x name) by (eapply Hhi; eauto; lia).
      replace (util_compare x name =? 0) with false; [done|].
      symmetry. apply Z.eqb_neq. lia. }
    rewrite Hnodup in Heq. simpl in Heq.
    assert (Hneg : (i =? -1) = false) by (apply Z.eqb_neq; lia).
    assert (Habs : forall x, x ∈ items -> util_compare x name <> 0).
    { intros x Hx. apply list_elem_of_lookup in Hx as [j Hj].
      destruct (Z.lt_ge_cases (Z.of_nat j) i).
      - specialize (Hlo j x Hj). lia.
      - specialize (Hhi j x Hj). lia. }
    assert (Hperm : take (Z.to_nat i) items ++ name :: drop (Z.to_nat i) items
                    ≡ₚ name :: items).
    { rewrite <- Permutation_middle. by rewrite take_drop. }
    destruct (i =? 0) eqn:E0.
    + apply Z.eqb_eq in E0. simpl in Heq. inversion Heq; subst. simpl. split; [lia|]. done.
    + destruct (i =? Z.of_nat (length items)) eqn:El.
      * apply Z.eqb_eq in El. simpl in Heq. rewrite Hneg in Heq. inversion Heq; subst.
        rewrite length_app. simpl. split; [lia|]. split; [|done].
        rewrite Nat2Z.id in Hperm. by rewrite take_ge, drop_ge in Hperm by lia.
      * simpl in Heq. rewrite Hneg in Heq. inversion Heq; subst.
        split; [|done]. rewrite Hperm. simpl. lia.
Qed.

(** X3. On a sorted name list of fewer than 2^31 names, [insertString]
    never fails and keeps the list sorted. It returns [true] and adds
    exactly one copy of the name when no stored name is canonically
    equal to it; it returns [false] and leaves the list as it is when
    one is. *)
Theorem insertString_inserts_once (items : list string) (name : string) :
  sorted util_compare items ->
  Z.of_nat (length items) < 2 ^ 31 ->
  exists items' b, Helpers.insertString items name = Ok (items', b)
    /\ sorted util_compare items'
    /\ (if b then items' ≡ₚ name :: items
                  /\ forall x, x ∈ items -> util_compare x name <> 0
        else items' = items
             /\ exists x, x ∈ items /\ util_compare x name = 0).
Proof.
  intros Hs Hlen.
  destruct (insertString_result items name Hs Hlen) as (items' & b & ? & ? & _ & _ & ?).
  eauto.
Qed.

(** X4. On a sorted name list of fewer than 2^31 names, [findLower]
    throws 'Not an NXDOMAIN.' exactly when a stored name is canonically
    equal to the name. When none is and some stored name is canonically
    greater, it returns the greatest stored name canonically less than
    the name, or [null] when no stored name is less. *)
Theorem findLower_predecessor (items : list string) (name : string) :
  sorted util_compare items ->
  Z.of_nat (length items) < 2 ^ 31 ->
  (Helpers.findLower items name = Throw NotAnNXDomain
   <-> exists x, x ∈ items /\ util_compare x name = 0)
  /\ ((forall x, x ∈ items -> util_compare x name <> 0) ->
      (exists y, y ∈ items /\ before util_compare name y) ->
      exists r, Helpers.findLower items name = Ok r
        /\ match r with
           | Some p => p ∈ items /\ before util_compare p name
                       /\ forall x, x ∈ items -> before util_compare x name ->
                                    x = p \/ before util_compare x p
           | None => forall x, x ∈ items -> before util_compare name x
           end).
Proof.
  intros Hs Hlen.
  pose proof (findLower_spec laws items name Hs Hlen) as Hspec.
  split; [split|].
  - intros Heq. by rewrite Heq in Hspec.
  - intros (x & Hx & Hc).
    destruct (Helpers.findLower items name) as [[p|]|[]|]; try done.
    + destruct Hspec as (Habs & _). by destruct (Habs x Hx).
    + specialize (Hspec x Hx). unfold before in Hspec.
      apply (cmp_eq_sym _ laws) in Hc. lia.
    + destruct Hspec as [_ Hall]. specialize (Hall x Hx). unfold before in Hall. lia.
  - intros Habs (y & Hy & Hny).
    destruct (Helpers.findLower items name) as [[p|]|[]|]; try done.
    + exists (Some p). split; [done|]. tauto.
    + exists None. done.
    + destruct Hspec as [_ Hall]. specialize (Hall y Hy).
      unfold before in Hall, Hny. apply (cmp_antisym _ laws) in Hny. lia.
    + destruct Hspec as (x & Hx & Hc). by destruct (Habs x Hx).
Qed.

End namelist_extras.

Lemma insertString_inserts_once_witness :
  exists items' b,
    Helpers.insertString (H := SpecModel.externals) ["."; "org."] "com." = Ok (items', b)
    /\ sorted SpecModel.compare items'
    /\ (if b then items' ≡ₚ "com." :: ["."; "org."]
                  /\ forall x, x ∈ ["."; "org."] -> SpecModel.compare x "com." <> 0
        else items' = ["."; "org."]
             /\ exists x, x ∈ ["."; "org."] /\ SpecModel.compare x "com." = 0).
Proof.
  apply (insertString_inserts_once (H := SpecModel.externals) spec_compare_comparator).
  - unfold sorted, before. repeat constructor; vm_compute; reflexivity.
  - vm_compute; reflexivity.
Defined.

Lemma findLower_predecessor_witness :
  exists r, Helpers.findLower (H := SpecModel.externals) ["."; "com."; "org."] "net." = Ok r
    /\ r = Some "com.".
Proof.
  assert (Hsorted : sorted SpecModel.compare ["."; "com."; "org."])
    by (unfold sorted, before; repeat constructor; vm_compute; reflexivity).
  assert (Hlen : Z.of_nat (length ["."; "com."; "org."]) < 2 ^ 31)
    by (vm_compute; reflexivity).
  destruct (proj2 (findLower_predecessor (H := SpecModel.externals) spec_compare_comparator
              ["."; "com."; "org."] "net." Hsorted Hlen)) as (r & Hr & _).
  - intros x Hx. apply list_elem_of_In in Hx. simpl in Hx.
    destruct Hx as [<-|[<-|[<-|[]]]]; vm_compute; discriminate.
  - exists "org.". split; [|vm_compute; reflexivity].
    apply list_elem_of_In. simpl. tauto.
  - exists r. split; [exact Hr|].
    assert (Hc : Helpers.findLower (H := SpecModel.externals) ["."; "com."; "org."] "net."
                 = Ok (Some "com.")) by (vm_compute; reflexivity).
    rewrite Hc in Hr. by inversion Hr.
Defined.

(** ** The tables of the zone *)

Section table_extras.
Context `{Externals}.

Lemma rrs_insert_mem m rr r :
  (exists l, RecordMap.rrs (RecordMap.insert m rr) !! rr_type r = Some l /\ r ∈ l)
  <-> (exists l, RecordMap.rrs m !! rr_type r = Some l /\ r ∈ l) \/ r = rr.
Proof.
  rewrite rrs_insert. destruct (decide (rr_type rr = rr_type r)) as [Heq|Hne].
  - rewrite Heq, lookup_insert_eq. split.
    + intros (l & Hl & Hr). inversion Hl; subst. apply elem_of_app in Hr as [Hr|Hr].
      * left. destruct (RecordMap.rrs m !! rr_type r) as [l0|]; simpl in Hr.
        -- eauto.
        -- by apply elem_of_nil in Hr.
      * right. by apply list_elem_of_singleton in Hr.
    + intros [(l & Hl & Hr)| ->].
      * eexists. split; [reflexivity|]. rewrite Hl. simpl. apply elem_of_app. by left.
      * eexists. split; [reflexivity|]. apply elem_of_app. right. by apply list_elem_of_singleton.
  - rewrite lookup_insert_ne by done. split; [by left|].
    intros [?| ->]; [done|]. by destruct Hne.
Qed.

Lemma stored_record_tables z z' rr :
  Zone.names z' = Zone.names z -> Zone.wild z' = Zone.wild z ->
  stored_record z' rr <-> stored_record z rr.
Proof. unfold stored_record. by intros -> ->. Qed.

Lemma stored_inserted z rr r :
  stored_record (inserted z rr) r <-> stored_record z r \/ r = rr.
Proof.
  unfold stored_record, inserted.
  destruct (Helpers.isWild (rr_name rr)); simpl.
  - rewrite rrs_insert_mem. tauto.
  - split.
    + intros [(name & m & l & Hm & Hl & Hr)|Hw]; [|by left; right].
      destruct (decide (rr_name rr = name)) as [<-|Hne].
      * rewrite lookup_insert_eq in Hm. inversion Hm; subst.
        destruct (proj1 (rrs_insert_mem _ rr r) (ex_intro _ l (conj Hl Hr)))
          as [(l0 & Hl0 & Hr0)|?]; [|by right].
        left. left. destruct (Zone.names z !! rr_name rr) as [m0|] eqn:E0; simpl in Hl0.
        -- eauto 6.
        -- by rewrite lookup_empty in Hl0.
      * rewrite lookup_insert_ne in Hm by done. left. left. eauto 6.
    + intros [[(name & m & l & Hm & Hl & Hr)|Hw]| ->].
      * left. destruct (decide (rr_name rr = name)) as [<-|Hne].
        -- destruct (proj2 (rrs_insert_mem m rr r)) as (l' & Hl' & Hr'); [eauto|].
           exists (rr_name rr), (RecordMap.insert m rr), l'.
           rewrite lookup_insert_eq, Hm. done.
        -- exists name, m, l. by rewrite lookup_insert_ne.
      * by right.
      * left. destruct (proj2 (rrs_insert_mem
                 (default RecordMap.empty (Zone.names z !! rr_name rr)) rr rr))
          as (l' & Hl' & Hr'); [by right|].
        eexists (rr_name rr), _, l'. by rewrite lookup_insert_eq.
Qed.

Lemma insert_adds_exactly_aux z z' R :
  Zone.insert z R = Ok z' ->
  forall r, stored_record z' r <-> stored_record z r \/ r = wire_canonical R.
Proof.
  intros Hi. apply insert_inv in Hi as (_ & _ & Hn & Hw & _).
  intros r. rewrite (stored_record_tables _ z' r Hn Hw). apply stored_inserted.
Qed.

(** X5. [insert] adds the canonical copy of the record to the tables and
    nothing else: the records stored after a successful [insert] are
    those stored before and that copy; the origin, its label count and
    the signing key are left as they were. *)
Theorem insert_adds_exactly (z z' : Zone.t) (R : RR) :
  Zone.insert z R = Ok z' ->
  (forall r, stored_record z' r <-> stored_record z r \/ r = wire_canonical R)
  /\ Zone.origin z' = Zone.origin z /\ Zone.count z' = Zone.count z
  /\ Zone.zskkey z' = Zone.zskkey z /\ Zone.zskpriv z' = Zone.zskpriv z.
Proof.
  intros Hi. split; [by apply insert_adds_exactly_aux|].
  by apply insert_inv in Hi as (Ho & Hc & _ & _ & Hk & Hp & _).
Qed.

(** X6. In a reachable zone every stored record is found under its own
    owner and type: a wildcard owner in the wildcard table, any other
    owner in the exact-owner table under its name, which is never a
    wildcard. No stored RRset is empty. *)
Theorem stored_records_are_filed (z : Zone.t) :
  reachable z ->
  (forall rr, stored_record z rr <->
     if Helpers.isWild (rr_name rr)
     then exists rrs, RecordMap.rrs (Zone.wild z) !! rr_type rr = Some rrs /\ rr ∈ rrs
     else exists m rrs, Zone.names z !! rr_name rr = Some m
            /\ RecordMap.rrs m !! rr_type rr = Some rrs /\ rr ∈ rrs)
  /\ (forall name m, Zone.names z !! name = Some m -> Helpers.isWild name = false)
  /\ (forall name m type rrs, Zone.names z !! name = Some m ->
        RecordMap.rrs m !! type = Some rrs -> rrs <> [])
  /\ (forall type rrs, RecordMap.rrs (Zone.wild z) !! type = Some rrs -> rrs <> []).
Proof.
  intros Hreach. destruct (reachable_ok z Hreach) as [Hnames [Hwr Hws]].
  split; [|split; [|split]].
  - intros rr. unfold stored_record. split.
    + intros [(name & m & l & Hm & Hl & Hr)|(l & Hl & Hr)].
      * destruct (Hnames _ _ Hm) as [Hw [Hrrs _]].
        destruct (Hrrs _ _ Hl) as [_ Hall].
        rewrite Forall_forall in Hall. destruct (Hall rr Hr) as [-> _].
        rewrite Hw. eauto.
      * destruct (Hwr _ _ Hl) as [_ Hall].
        rewrite Forall_forall in Hall. destruct (Hall rr Hr) as [-> _]. eauto.
    + destruct (Helpers.isWild (rr_name rr)).
      * intros ?. by right.
      * intros (m & l & ? & ? & ?). left. eauto 6.
  - intros name m Hm. by destruct (Hnames _ _ Hm).
  - intros name m type rrs Hm Hl. destruct (Hnames _ _ Hm) as [_ [Hrrs _]].
    by destruct (Hrrs _ _ Hl).
  - intros type rrs Hl. by destruct (Hwr _ _ Hl).
Qed.

(** X7. After a successful [insert] into a reachable zone, [has] at the
    owner and type of the canonical record answers [true] unless the
    owner is a wildcard, for which it answers [false]; and [has] never
    turns from [true] to [false] by an insertion. *)
Theorem has_after_insert (z z' : Zone.t) (R : RR) :
  reachable z ->
  Zone.insert z R = Ok z' ->
  let rr := wire_canonical R in
  (util_isFQDN (rr_name rr) = true -> is_u16 (rr_type rr) = true ->
   Zone.has z' (rr_name rr) (rr_type rr) = Ok (negb (Helpers.isWild (rr_name rr))))
  /\ (forall name type, Zone.has z name type = Ok true -> Zone.has z' name type = Ok true).
Proof.
  intros Hreach Hi rr. pose proof (reachable_ok z Hreach) as [Hnames _].
  apply insert_inv in Hi as (_ & _ & Hn & _). fold rr in Hn.
  unfold Zone.has. rewrite Hn. unfold inserted. split.
  - intros Hf Hu. rewrite Hf, Hu. simpl.
    destruct (Helpers.isWild (rr_name rr)) eqn:Hw; simpl.
    + destruct (Zone.names z !! rr_name rr) as [m|] eqn:Em; [|done].
      destruct (Hnames _ _ Em) as [Hf' _]. congruence.
    + rewrite lookup_insert_eq. f_equal. apply bool_decide_eq_true_2.
      rewrite rrs_insert, lookup_insert_eq. eauto.
  - intros name type. destruct (util_isFQDN name); [|done]. simpl.
    destruct (is_u16 type); [|done]. simpl.
    destruct (Zone.names z !! name) as [m|] eqn:Em; [|discriminate].
    intros Ht.
    assert (Hb : is_Some (RecordMap.rrs m !! type))
      by (eapply bool_decide_eq_true_1; congruence).
    destruct (Helpers.isWild (rr_name rr)); simpl.
    + by rewrite Em.
    + destruct (decide (rr_name rr = name)) as [<-|Hne].
      * rewrite lookup_insert_eq, Em. simpl. f_equal. apply bool_decide_eq_true_2.
        rewrite rrs_insert.
        destruct (decide (rr_type rr = type)) as [<-|Hnt].
        -- rewrite lookup_insert_eq. eauto.
        -- by rewrite lookup_insert_ne.
      * rewrite lookup_insert_ne by done. by rewrite Em.
Qed.

(** X8. An insertion changes no retrieval at another exact owner, and a
    wildcard record changes no retrieval at a name that has an entry in
    the exact-owner table: [push], and with it [get], gives at such a
    name what it gave before. *)
Theorem insert_frame (z z' : Zone.t) (R : RR) (name : string) :
  Zone.insert z R = Ok z' ->
  let rr := wire_canonical R in
  (Helpers.isWild (rr_name rr) = false /\ name <> rr_name rr)
  \/ (Helpers.isWild (rr_name rr) = true /\ is_Some (Zone.names z !! name)) ->
  (forall type an, Zone.push z' name type an = Zone.push z name type an)
  /\ (forall type, Zone.get z' name type = Zone.get z name type).
Proof.
  intros Hi rr Hcase.
  apply insert_inv in Hi as (_ & _ & Hn & Hw & Hk & Hp & _). fold rr in Hn, Hw.
  assert (Hpush : forall type an, Zone.push z' name type an = Zone.push z name type an).
  { intros type an. unfold Zone.push. rewrite Hn, Hw, Hk, Hp. unfold inserted.
    destruct Hcase as [[Hwild Hne]|[Hwild [m Hm]]]; rewrite Hwild; simpl.
    - by rewrite lookup_insert_ne.
    - by rewrite Hm. }
  split; [exact Hpush|]. intros type. apply Hpush.
Qed.

Hypothesis laws : comparator util_compare.

(** X9. [insert] into a reachable zone whose name list is within range
    fails only for a record out of the zone: it throws 'Not a child of
    this zone.' when the canonical record is neither an A nor an AAAA
    record and its owner is not a subdomain of the origin, and succeeds
    otherwise. *)
Theorem insert_fails_only_out_of_zone (z : Zone.t) (R : RR) :
  reachable z ->
  Z.of_nat (length (Zone.nsec z)) < 2 ^ 31 ->
  let rr := wire_canonical R in
  if negb (rr_type rr =? types.A) && negb (rr_type rr =? types.AAAA)
     && negb (util_isSubdomain (Zone.origin z) (rr_name rr))
  then Zone.insert z R = Throw NotAChild
  else exists z', Zone.insert z R = Ok z'.
Proof.
  intros Hreach Hlen rr. unfold Zone.insert. fold rr.
  destruct (negb (rr_type rr =? types.A) && negb (rr_type rr =? types.AAAA)); simpl.
  - destruct (util_isSubdomain (Zone.origin z) (rr_name rr)); simpl; [|done].
    destruct (rr_type rr =? types.NSEC); [|eauto].
    destruct (insertString_sorted laws (Zone.nsec z) (rr_name rr))
      as (items' & b & Heq & _); [by apply reachable_nsec_sorted|done|].
    unfold NameList.insert.
    destruct (Helpers.isWild (rr_name rr)); simpl; rewrite Heq; simpl; eauto.
  - destruct (rr_type rr =? types.NSEC); [|eauto].
    destruct (insertString_sorted laws (Zone.nsec z) (rr_name rr))
      as (items' & b & Heq & _); [by apply reachable_nsec_sorted|done|].
    unfold NameList.insert.
    destruct (Helpers.isWild (rr_name rr)); simpl; rewrite Heq; simpl; eauto.
Qed.

Lemma nsec_owner_tables z z' name :
  Zone.names z' = Zone.names z -> Zone.wild z' = Zone.wild z ->
  nsec_owner z' name <-> nsec_owner z name.
Proof.
  intros Hn Hw. unfold nsec_owner. split; intros (rr & Hs & Ht & Hname); exists rr.
  - by rewrite <- (stored_record_tables z z' rr Hn Hw).
  - by rewrite (stored_record_tables z z' rr Hn Hw).
Qed.

Lemma no_records_no_owner z name :
  Zone.names z = ∅ -> Zone.wild z = RecordMap.empty -> ~ nsec_owner z name.
Proof.
  intros Hn Hw (rr & [(n & m & l & Hm & _)|(l & Hl & _)] & _).
  - rewrite Hn in Hm. by rewrite lookup_empty in Hm.
  - rewrite Hw in Hl. simpl in Hl. by rewrite lookup_empty in Hl.
Qed.

Lemma reachable_nsec_content z :
  reachable z ->
  Z.of_nat (length (Zone.nsec z)) < 2 ^ 31 ->
  sorted util_compare (Zone.nsec z)
  /\ (forall x, x ∈ Zone.nsec z -> nsec_owner z x)
  /\ (forall name, nsec_owner z name ->
        exists x, x ∈ Zone.nsec z /\ util_compare x name = 0).
Proof.
  induction 1 as [origin z Hnew|z origin z' _ IH Hset|z str z' _ IH Hset
                 |z R z' _ IH Hins|z _ IH|z _ IH]; intros Hlen.
  - apply setOrigin_inv in Hnew as (Hn & Hw & Hs & _). simpl in *.
    rewrite Hs. split; [constructor|]. split.
    + intros x Hx. by apply elem_of_nil in Hx.
    + intros name Ho. by destruct (no_records_no_owner z name).
  - apply setOrigin_inv in Hset as (Hn & Hw & Hs & _). rewrite Hs in *.
    destruct (IH Hlen) as (? & Hin & Hout). split; [done|]. split.
    + intros x Hx. apply (nsec_owner_tables z z' x Hn Hw). auto.
    + intros name Ho. apply Hout. by apply (nsec_owner_tables z z' name Hn Hw).
  - apply setZSK_inv in Hset as (Hn & Hw & Hs & _). rewrite Hs in *.
    destruct (IH Hlen) as (? & Hin & Hout). split; [done|]. split.
    + intros x Hx. apply (nsec_owner_tables z z' x Hn Hw). auto.
    + intros name Ho. apply Hout. by apply (nsec_owner_tables z z' name Hn Hw).
  - pose proof (insert_adds_exactly_aux z z' R Hins) as Hadd.
    apply insert_inv in Hins as (_ & _ & _ & _ & _ & _ & Hnsec).
    set (rr := wire_canonical R) in *.
    assert (Hown : forall name, nsec_owner z' name
              <-> nsec_owner z name \/ (rr_type rr = types.NSEC /\ rr_name rr = name)).
    { intros name. unfold nsec_owner. split.
      - intros (r & Hs & Ht & Hname). apply Hadd in Hs as [Hs| ->]; [left; eauto|by right].
      - intros [(r & Hs & Ht & Hname)|[Ht Hname]].
        + exists r. split; [apply Hadd; by left|done].
        + exists rr. split; [apply Hadd; by right|done]. }
    destruct (rr_type rr =? types.NSEC) eqn:Et.
    + apply Z.eqb_eq in Et. destruct Hnsec as [b Hn]. unfold NameList.insert in Hn.
      assert (Hle : (length (Zone.nsec z) <= length (Zone.nsec z'))%nat).
      { unfold Helpers.insertString in Hn.
        destruct (Helpers.insert (Zone.nsec z) _ util_compare true) as [[l i]| |] eqn:Ei;
          simpl in Hn; try discriminate.
        inversion Hn; subst. by eapply insert_length_ge. }
      destruct IH as (Hs & Hin & Hout); [lia|].
      destruct (insertString_result laws (Zone.nsec z) (rr_name rr))
        as (items' & b' & Heq & Hs' & Hmem & _ & Hb); [done|lia|].
      rewrite Heq in Hn. inversion Hn; subst items' b'. clear Hn.
      split; [done|]. split.
      * intros x Hx. apply Hown. apply Hmem in Hx as [Hx|[_ ->]]; [left; auto|by right].
      * intros name Ho. apply Hown in Ho as [Ho|[_ <-]].
        -- destruct (Hout name Ho) as (x & Hx & Hc). exists x. split; [|done].
           apply Hmem. by left.
        -- destruct b.
           ++ exists (rr_name rr). split; [apply Hmem; by right|apply (cmp_refl _ laws)].
           ++ destruct Hb as [_ (x & Hx & Hc)]. exists x. split; [|done].
              apply Hmem. by left.
    + apply Z.eqb_neq in Et. rewrite Hnsec in *.
      destruct (IH Hlen) as (Hs & Hin & Hout). split; [done|]. split.
      * intros x Hx. apply Hown. left. auto.
      * intros name Ho. apply Hown in Ho as [Ho|[? _]]; [auto|done].
  - simpl. split; [constructor|]. split.
    + intros x Hx. by apply elem_of_nil in Hx.
    + intros name Ho. by destruct (no_records_no_owner (Zone.clear z) name).
  - simpl. split; [constructor|]. split.
    + intros x Hx. by apply elem_of_nil in Hx.
    + intros name Ho. by destruct (no_records_no_owner (Zone.clearRecords z) name).
Qed.

(** X10. The name list of a reachable zone (of fewer than 2^31 names)
    lists the owners of the NSEC records the zone stores: every listed
    name owns a stored NSEC record, and every owner of a stored NSEC
    record is listed, up to canonical equality of names. *)
Theorem nsec_lists_nsec_owners (z : Zone.t) :
  reachable z ->
  Z.of_nat (length (Zone.nsec z)) < 2 ^ 31 ->
  (forall x, x ∈ Zone.nsec z -> nsec_owner z x)
  /\ (forall name, nsec_owner z name ->
        exists x, x ∈ Zone.nsec z /\ util_compare x name = 0).
Proof. intros Hreach Hlen. by destruct (reachable_nsec_content z Hreach Hlen) as (_ & ? & ?). Qed.

End table_extras.

Lemma insert_adds_exactly_witness :
  exists z z', build (H := SpecModel.externals) "example." [Examples.soa_example] = Ok z
    /\ Zone.insert z Examples.a_a = Ok z'
    /\ stored_record z' Examples.a_a
    /\ Zone.origin z' = Zone.origin z.
Proof.
  eexists _, _. split; [vm_compute; reflexivity|]. split; [vm_compute; reflexivity|].
  match goal with
  | |- stored_record ?z' _ /\ Zone.origin _ = Zone.origin ?z =>
      destruct (insert_adds_exactly (H := SpecModel.externals) z z' Examples.a_a)
        as (Hstored & Horigin & _)
  end.
  - vm_compute; reflexivity.
  - split; [|exact Horigin]. apply Hstored. right. reflexivity.
Defined.

Lemma stored_records_are_filed_witness :
  exists z, build (H := SpecModel.externals) "example."
              [Examples.wild_a; Examples.a_a] = Ok z
    /\ forall name m, Zone.names z !! name = Some m -> Helpers.isWild name = false.
Proof.
  eexists. split; [vm_compute; reflexivity|].
  match goal with
  | |- forall name m, Zone.names ?z !! _ = _ -> _ =>
      assert (Hreach : reachable (H := SpecModel.externals) z)
        by (apply (reachable_build "example." [Examples.wild_a; Examples.a_a]);
            vm_compute; reflexivity);
      exact (proj1 (proj2 (stored_records_are_filed (H := SpecModel.externals) z Hreach)))
  end.
Defined.

Lemma has_after_insert_witness :
  exists z z', build (H := SpecModel.externals) "example." [Examples.wild_a] = Ok z
    /\ Zone.insert z Examples.a_a = Ok z'
    /\ Zone.has z' "a.example." types.A = Ok true.
Proof.
  eexists _, _. split; [vm_compute; reflexivity|]. split; [vm_compute; reflexivity|].
  match goal with
  | |- Zone.has ?z' _ _ = _ =>
      refine (eq_trans (proj1 (has_after_insert (H := SpecModel.externals)
                (Zone.mk "example." 1 ∅
                   (RecordMap.insert RecordMap.empty Examples.wild_a) [] None None)
                z' Examples.a_a _ _) _ _) _)
  end.
  - apply (reachable_build "example." [Examples.wild_a]). vm_compute; reflexivity.
  - vm_compute; reflexivity.
  - reflexivity.
  - reflexivity.
  - reflexivity.
Defined.

Lemma insert_frame_witness :
  exists z z', build (H := SpecModel.externals) "example." [Examples.a_a] = Ok z
    /\ Zone.insert z Examples.wild_a = Ok z'
    /\ Zone.get z' "a.example." types.A = Ok [Examples.a_a].
Proof.
  eexists _, _. split; [vm_compute; reflexivity|]. split; [vm_compute; reflexivity|].
  match goal with
  | |- Zone.get ?z' _ _ = _ =>
      refine (eq_trans (proj2 (insert_frame (H := SpecModel.externals)
                (Zone.mk "example." 1
                   {["a.example." := RecordMap.insert RecordMap.empty Examples.a_a]}
                   RecordMap.empty [] None None)
                z' Examples.wild_a "a.example." _ _) types.A) _)
  end.
  - vm_compute; reflexivity.
  - right. split; [reflexivity|]. vm_compute. eauto.
  - vm_compute; reflexivity.
Defined.

Lemma insert_fails_only_out_of_zone_witness :
  exists z, build (H := SpecModel.externals) "example." [Examples.soa_example] = Ok z
    /\ Zone.insert z Examples.ns_com = Throw NotAChild.
Proof.
  eexists. split; [vm_compute; reflexivity|].
  match goal with
  | |- Zone.insert ?z _ = _ =>
      assert (Hreach : reachable (H := SpecModel.externals) z)
        by (apply (reachable_build "example." [Examples.soa_example]);
            vm_compute; reflexivity);
      assert (Hlen : Z.of_nat (length (Zone.nsec z)) < 2 ^ 31)
        by (vm_compute; reflexivity);
      pose proof (insert_fails_only_out_of_zone (H := SpecModel.externals)
                    spec_compare_comparator z Examples.ns_com Hreach Hlen) as Hins
  end.
  cbv zeta in Hins.
  change (negb (rr_type (wire_canonical Examples.ns_com) =? types.A)
          && negb (rr_type (wire_canonical Examples.ns_com) =? types.AAAA)) with true in Hins.
  match type of Hins with
  | context [util_isSubdomain ?o ?n] =>
      change (util_isSubdomain o n) with false in Hins
  end.
  exact Hins.
Defined.

Lemma nsec_lists_nsec_owners_witness :
  exists z, build (H := SpecModel.externals) "."
              [Examples.nsec_com; Examples.nsec_root; Examples.ns_com] = Ok z
    /\ Zone.nsec z = ["."; "com."]
    /\ nsec_owner z "com.".
Proof.
  eexists. split; [vm_compute; reflexivity|]. split; [vm_compute; reflexivity|].
  match goal with
  | |- nsec_owner ?z _ =>
      assert (Hreach : reachable (H := SpecModel.externals) z)
        by (apply (reachable_build "."
                     [Examples.nsec_com; Examples.nsec_root; Examples.ns_com]);
            vm_compute; reflexivity);
      assert (Hlen : Z.of_nat (length (Zone.nsec z)) < 2 ^ 31)
        by (vm_compute; reflexivity);
      apply (proj1 (nsec_lists_nsec_owners (H := SpecModel.externals)
                      spec_compare_comparator z Hreach Hlen))
  end.
  apply list_elem_of_In. simpl. tauto.
Defined.

(** ** Retrieval *)

Section retrieval_extras.
Context `{Externals}.

(** X11. [Zone.push] throws an assertion error when the name is not
    fully qualified, the type is not a 16-bit number or the output
    list is missing. Otherwise it only appends to the output list when
    it returns, the records the list held before unchanged; the only
    error it can throw is the error of [dnssec.sign], asked for a
    signature on the fly of the list with the records just appended;
    and in a zone without ZSK it returns. *)
Theorem push_throws_or_appends (z : Zone.t) (name : string) (type : Z)
    (an : option (list RR)) :
  (util_isFQDN name = false \/ is_u16 type = false \/ an = None ->
   Zone.push z name type an = Throw AssertionError)
  /\ (forall l, util_isFQDN name = true -> is_u16 type = true -> an = Some l ->
      (forall res, Zone.push z name type an = Ok res -> exists out, res = l ++ out)
      /\ (forall e, Zone.push z name type an = Throw e ->
            exists key priv out,
              Zone.zskkey z = Some key /\ Zone.zskpriv z = Some priv
              /\ dnssec_sign key priv (l ++ out) = Throw e)
      /\ (Zone.zskkey z = None ->
          exists out, Zone.push z name type an = Ok (l ++ out))).
Proof.
  split.
  - unfold Zone.push. intros Hbad.
    destruct (util_isFQDN name); [|done]. simpl.
    destruct (is_u16 type); [|done]. simpl.
    destruct an as [l|]; [|done].
    destruct Hbad as [?|[?|?]]; discriminate.
  - intros l Hf Hu ->. split; [|split].
    + intros res Hr. by destruct (Zone_push_prefix z name type l res Hr) as (_ & _ & ?).
    + intros e He. rewrite Zone_push_consulted in He.
      by apply (RecordMap_push_throw _ _ _ _ _ _ _ Hf Hu) in He.
    + intros Hk. by apply Zone_push_appends.
Qed.

Lemma emit_shape (Q : string) (P : Z -> RData -> Prop) (rrs : list RR) :
  Forall (fun rr => (Helpers.isWild (rr_name rr) = true \/ rr_name rr = Q)
                    /\ P (rr_type rr) (rr_data rr)) rrs ->
  Forall (fun rr => rr_name rr = Q /\ P (rr_type rr) (rr_data rr))
         (map (Helpers.convert Q) (RecordMap.filterMatches Q rrs)).
Proof.
  unfold RecordMap.filterMatches.
  induction 1 as [|rr rrs [Hn HP] _ IH]; [constructor|].
  simpl. destruct (RecordMap.matches Q rr); [|exact IH].
  simpl. constructor; [|exact IH].
  unfold Helpers.convert. destruct (Helpers.isWild (rr_name rr)) eqn:Hw; simpl.
  - done.
  - destruct Hn as [?|?]; [discriminate|done].
Qed.

(** The shape of what [push_rrset] emits from a map whose owners are all
    wildcards or all the queried name. *)
Lemma push_rrset_shape zskkey zskpriv m Q type rrs res :
  recordmap_ok (fun owner => Helpers.isWild owner = true \/ owner = Q) m ->
  RecordMap.rrs m !! type = Some rrs ->
  RecordMap.push_rrset zskkey zskpriv m Q type rrs [] = Ok res ->
  exists emitted sigs,
    res = emitted ++ sigs
    /\ Forall (fun rr => rr_name rr = Q /\ rr_type rr = type) emitted
    /\ (Forall (fun rr => rr_name rr = Q /\ rr_type rr = types.RRSIG
                          /\ data_typeCovered (rr_data rr) = Some type) sigs
        \/ exists key priv sig, zskkey = Some key /\ zskpriv = Some priv
             /\ RecordMap.sigs m !! Some type = None
             /\ dnssec_sign key priv emitted = Ok sig
             /\ sigs = [sig]).
Proof.
  intros [Hr Hs] Hrrs. rewrite push_rrset_signatures. simpl. intros Hres.
  destruct (signatures zskkey zskpriv m Q type _) as [sg| |] eqn:Esg; simpl in Hres;
    try discriminate.
  inversion Hres; subst res.
  eexists _, sg. split; [reflexivity|]. split.
  - destruct (Hr _ _ Hrrs) as [_ Hall].
    apply (emit_shape Q (fun t _ => t = type)).
    eapply Forall_impl; [exact Hall|]. by intros rr [? ?].
  - unfold signatures, on_the_fly in Esg.
    destruct (RecordMap.sigs m !! Some type) as [sg0|] eqn:Es.
    + left. inversion Esg; subst sg. destruct (Hs _ _ Es) as [_ Hall].
      apply (emit_shape Q (fun t d => t = types.RRSIG /\ data_typeCovered d = Some type)).
      eapply Forall_impl; [exact Hall|]. by intros rr (? & ? & ?).
    + destruct zskkey as [key|], zskpriv as [priv|];
        try (inversion Esg; subst sg; left; constructor).
      destruct (dnssec_sign key priv _) as [sig| |] eqn:Esig; simpl in Esg;
        try discriminate.
      inversion Esg; subst sg. right. eauto 8.
Qed.

Lemma consulted_ok z Q :
  zone_ok z ->
  recordmap_ok (fun owner => Helpers.isWild owner = true \/ owner = Q) (consulted z Q).
Proof.
  intros [Hnames [Hwr Hws]]. unfold consulted.
  destruct (Zone.names z !! Q) as [m|] eqn:Em.
  - destruct (Hnames _ _ Em) as [_ [Hr Hs]]. split.
    + intros type rrs Hl. destruct (Hr _ _ Hl) as [Hne Hall]. split; [done|].
      eapply Forall_impl; [exact Hall|]. intros rr [? ?]. auto.
    + intros c sg Hl. destruct (Hs _ _ Hl) as [Hne Hall]. split; [done|].
      eapply Forall_impl; [exact Hall|]. intros rr (? & ? & ?). auto.
  - split.
    + intros type rrs Hl. destruct (Hwr _ _ Hl) as [Hne Hall]. split; [done|].
      eapply Forall_impl; [exact Hall|]. intros rr [? ?]. auto.
    + intros c sg Hl. destruct (Hws _ _ Hl) as [Hne Hall]. split; [done|].
      eapply Forall_impl; [exact Hall|]. intros rr (? & ? & ?). auto.
Qed.

(** X12. Whatever [get(Q, T)] returns from a reachable zone is an RRset
    followed by its signatures: the records of the RRset are owned by
    the queried name [Q], also when they come from a wildcard, and are
    all of type [T] or all of type CNAME; the signatures are RRSIG
    records owned by [Q] that cover that type, or else the one
    signature [dnssec.sign] made on the fly of the RRset with the key
    of the zone, and this only when no RRSIG covering the type is
    stored. *)
Theorem get_returns_rrset_of_query_name (z : Zone.t) (Q : string) (T : Z)
    (out : list RR) :
  reachable z ->
  Zone.get z Q T = Ok out ->
  exists type emitted sigs,
    out = emitted ++ sigs
    /\ (type = T \/ type = types.CNAME)
    /\ Forall (fun rr => rr_name rr = Q /\ rr_type rr = type) emitted
    /\ (Forall (fun rr => rr_name rr = Q /\ rr_type rr = types.RRSIG
                          /\ data_typeCovered (rr_data rr) = Some type) sigs
        \/ exists key priv sig,
             Zone.zskkey z = Some key /\ Zone.zskpriv z = Some priv
             /\ RecordMap.sigs (consulted z Q) !! Some type = None
             /\ dnssec_sign key priv emitted = Ok sig
             /\ sigs = [sig]).
Proof.
  intros Hreach Hget.
  pose proof (consulted_ok z Q (reachable_ok z Hreach)) as Hok.
  unfold Zone.get in Hget. rewrite Zone_push_consulted in Hget.
  set (m := consulted z Q) in *.
  set (shape := fun res : list RR =>
         exists (ty : Z) (emitted sigs : list RR),
           res = emitted ++ sigs
           /\ (ty = T \/ ty = types.CNAME)
           /\ Forall (fun rr => rr_name rr = Q /\ rr_type rr = ty) emitted
           /\ (Forall (fun rr => rr_name rr = Q /\ rr_type rr = types.RRSIG
                                 /\ data_typeCovered (rr_data rr) = Some ty) sigs
               \/ exists key priv sig,
                    Zone.zskkey z = Some key /\ Zone.zskpriv z = Some priv
                    /\ RecordMap.sigs m !! Some ty = None
                    /\ dnssec_sign key priv emitted = Ok sig
                    /\ sigs = [sig])).
  change (shape out).
  assert (Hnil : shape []).
  { exists T, [], []. split; [done|]. split; [by left|]. split; [constructor|].
    left. constructor. }
  assert (Hset : forall type rrs res, (type = T \/ type = types.CNAME) ->
            RecordMap.rrs m !! type = Some rrs ->
            RecordMap.push_rrset (Zone.zskkey z) (Zone.zskpriv z) m Q type rrs [] = Ok res ->
            shape res).
  { intros type rrs res Ht Hl Hres.
    destruct (push_rrset_shape (Zone.zskkey z) (Zone.zskpriv z) m Q type rrs res
                Hok Hl Hres)
      as (emitted & sigs & Heq & He & Hsg).
    exists type, emitted, sigs. done. }
  clearbody shape.
  unfold RecordMap.push in Hget.
  destruct (util_isFQDN Q); [|discriminate]. simpl in Hget.
  destruct (is_u16 T); [|discriminate]. simpl in Hget.
  destruct (RecordMap.rrs m !! T) as [[|r l]|] eqn:El;
    destruct (negb (T =? types.CNAME));
    destruct (RecordMap.rrs m !! types.CNAME) as [[|r' l']|] eqn:Ec;
    first [ by (inversion Hget; subst out; exact Hnil)
          | by (eapply Hset; [by left|done|exact Hget])
          | by (eapply Hset; [by right|done|exact Hget]) ].
Qed.

(** X13. At an exact owner [N] of a reachable zone that holds no CNAME
    (or for the type CNAME itself), [get(N, T)] returns the RRset of
    type [T] stored at [N] in insertion order, followed by the stored
    RRSIGs covering [T] or, when none is stored and the zone has a ZSK,
    by the one signature [dnssec.sign] makes of that RRset on the fly;
    it returns the empty list when no such RRset is stored. The
    wildcard table plays no part. *)
Theorem exact_owner_retrieval (z : Zone.t) (N : string) (T : Z) (m : RecordMap.t) :
  reachable z ->
  Zone.names z !! N = Some m ->
  util_isFQDN N = true -> is_u16 T = true ->
  T = types.CNAME \/ RecordMap.rrs m !! types.CNAME = None ->
  match RecordMap.rrs m !! T with
  | Some rrs =>
      Zone.get z N T = (sigs ← covering z m T rrs; Ok (rrs ++ sigs))
      /\ rrs <> []
      /\ Forall (fun rr => rr_name rr = N /\ rr_type rr = T) rrs
  | None => Zone.get z N T = Ok []
  end.
Proof.
  intros Hreach Hm Hf Hu Hcn. pose proof (reachable_ok z Hreach) as Hok.
  pose proof (push_exact_no_cname z N m T [] Hok Hm Hf Hu Hcn) as Hpush.
  unfold stored in Hpush. fold (Zone.get z N T) in Hpush.
  destruct (RecordMap.rrs m !! T) as [rrs|] eqn:Hrrs; [|exact Hpush].
  split.
  - rewrite Hpush. simpl. by destruct (covering z m T rrs).
  - destruct (exact_owner_records z N m Hok Hm) as [Hr _].
    destruct (Hr _ _ Hrrs) as (? & ? & _). done.
Qed.

(** X14. [getHints] splits the cached root hints by type, keeping their
    order: the NS records and the A and AAAA records, every other
    record left out. The hints are parsed and canonicalized only while
    the cache is empty: once it is filled, a call returns the same two
    lists whatever the parser would return, and leaves the cache as it
    is. *)
Theorem getHints_splits_and_caches (parsed parsed' : list RR) :
  let '(cache, (ns, ar)) := Zone.getHints parsed None in
  cache = Some (map wire_canonical parsed)
  /\ ns = List.filter (fun rr => rr_type rr =? types.NS) (map wire_canonical parsed)
  /\ ar = List.filter (fun rr => (rr_type rr =? types.A) || (rr_type rr =? types.AAAA))
                      (map wire_canonical parsed)
  /\ Zone.getHints parsed' cache = (cache, (ns, ar)).
Proof.
  assert (Hloop : forall hints ns ar,
            Zone.hints_loop hints ns ar
            = (ns ++ List.filter (fun rr => rr_type rr =? types.NS) hints,
               ar ++ List.filter (fun rr => (rr_type rr =? types.A)
                                            || (rr_type rr =? types.AAAA)) hints)).
  { induction hints as [|rr hints IH]; intros ns ar; simpl.
    - by rewrite !app_nil_r.
    - destruct (Z.eqb_spec (rr_type rr) types.NS) as [Hns|Hns].
      + rewrite IH. rewrite Hns. simpl. by rewrite <- app_assoc.
      + destruct ((rr_type rr =? types.A) || (rr_type rr =? types.AAAA)); rewrite IH.
        * by rewrite <- app_assoc.
        * done. }
  unfold Zone.getHints. rewrite Hloop. simpl. done.
Qed.

End retrieval_extras.

Lemma push_throws_or_appends_witness :
  exists z, build (H := SpecModel.externals) "example." [Examples.a_a] = Ok z
    /\ Zone.push z "a.example" types.A (Some []) = Throw AssertionError
    /\ exists out, Zone.push z "a.example." types.A (Some [Examples.soa_example])
                   = Ok ([Examples.soa_example] ++ out).
Proof.
  eexists. split; [vm_compute; reflexivity|]. split.
  - match goal with
    | |- Zone.push ?z _ _ _ = _ =>
        apply (proj1 (push_throws_or_appends (H := SpecModel.externals) z "a.example"
                        types.A (Some [])))
    end.
    left. reflexivity.
  - match goal with
    | |- exists out, Zone.push ?z _ _ _ = _ =>
        apply (proj2 (proj2 (proj2 (push_throws_or_appends (H := SpecModel.externals)
                        z "a.example." types.A (Some [Examples.soa_example]))
                        [Examples.soa_example] eq_refl eq_refl eq_refl)))
    end.
    reflexivity.
Defined.

Lemma get_returns_rrset_of_query_name_witness :
  exists z, build (H := SpecModel.externals) "example." [Examples.wild_a] = Ok z
    /\ exists type emitted sigs,
         [with_owner "foo.example." Examples.wild_a] = emitted ++ sigs
         /\ (type = types.A \/ type = types.CNAME)
         /\ Forall (fun rr => rr_name rr = "foo.example." /\ rr_type rr = type) emitted.
Proof.
  eexists. split; [vm_compute; reflexivity|].
  match goal with
  | |- _ =>
      destruct (get_returns_rrset_of_query_name (H := SpecModel.externals)
                  (Zone.mk "example." 1 ∅
                     (RecordMap.insert RecordMap.empty Examples.wild_a) [] None None)
                  "foo.example." types.A [with_owner "foo.example." Examples.wild_a])
        as (type & emitted & sigs & Hout & Ht & He & _)
  end.
  - apply (reachable_build "example." [Examples.wild_a]). vm_compute; reflexivity.
  - vm_compute; reflexivity.
  - exists type, emitted, sigs. done.
Defined.

Lemma exact_owner_retrieval_witness :
  exists z, build (H := SpecModel.externals) "example."
              [MoreExamples.a_www; MoreExamples.rrsig_a_www; Examples.wild_a] = Ok z
    /\ Zone.get z "www.example." types.A
       = Ok [MoreExamples.a_www; MoreExamples.rrsig_a_www].
Proof.
  eexists. split; [vm_compute; reflexivity|].
  match goal with
  | |- Zone.get ?z _ _ = _ =>
      assert (Hreach : reachable (H := SpecModel.externals) z)
        by (apply (reachable_build "example."
                     [MoreExamples.a_www; MoreExamples.rrsig_a_www; Examples.wild_a]);
            vm_compute; reflexivity);
      assert (Hn : Zone.names z !! "www.example."
                   = Some (RecordMap.insert (RecordMap.insert RecordMap.empty
                             MoreExamples.a_www) MoreExamples.rrsig_a_www))
        by (vm_compute; reflexivity);
      assert (Hm : RecordMap.rrs (RecordMap.insert (RecordMap.insert RecordMap.empty
                                  MoreExamples.a_www) MoreExamples.rrsig_a_www)
                   !! types.CNAME = None) by (vm_compute; reflexivity);
      pose proof (exact_owner_retrieval (H := SpecModel.externals) z "www.example." types.A
                    _ Hreach Hn eq_refl eq_refl (or_intror Hm)) as Hret
  end.
  vm_compute in Hret. destruct Hret as [Hret _]. vm_compute. exact Hret.
Defined.

(** ** Chasing targets and answering queries *)

Section find_extras.
Context `{Externals}.

Lemma covering_no_key z m type an :
  Zone.zskkey z = None -> covering z m type an = Ok (stored_sigs m type).
Proof.
  intros Hk. unfold covering, stored_sigs.
  destruct (RecordMap.sigs m !! Some type); [done|]. by rewrite Hk.
Qed.

(** Without its ZSK the zone appends a stored RRset and the stored
    signatures covering it. *)
Lemma stored_no_key z m type an :
  Zone.zskkey z = None ->
  stored z m type an = Ok (stored_rrset m type).
Proof.
  intros Hk. unfold stored, stored_rrset. destruct (RecordMap.rrs m !! type); [|done].
  by rewrite covering_no_key.
Qed.

Lemma find_step_inert z type rr an ar ns :
  inert rr = true -> Zone.find_step z type rr an ar ns = Ok (an, ar, ns).
Proof.
  unfold inert, chased. intros Hi. apply negb_true_iff in Hi.
  rewrite !orb_false_iff in Hi. destruct Hi as [[[[[Hc Hd] Hn] Hs] Hm] Hv].
  unfold Zone.find_step. cbv zeta. by rewrite Hc, Hd, Hn, Hs, Hm, Hv.
Qed.

(** [glue] into the additional section: a target with an address in
    the zone gets records appended, and the missing authority list is
    never touched. *)
Lemma glue_address z target ar :
  zone_ok z -> Zone.zskkey z = None ->
  util_isFQDN target = true -> has_address z target ->
  exists out, out <> [] /\ Zone.glue z (Some target) ar None None = Ok (ar ++ out, None).
Proof.
  intros Hok Hk Hf (m & Hm & Haddr).
  assert (HuA : is_u16 types.A = true) by reflexivity.
  assert (HuAAAA : is_u16 types.AAAA = true) by reflexivity.
  destruct (Zone_push_appends z target types.A ar Hk Hf HuA) as [o1 H1].
  destruct (Zone_push_appends z target types.AAAA (ar ++ o1) Hk Hf HuAAAA) as [o2 H2].
  assert (Hne : o1 ++ o2 <> []).
  { destruct (exact_owner_records z target m Hok Hm) as [Hr _].
    destruct (RecordMap.rrs m !! types.CNAME) as [cn|] eqn:Hcn.
    - destruct (Hr _ _ Hcn) as (Hcne & _).
      rewrite Zone_push_consulted in H1. unfold consulted in H1. rewrite Hm in H1.
      rewrite (push_shadowed _ _ m target types.A cn) in H1 by done.
      rewrite (push_rrset_exact z target m types.CNAME cn ar Hok Hm Hcn) in H1.
      rewrite covering_no_key in H1 by done. simpl in H1.
      inversion H1 as [H1']. apply app_inv_head in H1'. subst o1.
      destruct cn; [done|]. discriminate.
    - destruct (RecordMap.rrs m !! types.A) as [a|] eqn:Ha.
      + destruct (Hr _ _ Ha) as (Hane & _).
        rewrite (push_exact_no_cname z target m types.A ar Hok Hm Hf HuA) in H1
          by (by right).
        rewrite stored_no_key in H1 by done. unfold stored_rrset in H1.
        rewrite Ha in H1. simpl in H1.
        inversion H1 as [H1']. apply app_inv_head in H1'. subst o1.
        destruct a; [done|]. discriminate.
      + destruct (RecordMap.rrs m !! types.AAAA) as [a4|] eqn:Ha4.
        * destruct (Hr _ _ Ha4) as (Hane & _).
          rewrite (push_exact_no_cname z target m types.AAAA (ar ++ o1) Hok Hm Hf HuAAAA)
            in H2 by (by right).
          rewrite stored_no_key in H2 by done. unfold stored_rrset in H2.
          rewrite Ha4 in H2. simpl in H2.
          inversion H2 as [H2']. apply app_inv_head in H2'. subst o2.
          destruct a4; [done|].
          intros Habs. apply app_eq_nil in Habs as [_ ?]. discriminate.
        * destruct Haddr as [[? ?]|[[? ?]|[? ?]]]; discriminate. }
  exists (o1 ++ o2). split; [done|].
  unfold Zone.glue. simpl. rewrite Hf. simpl. rewrite H1. simpl. rewrite H2. simpl.
  rewrite <- app_assoc.
  replace (length ar =? length (ar ++ o1 ++ o2))%nat with false; [done|].
  symmetry. apply Nat.eqb_neq. rewrite length_app.
  destruct (o1 ++ o2); [done|]. simpl. lia.
Qed.

Lemma glue_target_chased rr target :
  glue_target rr = Some target -> inert rr = false.
Proof.
  intros Ht. destruct (inert rr) eqn:Hi; [|done]. exfalso.
  unfold inert, chased in Hi. apply negb_true_iff in Hi.
  rewrite !orb_false_iff in Hi. destruct Hi as [[[[[_ _] Hn] Hs] Hm] Hv].
  unfold glue_target in Ht. rewrite Hn, Hs, Hm, Hv in Ht. discriminate.
Qed.

Lemma find_step_glued z type rr an ar ns :
  zone_ok z -> Zone.zskkey z = None \/ inert rr = true -> glued z rr ->
  exists out, Zone.find_step z type rr an ar ns = Ok (an, ar ++ out, ns)
              /\ (out = [] <-> inert rr = true).
Proof.
  intros Hok Hkey [Hi|(Hc & Hd & target & Ht & Hf & Haddr)].
  - exists []. rewrite app_nil_r. split; [by apply find_step_inert|done].
  - assert (Hk : Zone.zskkey z = None).
    { destruct Hkey as [?|Hi]; [done|].
      rewrite (glue_target_chased rr target Ht) in Hi. discriminate. }
    destruct (glue_address z target ar Hok Hk Hf Haddr) as (out & Hne & Hg).
    exists out. split.
    + unfold Zone.find_step. cbv zeta.
      replace (rr_type rr =? types.CNAME) with false by (symmetry; by apply Z.eqb_neq).
      replace (rr_type rr =? types.DNAME) with false by (symmetry; by apply Z.eqb_neq).
      simpl. unfold glue_target in Ht.
      destruct ((rr_type rr =? types.NS) || (rr_type rr =? types.SOA)).
      { rewrite Ht, Hg. done. }
      destruct (rr_type rr =? types.MX).
      { rewrite Ht, Hg. done. }
      destruct (rr_type rr =? types.SRV).
      { rewrite Ht, Hg. done. }
      discriminate.
    + split; [done|]. intros Hi.
      rewrite (glue_target_chased rr target Ht) in Hi. discriminate.
Qed.

Lemma find_loop_glued z type fuel :
  zone_ok z ->
  forall i an ar ns,
  Zone.zskkey z = None \/ Forall (fun rr => inert rr = true) (drop i an) ->
  Forall (glued z) (drop i an) ->
  (length an - i < fuel)%nat ->
  exists out, Zone.find_loop fuel z type i an ar ns = Ok (an, ar ++ out, ns)
              /\ (out = [] <-> Forall (fun rr => inert rr = true) (drop i an)).
Proof.
  intros Hok. induction fuel as [|fuel IH]; intros i an ar ns Hkey Hall Hlen; [lia|].
  simpl. destruct (an !! i) as [rr|] eqn:Hi.
  - rewrite (drop_S _ _ _ Hi) in *. inversion Hall as [|? ? Hrr Hrest]; subst.
    assert (Hkey1 : Zone.zskkey z = None \/ inert rr = true).
    { destruct Hkey as [?|Hin]; [by left|right]. by inversion Hin. }
    assert (Hkey2 : Zone.zskkey z = None
                    \/ Forall (fun rr => inert rr = true) (drop (S i) an)).
    { destruct Hkey as [?|Hin]; [by left|right]. by inversion Hin. }
    destruct (find_step_glued z type rr an ar ns Hok Hkey1 Hrr) as (o1 & Hs & Ho1).
    rewrite Hs. simpl.
    apply lookup_lt_Some in Hi.
    destruct (IH (S i) an (ar ++ o1) ns Hkey2 Hrest ltac:(lia)) as (o2 & Hl & Ho2).
    exists (o1 ++ o2). rewrite app_assoc. split; [exact Hl|].
    rewrite Forall_cons. split.
    + intros Hnil. apply app_eq_nil in Hnil as [? ?]. split; tauto.
    + intros [? ?]. assert (o1 = []) as -> by tauto. simpl. tauto.
  - exists []. rewrite app_nil_r. split; [done|].
    apply lookup_ge_None in Hi. rewrite drop_ge by done. done.
Qed.

(** X15. [find] on an answer whose records are inert, or, in a zone
    without ZSK, are NS, SOA, MX or SRV records with a fully
    qualified target that has an address (or a CNAME) at an exact owner
    of the zone: it returns, the answer is what [get] returned, the
    authority list is empty, and the additional list is empty exactly
    when no record was chased. *)
Theorem find_returns_answer_with_glue (fuel : nat) (z : Zone.t) (name : string)
    (type : Z) (an : list RR) :
  reachable z ->
  Zone.zskkey z = None \/ Forall (fun rr => inert rr = true) an ->
  Zone.get z name type = Ok an ->
  Forall (glued z) an ->
  (length an < fuel)%nat ->
  exists ar, Zone.find fuel z name type = Ok (an, ar, [])
             /\ (ar = [] <-> Forall (fun rr => inert rr = true) an).
Proof.
  intros Hreach Hkey Hget Hall Hlen. unfold Zone.find. rewrite Hget. simpl.
  destruct (find_loop_glued z type fuel (reachable_ok z Hreach) 0 an [] [])
    as (out & Hl & Hout).
  - by rewrite drop_0.
  - by rewrite drop_0.
  - lia.
  - exists out. rewrite drop_0 in Hout. done.
Qed.

End find_extras.

Section query_extras.
Context `{Externals}.

(** The five ways [query] returns. *)
Lemma query_cases fuel z name type a :
  Zone.query fuel z name type = Ok a ->
  exists an ar ns,
    Zone.find fuel z name type = Ok (an, ar, ns)
    /\ ((an <> [] /\ authoritative z name = true
         /\ a = Zone.mkAnswer an ns ar true true)
        \/ (an <> [] /\ authoritative z name = false /\ type = types.NS
            /\ exists an', Zone.push z name types.DS (Some an) = Ok an'
                 /\ a = Zone.mkAnswer [] an' ar false true)
        \/ (an <> [] /\ authoritative z name = false /\ type <> types.NS
            /\ a = Zone.mkAnswer an [] ar false true)
        \/ (an = [] /\ authoritative z name = true
            /\ exists soa ns', Zone.get z (Zone.origin z) types.SOA = Ok soa
                 /\ Zone.proveNoData z soa = Ok ns'
                 /\ a = Zone.mkAnswer [] ns' [] true false)
        \/ (an = [] /\ authoritative z name = false
            /\ exists ns1 gl x,
                 Zone.find fuel z (child_of z name) types.NS = Ok (ns1, gl, x)
                 /\ ((ns1 = [] /\ exists ns', a = Zone.mkAnswer [] ns' [] false false
                                     /\ (Zone.origin z <> "." -> ns' = []))
                     \/ (ns1 <> [] /\ exists ns',
                           Zone.push z (child_of z name) types.DS (Some ns1) = Ok ns'
                           /\ a = Zone.mkAnswer [] ns' gl false true)))).
Proof.
  unfold Zone.query, authoritative, child_of. intros Hq.
  destruct (util_isFQDN name); [|discriminate]. simpl in Hq.
  destruct (is_u16 type); [|discriminate]. simpl in Hq.
  destruct (Zone.find fuel z name type) as [[[an ar] ns]| |] eqn:Hfd; simpl in Hq;
    try discriminate.
  exists an, ar, ns. split; [done|].
  set (auth := util_equal _ (Zone.origin z)) in *.
  destruct an as [|r an]; simpl in Hq.
  - destruct auth.
    + right; right; right; left. split; [done|]. split; [done|].
      destruct (Zone.get z (Zone.origin z) types.SOA) as [soa| |] eqn:Hsoa; simpl in Hq;
        try discriminate.
      destruct (Zone.proveNoData z soa) as [ns'| |] eqn:Hnd; simpl in Hq; try discriminate.
      inversion Hq. exists soa, ns'. done.
    + right; right; right; right. split; [done|]. split; [done|].
      destruct (Zone.find fuel z _ types.NS) as [[[ns1 gl] x]| |] eqn:Hfind; simpl in Hq;
        try discriminate.
      exists ns1, gl, x. split; [done|].
      destruct ns1 as [|r1 ns1]; simpl in Hq.
      * left. split; [done|].
        destruct (bool_decide (Zone.origin z = ".")) eqn:Hroot.
        -- apply bool_decide_eq_true_1 in Hroot.
           destruct (Zone.get z (Zone.origin z) types.SOA) as [soa| |]; simpl in Hq;
             try discriminate.
           destruct (Zone.proveNameError z _ soa) as [ns'| |]; simpl in Hq;
             try discriminate.
           inversion Hq. eexists. split; [done|]. done.
        -- simpl in Hq. inversion Hq. exists []. done.
      * right. split; [done|].
        destruct (Zone.push z _ types.DS (Some (r1 :: ns1))) as [ns'| |] eqn:Hds;
          simpl in Hq; try discriminate.
        inversion Hq. exists ns'. done.
  - destruct auth; simpl in Hq.
    + left. inversion Hq. done.
    + right. destruct (Z.eqb_spec type types.NS) as [->|Hne].
      * left. split; [done|]. split; [done|]. split; [done|].
        destruct (Zone.push z name types.DS (Some (r :: an))) as [an'| |] eqn:Hds;
          simpl in Hq; try discriminate.
        inversion Hq. exists an'. done.
      * right; left. inversion Hq. done.
Qed.

(** X16. The flags of a result of [query]. The [aa] flag says whether
    the last [count] labels of the name are the origin, whatever was
    found. A result with [ok] unset has an empty answer and an empty
    additional section; a result with [ok] set has a record in its
    answer, or is a referral: [aa] unset and a record in the
    authority. *)
Theorem query_flags (fuel : nat) (z : Zone.t) (name : string) (type : Z)
    (a : Zone.answer) :
  Zone.query fuel z name type = Ok a ->
  Zone.an_aa a = authoritative z name
  /\ (Zone.an_ok a = false -> Zone.an_answer a = [] /\ Zone.an_additional a = [])
  /\ (Zone.an_ok a = true ->
      Zone.an_answer a <> []
      \/ (Zone.an_aa a = false /\ Zone.an_authority a <> [])).
Proof.
  intros Hq. apply query_cases in Hq as (an & ar & ns & _ & Hcase).
  destruct Hcase as [(Hne & Hau & ->)
    |[(Hne & Hau & _ & an' & Hp & ->)
    |[(Hne & Hau & _ & ->)
    |[(_ & Hau & soa & ns' & _ & _ & ->)
    |(_ & Hau & ns1 & gl & x & _ & [(_ & ns' & -> & _)|(Hne & ns' & Hp & ->)])]]]];
    simpl; rewrite Hau; (split; [done|]); (split; [done|]); intros Hok; try done.
  - by left.
  - right. split; [done|].
    apply Zone_push_prefix in Hp as (_ & _ & out & ->). by destruct an.
  - by left.
  - right. split; [done|].
    apply Zone_push_prefix in Hp as (_ & _ & out & ->). by destruct ns1.
Qed.

(** X17. The response code of [resolve] is NOERROR or NXDOMAIN. It is
    NXDOMAIN only for a name outside the authority of the zone, and
    then the message is not authoritative and has an empty answer and
    an empty additional section; inside a non-root zone its authority
    section is empty too. A name under the origin that the zone does
    not hold is answered NOERROR, never NXDOMAIN. *)
Theorem resolve_name_error_shape (fuel : nat) (z : Zone.t) (name : string)
    (type : Z) (msg : Message) :
  Zone.resolve fuel z name type = Ok msg ->
  (msg_code msg = codes.NOERROR \/ msg_code msg = codes.NXDOMAIN)
  /\ msg_aa msg = authoritative z (toLowerCase name)
  /\ (msg_code msg = codes.NXDOMAIN ->
      authoritative z (toLowerCase name) = false
      /\ msg_answer msg = [] /\ msg_additional msg = []
      /\ (Zone.origin z <> "." -> msg_authority msg = [])).
Proof.
  intros Hr. unfold Zone.resolve in Hr.
  destruct (util_isFQDN name); [|discriminate]. simpl in Hr.
  destruct (is_u16 type); [|discriminate]. simpl in Hr.
  destruct (Zone.query fuel z (toLowerCase name) _) as [a| |] eqn:Hq; simpl in Hr;
    try discriminate.
  inversion Hr; subst msg; clear Hr. simpl.
  apply query_cases in Hq as (an & ar & ns & _ & Hcase).
  destruct Hcase as [(Hne & Hau & ->)
    |[(Hne & Hau & _ & an' & Hp & ->)
    |[(Hne & Hau & _ & ->)
    |[(_ & Hau & soa & ns' & _ & _ & ->)
    |(_ & Hau & ns1 & gl & x & _ & [(_ & ns' & -> & Hq)|(Hne & ns' & Hp & ->)])]]]];
    simpl; rewrite Hau; (split; [auto|]); (split; [done|]); intros Hc;
    try discriminate.
  done.
Qed.

(** X18. An answer found at a name under the authority of the zone: the
    result of [query] carries it in the answer section, with what
    [find] glued in the additional section, an empty authority
    section, and both flags set, provided the records are inert or, in
    a zone without ZSK, have their glue in the zone. *)
Theorem query_authoritative_answer (fuel : nat) (z : Zone.t) (name : string)
    (type : Z) (an : list RR) :
  reachable z ->
  Zone.zskkey z = None \/ Forall (fun rr => inert rr = true) an ->
  Zone.get z name type = Ok an -> an <> [] ->
  Forall (glued z) an ->
  authoritative z name = true ->
  (length an < fuel)%nat ->
  exists ar, Zone.query fuel z name type = Ok (Zone.mkAnswer an [] ar true true)
             /\ (ar = [] <-> Forall (fun rr => inert rr = true) an).
Proof.
  intros Hreach Hkey Hget Hne Hall Hau Hlen.
  destruct (Zone_get_args z name type an Hget) as [Hf Hu].
  destruct (find_loop_glued z type fuel (reachable_ok z Hreach) 0 an [] [])
    as (ar & Hl & Har); [by rewrite drop_0|by rewrite drop_0|lia|].
  rewrite drop_0 in Har. exists ar. split; [|exact Har].
  unfold Zone.query. rewrite Hf, Hu. simpl. unfold Zone.find. rewrite Hget. simpl.
  rewrite Hl. simpl. unfold authoritative in Hau. rewrite Hau. simpl.
  by destruct an.
Qed.


(** X20. The referral. For a name outside the authority of a zone
    without ZSK at which nothing is found, [query] looks up the NS
    records of the child of the zone above the name. When there are
    some, with their glue in the zone, the result has an empty answer,
    the NS records followed by what a push of the DS of the child
    appends as authority, the glue as additional section, [aa] unset
    and [ok] set. *)
Theorem query_referral (fuel : nat) (z : Zone.t) (name : string) (type : Z)
    (ns : list RR) :
  reachable z ->
  Zone.zskkey z = None ->
  Zone.get z name type = Ok [] ->
  authoritative z name = false ->
  Zone.get z (child_of z name) types.NS = Ok ns -> ns <> [] ->
  Forall (glued z) ns ->
  (length ns < fuel)%nat ->
  exists ds glue,
    Zone.push z (child_of z name) types.DS (Some ns) = Ok (ns ++ ds)
    /\ Zone.query fuel z name type = Ok (Zone.mkAnswer [] (ns ++ ds) glue false true)
    /\ (glue = [] <-> Forall (fun rr => inert rr = true) ns).
Proof.
  intros Hreach Hk Hget Hau Hns Hne Hall Hlen.
  destruct (Zone_get_args z name type [] Hget) as [Hf Hu].
  destruct (Zone_get_args z _ _ ns Hns) as [Hfc _].
  destruct (find_loop_glued z types.NS fuel (reachable_ok z Hreach) 0 ns [] [])
    as (gl & Hl & Hgl); [by left|by rewrite drop_0|lia|].
  rewrite drop_0 in Hgl.
  destruct (Zone_push_appends z (child_of z name) types.DS ns Hk Hfc eq_refl)
    as [ds Hds].
  exists ds, gl. split; [exact Hds|]. split; [|exact Hgl].
  destruct fuel as [|fuel]; [lia|].
  unfold Zone.query. rewrite Hf, Hu. simpl.
  rewrite (find_no_answer fuel z name type Hget). simpl.
  unfold authoritative in Hau. rewrite Hau. simpl.
  fold (child_of z name). unfold Zone.find at 1. rewrite Hns. simpl.
  simpl in Hl. rewrite Hl. simpl.
  destruct ns as [|r ns]; [done|]. simpl. simpl in Hds. rewrite Hds. done.
Qed.

Lemma no_records_get z name type :
  no_records z -> util_isFQDN name = true -> is_u16 type = true ->
  Zone.get z name type = Ok [].
Proof.
  intros (Hn & Hw & _) Hf Hu. unfold Zone.get. rewrite Zone_push_consulted.
  unfold consulted. rewrite Hn, lookup_empty, Hw.
  unfold RecordMap.push. rewrite Hf, Hu. simpl.
  by destruct (negb (type =? types.CNAME)).
Qed.

(** X21. A zone without records, as [new Zone()], [clear()] and
    [clearRecords()] leave it, answers every query with three empty
    sections and [ok] unset, and says it holds no RRset; [aa] is set
    for the names under its authority. The origin must be fully
    qualified and, outside the authority, the child of the zone above
    the name too: they are pushed. *)
Theorem empty_zone_answers_nothing (fuel : nat) (z : Zone.t) (name : string)
    (type : Z) :
  no_records z ->
  util_isFQDN name = true -> is_u16 type = true ->
  util_isFQDN (Zone.origin z) = true ->
  authoritative z name = true \/ util_isFQDN (child_of z name) = true ->
  Zone.get z name type = Ok []
  /\ Zone.has z name type = Ok false
  /\ Zone.query (S fuel) z name type
     = Ok (Zone.mkAnswer [] [] [] (authoritative z name) false).
Proof.
  intros Hno Hf Hu Hfo Hchild.
  pose proof (no_records_get z name type Hno Hf Hu) as Hget.
  split; [exact Hget|]. split.
  { unfold Zone.has. rewrite Hf, Hu. simpl. destruct Hno as (-> & _).
    by rewrite lookup_empty. }
  pose proof (no_records_get z (Zone.origin z) types.SOA Hno Hfo eq_refl) as Hsoa.
  pose proof (no_records_get z (Zone.origin z) types.NSEC Hno Hfo eq_refl) as Hnsec.
  unfold Zone.query. rewrite Hf, Hu. simpl.
  rewrite (find_no_answer fuel z name type Hget). simpl.
  unfold authoritative in *. unfold child_of in Hchild.
  destruct (util_equal _ (Zone.origin z)) eqn:Hau.
  - rewrite Hsoa. simpl. unfold Zone.proveNoData.
    unfold Zone.get in Hnsec. rewrite Hnsec. done.
  - destruct Hchild as [?|Hfc]; [done|].
    rewrite (find_no_answer fuel z _ types.NS
               (no_records_get z _ types.NS Hno Hfc eq_refl)). simpl.
    destruct (bool_decide (Zone.origin z = ".")); [|done].
    rewrite Hsoa. simpl. unfold Zone.proveNameError, Zone.proveNoData.
    destruct Hno as (_ & _ & Hnsec0). rewrite Hnsec0. simpl.
    unfold Zone.get in Hnsec. rewrite Hnsec. done.
Qed.

End query_extras.

Local Ltac glued_by_address target :=
  right; split; [intros Hx; vm_compute in Hx; discriminate|];
  split; [intros Hx; vm_compute in Hx; discriminate|];
  exists target; split; [reflexivity|]; split; [reflexivity|];
  eexists; split; [vm_compute; reflexivity|]; left; vm_compute; eauto.

Lemma find_returns_answer_with_glue_witness :
  exists z, build (H := SpecModel.externals) "example."
              [MoreExamples.ns_example; Examples.a_ns_example] = Ok z
    /\ exists ar, Zone.find 2 z "example." types.NS = Ok ([MoreExamples.ns_example], ar, [])
         /\ (ar = [] <-> Forall (fun rr => inert rr = true) [MoreExamples.ns_example]).
Proof.
  eexists. split; [vm_compute; reflexivity|].
  match goal with
  | |- exists ar, Zone.find _ ?z _ _ = _ /\ _ =>
      assert (Hreach : reachable (H := SpecModel.externals) z)
        by (apply (reachable_build "example."
                     [MoreExamples.ns_example; Examples.a_ns_example]);
            vm_compute; reflexivity);
      assert (Hget : Zone.get (H := SpecModel.externals) z "example." types.NS
                     = Ok [MoreExamples.ns_example]) by (vm_compute; reflexivity);
      assert (Hgl : Forall (glued (H := SpecModel.externals) z) [MoreExamples.ns_example])
        by (constructor; [glued_by_address "ns.example."|constructor]);
      exact (find_returns_answer_with_glue (H := SpecModel.externals) 2 z "example."
               types.NS [MoreExamples.ns_example] Hreach (or_introl eq_refl)
               Hget Hgl ltac:(simpl; lia))
  end.
Defined.

Lemma query_flags_witness :
  exists z, build (H := SpecModel.externals) "."
              [Examples.ns_com; Examples.a_gtld; MoreExamples.ds_com] = Ok z
    /\ exists a, Zone.query 2 z "www.com." types.A = Ok a
         /\ Zone.an_aa a = authoritative z "www.com."
         /\ (Zone.an_ok a = false -> Zone.an_answer a = [] /\ Zone.an_additional a = [])
         /\ (Zone.an_ok a = true ->
             Zone.an_answer a <> []
             \/ (Zone.an_aa a = false /\ Zone.an_authority a <> [])).
Proof.
  eexists. split; [vm_compute; reflexivity|].
  eexists. split; [vm_compute; reflexivity|].
  match goal with
  | |- Zone.an_aa ?a = authoritative ?z _ /\ _ =>
      assert (Hq : Zone.query (H := SpecModel.externals) 2 z "www.com." types.A = Ok a)
        by (vm_compute; reflexivity);
      exact (query_flags (H := SpecModel.externals) 2 z "www.com." types.A a Hq)
  end.
Defined.

Lemma resolve_name_error_shape_witness :
  exists z, build (H := SpecModel.externals) "example." [Examples.a_a] = Ok z
    /\ exists msg, Zone.resolve 1 z "WWW.Other." types.A = Ok msg
         /\ msg_code msg = codes.NXDOMAIN
         /\ authoritative z (toLowerCase "WWW.Other.") = false
         /\ msg_answer msg = [] /\ msg_additional msg = []
         /\ (Zone.origin z <> "." -> msg_authority msg = []).
Proof.
  eexists. split; [vm_compute; reflexivity|].
  eexists. split; [vm_compute; reflexivity|].
  split; [reflexivity|].
  match goal with
  | |- authoritative ?z _ = false /\ msg_answer ?msg = _ /\ _ =>
      assert (Hr : Zone.resolve (H := SpecModel.externals) 1 z "WWW.Other." types.A
                   = Ok msg) by (vm_compute; reflexivity);
      exact (proj2 (proj2 (resolve_name_error_shape (H := SpecModel.externals) 1 z
                             "WWW.Other." types.A msg Hr)) eq_refl)
  end.
Defined.

Lemma query_authoritative_answer_witness :
  exists z, build (H := SpecModel.externals) "example."
              [MoreExamples.ns_example; Examples.a_ns_example] = Ok z
    /\ exists ar, Zone.query 2 z "example." types.NS
                  = Ok (Zone.mkAnswer [MoreExamples.ns_example] [] ar true true)
         /\ (ar = [] <-> Forall (fun rr => inert rr = true) [MoreExamples.ns_example]).
Proof.
  eexists. split; [vm_compute; reflexivity|].
  match goal with
  | |- exists ar, Zone.query _ ?z _ _ = _ /\ _ =>
      assert (Hreach : reachable (H := SpecModel.externals) z)
        by (apply (reachable_build "example."
                     [MoreExamples.ns_example; Examples.a_ns_example]);
            vm_compute; reflexivity);
      assert (Hget : Zone.get (H := SpecModel.externals) z "example." types.NS
                     = Ok [MoreExamples.ns_example]) by (vm_compute; reflexivity);
      assert (Hgl : Forall (glued (H := SpecModel.externals) z) [MoreExamples.ns_example])
        by (constructor; [glued_by_address "ns.example."|constructor]);
      assert (Hau : authoritative (H := SpecModel.externals) z "example." = true)
        by (vm_compute; reflexivity);
      exact (query_authoritative_answer (H := SpecModel.externals) 2 z "example."
               types.NS [MoreExamples.ns_example] Hreach (or_introl eq_refl)
               Hget ltac:(discriminate) Hgl Hau ltac:(simpl; lia))
  end.
Defined.


Lemma query_referral_witness :
  exists z, build (H := SpecModel.externals) "."
              [Examples.ns_com; Examples.a_gtld; MoreExamples.ds_com] = Ok z
    /\ exists ds glue,
         Zone.push z "com." types.DS (Some [Examples.ns_com])
         = Ok ([Examples.ns_com] ++ ds)
         /\ Zone.query 2 z "www.com." types.A
            = Ok (Zone.mkAnswer [] ([Examples.ns_com] ++ ds) glue false true)
         /\ (glue = [] <-> Forall (fun rr => inert rr = true) [Examples.ns_com]).
Proof.
  eexists. split; [vm_compute; reflexivity|].
  match goal with
  | |- exists ds glue, Zone.push ?z _ _ _ = _ /\ _ =>
      assert (Hreach : reachable (H := SpecModel.externals) z)
        by (apply (reachable_build "."
                     [Examples.ns_com; Examples.a_gtld; MoreExamples.ds_com]);
            vm_compute; reflexivity);
      assert (Hget : Zone.get (H := SpecModel.externals) z "www.com." types.A = Ok [])
        by (vm_compute; reflexivity);
      assert (Hau : authoritative (H := SpecModel.externals) z "www.com." = false)
        by (vm_compute; reflexivity);
      assert (Hns : Zone.get (H := SpecModel.externals) z
                      (child_of (H := SpecModel.externals) z "www.com.") types.NS
                    = Ok [Examples.ns_com]) by (vm_compute; reflexivity);
      assert (Hgl : Forall (glued (H := SpecModel.externals) z) [Examples.ns_com])
        by (constructor; [glued_by_address "a.gtld-servers.net."|constructor]);
      pose proof (query_referral (H := SpecModel.externals) 2 z "www.com." types.A
                    [Examples.ns_com] Hreach eq_refl Hget Hau Hns ltac:(discriminate)
                    Hgl ltac:(simpl; lia)) as Href
  end.
  change (child_of _ "www.com.") with "com." in Href. exact Href.
Defined.

Lemma empty_zone_answers_nothing_witness :
  exists z, build (H := SpecModel.externals) "example."
              [Examples.soa_example; Examples.wild_a] = Ok z
    /\ Zone.get (Zone.clearRecords z) "www.example." types.A = Ok []
    /\ Zone.has (Zone.clearRecords z) "www.example." types.A = Ok false
    /\ Zone.query 1 (Zone.clearRecords z) "www.example." types.A
       = Ok (Zone.mkAnswer [] [] []
               (authoritative (Zone.clearRecords z) "www.example.") false).
Proof.
  eexists. split; [vm_compute; reflexivity|].
  match goal with
  | |- Zone.get (Zone.clearRecords ?z) _ _ = _ /\ _ =>
      assert (Hau : authoritative (H := SpecModel.externals) (Zone.clearRecords z)
                      "www.example." = true) by (vm_compute; reflexivity);
      exact (empty_zone_answers_nothing (H := SpecModel.externals) 0
               (Zone.clearRecords z) "www.example." types.A
               (conj eq_refl (conj eq_refl eq_refl)) eq_refl eq_refl eq_refl
               (or_introl Hau))
  end.
Defined.

(** ** Following a CNAME *)

Section chase_extras.
Context `{Externals}.

Lemma stored_sigs_inert z name m type :
  zone_ok z -> Zone.names z !! name = Some m ->
  Forall (fun rr => inert rr = true) (stored_sigs m type).
Proof.
  intros Hok Hm. unfold stored_sigs.
  destruct (RecordMap.sigs m !! Some type) as [sg|] eqn:Hs; [|constructor].
  destruct (exact_owner_records z name m Hok Hm) as [_ Hsig].
  destruct (Hsig _ _ Hs) as [Hall _]. simpl.
  eapply Forall_impl; [exact Hall|]. intros rr [Ht _]. unfold inert. by rewrite Ht.
Qed.

(** X22. [find] follows a CNAME to a target inside the zone. In a zone
    without a ZSK, at an owner [N] that holds one CNAME record whose
    target [T] is an exact owner without CNAME holding an RRset of the
    queried type, a type [find] does not chase itself: the answer is
    the CNAME record and the stored signatures covering it, followed
    by the RRset of [T] and the stored signatures covering that; the
    additional and the authority list stay empty. *)
Theorem find_follows_cname (fuel : nat) (z : Zone.t) (N T : string) (type : Z)
    (m m' : RecordMap.t) (c : RR) (rrs : list RR) :
  reachable z ->
  Zone.zskkey z = None ->
  util_isFQDN N = true -> is_u16 type = true ->
  type <> 0 -> chased type = false ->
  Zone.names z !! N = Some m ->
  RecordMap.rrs m !! types.CNAME = Some [c] ->
  data_target (rr_data c) = Some T -> util_isFQDN T = true ->
  Zone.names z !! T = Some m' ->
  RecordMap.rrs m' !! types.CNAME = None ->
  RecordMap.rrs m' !! type = Some rrs ->
  (length (c :: stored_sigs m types.CNAME ++ rrs ++ stored_sigs m' type) < fuel)%nat ->
  Zone.get z N type = Ok (c :: stored_sigs m types.CNAME)
  /\ Zone.find fuel z N type
     = Ok (c :: stored_sigs m types.CNAME ++ rrs ++ stored_sigs m' type, [], []).
Proof.
  intros Hreach Hk Hf Hu Hn0 Hch Hm Hcn Htg HfT Hm' Hcn' Hrrs Hlen.
  pose proof (reachable_ok z Hreach) as Hok.
  assert (Hne : type <> types.CNAME) by (intros ->; discriminate).
  assert (Hget : Zone.get z N type = Ok (c :: stored_sigs m types.CNAME)).
  { unfold Zone.get. rewrite Zone_push_consulted. unfold consulted. rewrite Hm.
    rewrite (push_shadowed _ _ m N type [c]) by done.
    rewrite (push_rrset_exact z N m types.CNAME [c] [] Hok Hm Hcn).
    by rewrite covering_no_key by done. }
  split; [exact Hget|].
  unfold Zone.find. rewrite Hget. simpl.
  destruct fuel as [|fuel]; [simpl in Hlen; lia|]. simpl.
  destruct (exact_owner_records z N m Hok Hm) as [Hr _].
  destruct (Hr _ _ Hcn) as (_ & Hc & _).
  apply Forall_inv in Hc as [_ Hct].
  destruct (exact_owner_records z T m' Hok Hm') as [Hr' _].
  destruct (Hr' _ _ Hrrs) as (Hrne & Hrall & _).
  unfold Zone.find_step. cbv zeta. rewrite Hct. simpl.
  rewrite Htg. unfold Zone.glue. simpl. rewrite HfT. simpl.
  set (an := c :: stored_sigs m types.CNAME).
  assert (Hpush : Zone.push z T type (Some an)
                  = Ok (an ++ rrs ++ stored_sigs m' type)).
  { rewrite (push_exact_no_cname z T m' type an Hok Hm' HfT Hu) by (by right).
    rewrite stored_no_key by done. unfold stored_rrset. by rewrite Hrrs. }
  replace (match type with
           | 0 => an0 ← Zone.push z T types.A (Some an);
                  Zone.push z T types.AAAA (Some an0)
           | _ => Zone.push z T type (Some an)
           end) with (Zone.push z T type (Some an)) by (by destruct type).
  rewrite Hpush. simpl.
  replace (length (stored_sigs m types.CNAME)
           =? length (stored_sigs m types.CNAME ++ rrs ++ stored_sigs m' type))%nat
    with false.
  2:{ symmetry. apply Nat.eqb_neq. rewrite !length_app.
      destruct rrs; [done|]. simpl. lia. }
  simpl.
  destruct (find_loop_glued z type fuel Hok 1
              (c :: stored_sigs m types.CNAME ++ rrs ++ stored_sigs m' type) [] [])
    as (out & Hl & Hout).
  - by left.
  - simpl. rewrite drop_0. rewrite !Forall_app. split; [|split].
    + eapply Forall_impl; [exact (stored_sigs_inert z N m types.CNAME Hok Hm)|].
      intros rr Hi. by left.
    + eapply Forall_impl; [exact Hrall|]. intros rr [_ Ht]. left.
      unfold inert. by rewrite Ht, Hch.
    + eapply Forall_impl; [exact (stored_sigs_inert z T m' type Hok Hm')|].
      intros rr Hi. by left.
  - simpl in *. lia.
  - unfold an in *. simpl in Hl. rewrite Hl.
    assert (out = []) as ->; [|done].
    apply Hout. simpl. rewrite drop_0. rewrite !Forall_app. split; [|split].
    + exact (stored_sigs_inert z N m types.CNAME Hok Hm).
    + eapply Forall_impl; [exact Hrall|]. intros rr [_ Ht].
      unfold inert. by rewrite Ht, Hch.
    + exact (stored_sigs_inert z T m' type Hok Hm').
Qed.

End chase_extras.

(** ** Loading a zone *)

Section load_extras.
Context `{Externals}.

Hypothesis laws : comparator util_compare.

Lemma insert_in_zone z R :
  reachable z ->
  Z.of_nat (length (Zone.nsec z)) < 2 ^ 31 ->
  if in_zone (Zone.origin z) R
  then exists z', Zone.insert z R = Ok z'
                  /\ (length (Zone.nsec z') <= S (length (Zone.nsec z)))%nat
  else Zone.insert z R = Throw NotAChild.
Proof.
  intros Hreach Hlen. unfold in_zone. cbv zeta.
  set (rr := wire_canonical R).
  assert (Hgo : forall z0,
            (let z1 := z0 in
             if rr_type rr =? types.NSEC
             then '(nsec, _) ← NameList.insert (Zone.nsec z1) (rr_name rr);
                  Ok (Zone.mk (Zone.origin z1) (Zone.count z1) (Zone.names z1)
                        (Zone.wild z1) nsec (Zone.zskpriv z1) (Zone.zskkey z1))
             else Ok z1) = Zone.insert z R ->
            Zone.nsec z0 = Zone.nsec z ->
            exists z', Zone.insert z R = Ok z'
                       /\ (length (Zone.nsec z') <= S (length (Zone.nsec z)))%nat).
  { intros z0 <- Hn. cbv zeta. destruct (rr_type rr =? types.NSEC).
    - destruct (insertString_result laws (Zone.nsec z) (rr_name rr))
        as (items' & b & Heq & _ & _ & _ & Hb);
        [by apply reachable_nsec_sorted|done|].
      unfold NameList.insert. rewrite Hn, Heq. simpl. eexists. split; [done|]. simpl.
      destruct b.
      + destruct Hb as [Hp _]. rewrite Hp. simpl. lia.
      + destruct Hb as [-> _]. lia.
    - eexists. split; [done|]. rewrite Hn. lia. }
  destruct ((rr_type rr =? types.A) || (rr_type rr =? types.AAAA)) eqn:Haddr; simpl.
  - eapply (Hgo (inserted z rr)).
    + unfold Zone.insert, inserted. fold rr.
      replace (negb (rr_type rr =? types.A) && negb (rr_type rr =? types.AAAA))
        with false.
      2:{ apply orb_true_iff in Haddr as [->| ->]; simpl; [done|by rewrite andb_false_r]. }
      simpl. by destruct (Helpers.isWild (rr_name rr)).
    + unfold inserted. by destruct (Helpers.isWild (rr_name rr)).
  - apply orb_false_iff in Haddr as [Ha Ha4].
    destruct (util_isSubdomain (Zone.origin z) (rr_name rr)) eqn:Hsub.
    + eapply (Hgo (inserted z rr)).
      * unfold Zone.insert, inserted. fold rr. rewrite Ha, Ha4, Hsub. simpl.
        by destruct (Helpers.isWild (rr_name rr)).
      * unfold inserted. by destruct (Helpers.isWild (rr_name rr)).
    + unfold Zone.insert. fold rr. rewrite Ha, Ha4, Hsub. done.
Qed.

(** X23. Loading records one after the other, as [fromString] does with
    what the parser returns. Into a reachable zone whose name list stays
    within range, the load succeeds exactly when every record is an A
    or AAAA record or is owned by a subdomain of the origin, and
    otherwise throws 'Not a child of this zone.'. After a successful
    load the origin is unchanged and the stored records are those
    stored before and the canonical copies of the loaded ones. *)
Theorem load_succeeds_iff_in_zone (z : Zone.t) (rrs : list RR) :
  reachable z ->
  Z.of_nat (length (Zone.nsec z) + length rrs) < 2 ^ 31 ->
  if forallb (in_zone (Zone.origin z)) rrs
  then exists z', Zone.insert_all z rrs = Ok z'
         /\ Zone.origin z' = Zone.origin z
         /\ forall r, stored_record z' r
                      <-> stored_record z r \/ r ∈ map wire_canonical rrs
  else Zone.insert_all z rrs = Throw NotAChild.
Proof.
  revert z. induction rrs as [|R rrs IH]; intros z Hreach Hlen; simpl.
  - exists z. split; [done|]. split; [done|]. intros r. split; [auto|].
    intros [?|Hin]; [done|]. by apply elem_of_nil in Hin.
  - pose proof (insert_in_zone z R Hreach ltac:(simpl in Hlen; lia)) as Hins.
    destruct (in_zone (Zone.origin z) R); simpl.
    + destruct Hins as (z1 & Hi & Hn). rewrite Hi. simpl.
      pose proof (insert_adds_exactly_aux z z1 R Hi) as Hst.
      pose proof (insert_inv z R z1 Hi) as (Ho & _).
      specialize (IH z1 (reach_insert z R z1 Hreach Hi) ltac:(simpl in Hlen; lia)).
      rewrite Ho in IH.
      destruct (forallb (in_zone (Zone.origin z)) rrs); [|exact IH].
      destruct IH as (z' & Hall & Ho' & Hst').
      exists z'. split; [done|]. split; [done|].
      intros r. rewrite Hst', Hst, elem_of_cons. tauto.
    + by rewrite Hins.
Qed.

End load_extras.

Lemma find_follows_cname_witness :
  exists z, build (H := SpecModel.externals) "example."
              [MoreExamples.cname_www; MoreExamples.rrsig_cname_www;
               MoreExamples.a_www; MoreExamples.rrsig_a_www] = Ok z
    /\ Zone.get z "web.example." types.A
       = Ok [MoreExamples.cname_www; MoreExamples.rrsig_cname_www]
    /\ Zone.find 5 z "web.example." types.A
       = Ok ([MoreExamples.cname_www; MoreExamples.rrsig_cname_www;
              MoreExamples.a_www; MoreExamples.rrsig_a_www], [], []).
Proof.
  eexists. split; [vm_compute; reflexivity|].
  match goal with
  | |- Zone.get ?z _ _ = _ /\ _ =>
      assert (Hreach : reachable (H := SpecModel.externals) z)
        by (apply (reachable_build "example."
                     [MoreExamples.cname_www; MoreExamples.rrsig_cname_www;
                      MoreExamples.a_www; MoreExamples.rrsig_a_www]);
            vm_compute; reflexivity);
      assert (Hm : Zone.names z !! "web.example."
                   = Some (RecordMap.insert
                             (RecordMap.insert RecordMap.empty MoreExamples.cname_www)
                             MoreExamples.rrsig_cname_www))
        by (vm_compute; reflexivity);
      assert (Hm' : Zone.names z !! "www.example."
                    = Some (RecordMap.insert
                              (RecordMap.insert RecordMap.empty MoreExamples.a_www)
                              MoreExamples.rrsig_a_www))
        by (vm_compute; reflexivity);
      pose proof (find_follows_cname (H := SpecModel.externals) 5 z
                    "web.example." "www.example." types.A _ _
                    MoreExamples.cname_www [MoreExamples.a_www]
                    Hreach eq_refl eq_refl eq_refl ltac:(discriminate) eq_refl
                    Hm ltac:(vm_compute; reflexivity) eq_refl eq_refl
                    Hm' ltac:(vm_compute; reflexivity) ltac:(vm_compute; reflexivity)
                    ltac:(vm_compute; lia)) as Hw
  end.
  change (stored_sigs _ types.CNAME) with [MoreExamples.rrsig_cname_www] in Hw.
  change (stored_sigs _ types.A) with [MoreExamples.rrsig_a_www] in Hw.
  exact Hw.
Defined.

Lemma load_succeeds_iff_in_zone_witness :
  exists z, Zone.new (H := SpecModel.externals) (Some "example.") = Ok z
    /\ Zone.insert_all z [Examples.soa_example; Examples.ns_com] = Throw NotAChild
    /\ exists z', Zone.insert_all z [Examples.soa_example; Examples.a_gtld;
                                     Examples.wild_a] = Ok z'
         /\ Zone.origin z' = Zone.origin z
         /\ forall r, stored_record z' r
              <-> stored_record z r
                  \/ r ∈ map wire_canonical [Examples.soa_example; Examples.a_gtld;
                                             Examples.wild_a].
Proof.
  eexists. split; [vm_compute; reflexivity|].
  match goal with
  | |- Zone.insert_all ?z _ = _ /\ _ =>
      assert (Hreach : reachable (H := SpecModel.externals) z)
        by (apply (reach_new (Some "example.")); vm_compute; reflexivity);
      pose proof (load_succeeds_iff_in_zone (H := SpecModel.externals)
                    spec_compare_comparator z [Examples.soa_example; Examples.ns_com]
                    Hreach ltac:(vm_compute; reflexivity)) as Hbad;
      pose proof (load_succeeds_iff_in_zone (H := SpecModel.externals)
                    spec_compare_comparator z
                    [Examples.soa_example; Examples.a_gtld; Examples.wild_a]
                    Hreach ltac:(vm_compute; reflexivity)) as Hgood
  end.
  split.
  - match type of Hbad with
    | (if ?b then _ else _) => change b with false in Hbad
    end.
    exact Hbad.
  - match type of Hgood with
    | (if ?b then _ else _) => change b with true in Hgood
    end.
    exact Hgood.
Defined.

(** ** Signing on the fly, proving a name error, settings *)

Section signing_extras.
Context `{Externals}.

(** X24. Signing on the fly. When the map [push] consults for [Q] holds
    an RRset of the type (no CNAME standing in its way) and no RRSIG
    covering the type, and the zone has its ZSK, [push] appends the
    records of the RRset that match [Q] and asks [dnssec.sign] for the
    signature of the whole output list, the records the caller had put
    there included, whether or not a record of the RRset matched [Q]:
    it appends that signature, and throws when [dnssec.sign] throws.
    As [dnssec.sign] rejects the empty list and every list of records
    of more than one type, [push] throws 'Invalid RR set.' when the
    list it was given and the matching records are of more than one
    type, and when the list was empty and no record matched. *)
Theorem push_signs_whole_list (z : Zone.t) (Q : string) (type : Z)
    (rrs an : list RR) (key : RR) (priv : PrivateKey) :
  reachable z ->
  util_isFQDN Q = true -> is_u16 type = true ->
  type = types.CNAME \/ RecordMap.rrs (consulted z Q) !! types.CNAME = None ->
  RecordMap.rrs (consulted z Q) !! type = Some rrs ->
  RecordMap.sigs (consulted z Q) !! Some type = None ->
  Zone.zskkey z = Some key -> Zone.zskpriv z = Some priv ->
  let emitted := map (Helpers.convert Q) (RecordMap.filterMatches Q rrs) in
  Zone.push z Q type (Some an)
  = (sig ← dnssec_sign key priv (an ++ emitted); Ok (an ++ emitted ++ [sig]))
  /\ (sign_rejects_mixed -> one_type (an ++ emitted) = false ->
      Zone.push z Q type (Some an) = Throw InvalidRRSet).
Proof.
  intros Hreach Hf Hu Hcn Hrrs Hsig Hk Hp emitted.
  destruct (consulted_ok z Q (reachable_ok z Hreach)) as [Hr _].
  destruct (Hr _ _ Hrrs) as [Hne _].
  assert (Hpush : Zone.push z Q type (Some an)
                  = (sig ← dnssec_sign key priv (an ++ emitted);
                     Ok (an ++ emitted ++ [sig]))).
  { rewrite Zone_push_consulted.
    rewrite (push_nonempty _ _ (consulted z Q) Q type rrs an) by done.
    rewrite push_rrset_signatures. cbv zeta. fold emitted.
    unfold signatures, on_the_fly. rewrite Hsig, Hk, Hp.
    destruct (dnssec_sign key priv (an ++ emitted)); simpl; [|done..].
    by rewrite <- app_assoc. }
  split; [exact Hpush|].
  intros Hsign Hmixed. rewrite Hpush. by rewrite (Hsign key priv _ Hmixed).
Qed.

End signing_extras.

Section name_error_extras.
Context `{Externals}.

(** X25. The name error the root zone proves. For a name outside the
    authority of a root zone without ZSK, with nothing found at the
    name and no NS at its top-level child, and when [nsec.lower]
    returns a predecessor [p] of the child, the result of [query] has
    empty answer and additional sections, both flags unset, and as
    authority: the SOA RRset of the root, the NSEC RRset of [p], the
    NSEC RRset of the root, each followed by the stored signatures
    covering it. When [p] is the root itself its NSEC RRset is there
    twice. *)
Theorem root_name_error_proof (fuel : nat) (z : Zone.t) (name : string)
    (type : Z) (p : string) (mo mp : RecordMap.t) :
  reachable z ->
  Zone.zskkey z = None ->
  Zone.origin z = "." -> util_isFQDN "." = true ->
  Zone.get z name type = Ok [] ->
  authoritative z name = false ->
  Zone.get z (child_of z name) types.NS = Ok [] ->
  NameList.lower (Zone.nsec z) (child_of z name) = Ok (Some p) ->
  p <> EmptyString -> util_isFQDN p = true ->
  Zone.names z !! "." = Some mo -> RecordMap.rrs mo !! types.CNAME = None ->
  Zone.names z !! p = Some mp -> RecordMap.rrs mp !! types.CNAME = None ->
  Zone.query (S fuel) z name type
  = Ok (Zone.mkAnswer []
          (stored_rrset mo types.SOA ++ stored_rrset mp types.NSEC
           ++ stored_rrset mo types.NSEC)
          [] false false).
Proof.
  intros Hreach Hk Ho Hfr Hget Hau Hns Hlow Hp Hfp Hmo Hco Hmp Hcp.
  pose proof (reachable_ok z Hreach) as Hok.
  destruct (Zone_get_args z name type [] Hget) as [Hf Hu].
  rewrite (query_name_error_root fuel z name type Hf Hu Hget Hau Hns Ho).
  unfold Zone.get.
  rewrite (push_exact_no_cname z "." mo types.SOA [] Hok Hmo Hfr eq_refl)
    by (by right).
  rewrite stored_no_key by done.
  simpl. fold (child_of z name). rewrite Hlow. simpl.
  destruct p as [|a p']; [done|].
  rewrite (push_exact_no_cname z _ mp types.NSEC _ Hok Hmp Hfp eq_refl)
    by (by right).
  rewrite stored_no_key by done. simpl.
  rewrite (push_exact_no_cname z "." mo types.NSEC _ Hok Hmo Hfr eq_refl)
    by (by right).
  rewrite stored_no_key by done. simpl. by rewrite <- app_assoc.
Qed.

End name_error_extras.

Section settings_extras.
Context `{Externals}.

(** X26. The settings of a reachable zone. The origin is the root with
    a label count of zero, as [clear] leaves it, or the lower-case form
    of a fully qualified name with the label count of that form, as
    [setOrigin] leaves it; inserting records and setting the key change
    neither. The public key and the private key are set together or
    not at all. *)
Theorem reachable_settings (z : Zone.t) :
  reachable z ->
  ((Zone.origin z = "." /\ Zone.count z = 0)
   \/ exists o, util_isFQDN o = true
        /\ Zone.origin z = toLowerCase o
        /\ Zone.count z = util_countLabels (toLowerCase o))
  /\ (is_Some (Zone.zskkey z) <-> is_Some (Zone.zskpriv z)).
Proof.
  assert (Hset : forall z origin z',
            Zone.setOrigin z origin = Ok z' ->
            (exists o, util_isFQDN o = true
               /\ Zone.origin z' = toLowerCase o
               /\ Zone.count z' = util_countLabels (toLowerCase o))
            /\ Zone.zskkey z' = Zone.zskkey z /\ Zone.zskpriv z' = Zone.zskpriv z).
  { intros z0 origin z' Hs. unfold Zone.setOrigin in Hs.
    destruct (util_isFQDN (default "." origin)) eqn:Hf; simpl in Hs; [|discriminate].
    inversion Hs; subst z'. simpl. split; [|done]. eauto. }
  induction 1 as [origin z Hnew|z origin z' _ IH Hs|z str z' _ IH Hs
                 |z rr z' _ IH Hins|z _ IH|z _ IH].
  - apply Hset in Hnew as (Ho & Hk & Hp). split; [by right|].
    rewrite Hk, Hp. simpl. split; intros [? ?]; discriminate.
  - apply Hset in Hs as (Ho & Hk & Hp). split; [by right|].
    rewrite Hk, Hp. apply IH.
  - unfold Zone.setZSKFromString in Hs.
    destruct (dnssec_decodePrivate str) as [[alg priv]| |]; simpl in Hs;
      try discriminate.
    inversion Hs; subst z'. simpl. split; [apply IH|].
    split; intros _; eauto.
  - apply insert_inv in Hins as (Ho & Hc & _ & _ & Hk & Hp & _).
    rewrite Ho, Hc, Hk, Hp. exact IH.
  - simpl. split; [by left|]. apply IH.
  - simpl. exact IH.
Qed.

End settings_extras.

Lemma forallb_weaken {A : Type} (f g : A -> bool) (l : list A) :
  (forall x, g x = true -> f x = true) ->
  forallb f l = false -> forallb g l = false.
Proof.
  intros Hfg. induction l as [|x l IH]; [done|]. simpl.
  destruct (g x) eqn:Hg; [|done]. rewrite (Hfg x Hg). simpl. exact IH.
Qed.

(** The [dnssec.sign] of the model rejects the empty list and the
    lists of records of more than one type. *)
Lemma spec_sign_rejects_mixed : sign_rejects_mixed (H := SpecModel.externals).
Proof.
  intros key priv l Hl. destruct l as [|rr l]; [done|].
  assert (Hr : SpecModel.is_rrset (rr :: l) = false).
  { simpl in Hl. simpl. eapply forallb_weaken; [|exact Hl].
    intros x Hx. apply andb_true_iff in Hx as [Hx _].
    by apply andb_true_iff in Hx as [Hx _]. }
  change (dnssec_sign key priv (rr :: l)) with (SpecModel.sign key priv (rr :: l)).
  unfold SpecModel.sign. by rewrite Hr.
Qed.

Lemma push_signs_whole_list_witness :
  exists z0 z key priv,
    build (H := SpecModel.externals) "example." [Examples.wild_a] = Ok z0
    /\ Zone.setZSKFromString z0 Examples.zsk = Ok z
    /\ Zone.zskkey z = Some key /\ Zone.zskpriv z = Some priv
    /\ (exists sig,
          dnssec_sign key priv [with_owner "foo.example." Examples.wild_a] = Ok sig
          /\ Zone.get z "foo.example." types.A
             = Ok [with_owner "foo.example." Examples.wild_a; sig])
    /\ Zone.push z "foo.example." types.A (Some [Examples.soa_example])
       = Throw InvalidRRSet
    /\ Zone.get z "foo.other." types.A = Throw InvalidRRSet.
Proof.
  eexists. eexists. eexists. eexists.
  split; [vm_compute; reflexivity|].
  match goal with
  | |- Zone.setZSKFromString ?z0 _ = _ /\ _ =>
      assert (Hreach0 : reachable (H := SpecModel.externals) z0)
        by (apply (reachable_build "example." [Examples.wild_a]);
            vm_compute; reflexivity)
  end.
  split; [vm_compute; reflexivity|].
  split; [vm_compute; reflexivity|].
  split; [vm_compute; reflexivity|].
  match goal with
  | |- (exists sig, dnssec_sign ?key ?priv _ = _ /\ Zone.get ?z _ _ = _) /\ _ =>
      assert (Hreach : reachable (H := SpecModel.externals) z)
        by (apply (reach_setZSK _ Examples.zsk z Hreach0); vm_compute; reflexivity);
      assert (Hthm : forall Q an,
                util_isFQDN (Externals := SpecModel.externals) Q = true ->
                Zone.names z !! Q = None ->
                let emitted := map (Helpers.convert Q)
                                 (RecordMap.filterMatches (H := SpecModel.externals) Q
                                    [Examples.wild_a]) in
                Zone.push (H := SpecModel.externals) z Q types.A (Some an)
                = (sig ← dnssec_sign key priv (an ++ emitted);
                   Ok (an ++ emitted ++ [sig]))
                /\ (one_type (an ++ emitted) = false ->
                    Zone.push (H := SpecModel.externals) z Q types.A (Some an)
                    = Throw InvalidRRSet))
  end.
  { intros Q an HQ Hnone emitted.
    match goal with
    | |- Zone.push ?z _ _ _ = _ /\ _ =>
        assert (Hc : consulted z Q = Zone.wild z) by (unfold consulted; by rewrite Hnone);
        assert (Hcn : RecordMap.rrs (consulted z Q) !! types.CNAME = None)
          by (rewrite Hc; vm_compute; reflexivity);
        assert (Hrrs : RecordMap.rrs (consulted z Q) !! types.A = Some [Examples.wild_a])
          by (rewrite Hc; vm_compute; reflexivity);
        assert (Hsig : RecordMap.sigs (consulted z Q) !! Some types.A = None)
          by (rewrite Hc; vm_compute; reflexivity);
        destruct (push_signs_whole_list (H := SpecModel.externals) z Q types.A
                    [Examples.wild_a] an _ _ Hreach HQ eq_refl
                    (or_intror Hcn) Hrrs Hsig eq_refl eq_refl) as [Heq Hthrow]
    end.
    split; [exact Heq|]. intros Hm. exact (Hthrow spec_sign_rejects_mixed Hm). }
  split; [|split].
  - eexists. split; [vm_compute; reflexivity|].
    unfold Zone.get.
    rewrite (proj1 (Hthm "foo.example." [] eq_refl ltac:(vm_compute; reflexivity))).
    vm_compute. reflexivity.
  - apply (proj2 (Hthm "foo.example." [Examples.soa_example] eq_refl
                    ltac:(vm_compute; reflexivity))).
    vm_compute. reflexivity.
  - unfold Zone.get.
    apply (proj2 (Hthm "foo.other." [] eq_refl ltac:(vm_compute; reflexivity))).
    vm_compute. reflexivity.
Defined.

Lemma root_name_error_proof_witness :
  exists z, build (H := SpecModel.externals) "."
              [Examples.soa_root; Examples.nsec_root; Examples.nsec_com;
               Examples.ns_com; Examples.a_gtld] = Ok z
    /\ Zone.query 1 z "www.bbb." types.A
       = Ok (Zone.mkAnswer []
               ([Examples.soa_root] ++ [Examples.nsec_root] ++ [Examples.nsec_root])
               [] false false).
Proof.
  eexists. split; [vm_compute; reflexivity|].
  match goal with
  | |- Zone.query _ ?z _ _ = _ =>
      assert (Hreach : reachable (H := SpecModel.externals) z)
        by (apply (reachable_build "."
                     [Examples.soa_root; Examples.nsec_root; Examples.nsec_com;
                      Examples.ns_com; Examples.a_gtld]);
            vm_compute; reflexivity);
      assert (Hget : Zone.get (H := SpecModel.externals) z "www.bbb." types.A = Ok [])
        by (vm_compute; reflexivity);
      assert (Hau : authoritative (H := SpecModel.externals) z "www.bbb." = false)
        by (vm_compute; reflexivity);
      assert (Hns : Zone.get (H := SpecModel.externals) z
                      (child_of (H := SpecModel.externals) z "www.bbb.") types.NS
                    = Ok []) by (vm_compute; reflexivity);
      assert (Hlow : NameList.lower (H := SpecModel.externals) (Zone.nsec z)
                       (child_of (H := SpecModel.externals) z "www.bbb.")
                     = Ok (Some ".")) by (vm_compute; reflexivity);
      assert (Hmo : Zone.names z !! "."
                    = Some (RecordMap.insert
                              (RecordMap.insert RecordMap.empty Examples.soa_root)
                              Examples.nsec_root)) by (vm_compute; reflexivity);
      assert (Hco : RecordMap.rrs (RecordMap.insert
                                     (RecordMap.insert RecordMap.empty Examples.soa_root)
                                     Examples.nsec_root) !! types.CNAME = None)
        by (vm_compute; reflexivity);
      pose proof (root_name_error_proof (H := SpecModel.externals) 0 z "www.bbb."
                    types.A "." _ _ Hreach eq_refl eq_refl eq_refl Hget Hau Hns Hlow
                    ltac:(discriminate) eq_refl Hmo Hco Hmo Hco) as Hw
  end.
  change (stored_rrset _ types.SOA) with [Examples.soa_root] in Hw.
  change (stored_rrset _ types.NSEC) with [Examples.nsec_root] in Hw.
  exact Hw.
Defined.

Lemma reachable_settings_witness :
  exists z, Zone.new (H := SpecModel.externals) (Some "EXAMPLE.") = Ok z
    /\ ((Zone.origin z = "." /\ Zone.count z = 0)
        \/ exists o, util_isFQDN o = true
             /\ Zone.origin z = toLowerCase o
             /\ Zone.count z = util_countLabels (toLowerCase o))
    /\ (is_Some (Zone.zskkey z) <-> is_Some (Zone.zskpriv z)).
Proof.
  eexists. split; [vm_compute; reflexivity|].
  match goal with
  | |- (Zone.origin ?z = _ /\ _ \/ _) /\ _ =>
      exact (reachable_settings (H := SpecModel.externals) z
               (reach_new (Some "EXAMPLE.") z eq_refl))
  end.
Defined.
